(** * The Content field's Slate document pipeline

    A shallow embedding of the three document transforms of the Content
    field type: [serialiseSlateValue] (rich document to plain document plus
    mutation batches), [processSerialised] (mutation paths to join ids) and
    [deserialiseToSlateValue] (persisted document plus fetched records to
    rich document), together with the tree walker they share, the part
    of [lodash.get] the resolver relies on, and the part of the class
    [Content] that builds the block instances and calls the resolver. *)

From stdpp Require Import base option list strings pretty gmap.
From Stdlib Require Import Ascii.

#[local] Set Warnings "-register-all,-clear-no-such-hyp".

(** ** Plain JavaScript data *)

(** JSON-like data: what [JSON.parse] yields, with [undefined] added.
    Numbers are integers.  An object lists its own enumerable properties in
    the order [Object.entries] enumerates them; inherited properties are
    not part of the model. *)
Inductive json : Type :=
  | VUndefined
  | VNull
  | VBool (b : bool)
  | VNum (n : Z)
  | VStr (s : string)
  | VArr (elems : list json)
  | VObj (props : list (string * json)).

Abbreviation obj := (list (string * json)).

(** [!v]: the falsy values are [undefined], [null], [false], [0] and the
    empty string. *)
Definition truthy (v : json) : bool :=
  match v with
  | VUndefined | VNull => false
  | VBool b => b
  | VNum n => negb (n =? 0)%Z
  | VStr s => negb (String.eqb s "")
  | VArr _ | VObj _ => true
  end.

(** [a === b].  Arrays and objects are compared by identity; the two sides
    of every comparison the code makes come from different parses, so two
    structured values are never identical. *)
Definition strict_equal (a b : json) : bool :=
  match a, b with
  | VUndefined, VUndefined | VNull, VNull => true
  | VBool x, VBool y => Bool.eqb x y
  | VNum x, VNum y => (x =? y)%Z
  | VStr x, VStr y => String.eqb x y
  | _, _ => false
  end.

(** Own-property lookup and assignment on a plain object, as an ordered
    list of keys and values.  [o[k] = v] keeps the place of an existing
    property and adds a new one last. *)
Fixpoint alist_get {A} (k : string) (o : list (string * A)) : option A :=
  match o with
  | [] => None
  | (k', v) :: o' => if String.eqb k k' then Some v else alist_get k o'
  end.

Fixpoint alist_set {A} (k : string) (v : A) (o : list (string * A))
    : list (string * A) :=
  match o with
  | [] => [(k, v)]
  | (k', v') :: o' =>
      if String.eqb k k' then (k, v) :: o' else (k', v') :: alist_set k v o'
  end.

Definition obj_get (k : string) (o : obj) : json :=
  default VUndefined (alist_get k o).

Definition obj_has (k : string) (o : obj) : bool :=
  bool_decide (is_Some (alist_get k o)).

Definition obj_set (k : string) (v : json) (o : obj) : obj := alist_set k v o.

(** The characters of a string, as one-character strings. *)
Fixpoint chars (s : string) : list string :=
  match s with
  | EmptyString => []
  | String c s' => String c EmptyString :: chars s'
  end.

(** The position named by a property key in an array of length [len]: the
    [i < len] whose decimal form is the key. *)
Definition array_index (k : string) (len : nat) : option nat :=
  head (filter (λ i, pretty i = k) (seq 0 len)).

Definition nth_or_undefined (l : list json) (i : nat) : json :=
  default VUndefined (l !! i).

(** [v[k]] for a value that is neither [undefined] nor [null]. *)
Definition get_prop (v : json) (k : string) : json :=
  match v with
  | VObj o => obj_get k o
  | VArr l =>
      if String.eqb k "length" then VNum (Z.of_nat (length l))
      else match array_index k (length l) with
           | Some i => nth_or_undefined l i
           | None => VUndefined
           end
  | VStr s =>
      if String.eqb k "length" then VNum (Z.of_nat (String.length s))
      else match array_index k (String.length s) with
           | Some i => from_option VStr VUndefined (chars s !! i)
           | None => VUndefined
           end
  | _ => VUndefined
  end.

(** [Object.entries(v)]. *)
Definition own_entries (v : json) : obj :=
  match v with
  | VObj o => o
  | VArr l => imap (λ i x, (pretty i, x)) l
  | VStr s => imap (λ i c, (pretty i, VStr c)) (chars s)
  | _ => []
  end.

(** [{...target, ...source}]. *)
Definition spread (target : obj) (source : json) : obj :=
  foldl (λ acc kv, obj_set kv.1 kv.2 acc) target (own_entries source).

(** [String(v)], as used for property keys and template literals.  An
    array joins its elements with commas, [undefined] and [null] elements
    giving the empty string. *)
Fixpoint to_string (v : json) : string :=
  match v with
  | VUndefined => "undefined"
  | VNull => "null"
  | VBool true => "true"
  | VBool false => "false"
  | VNum n => pretty n
  | VStr s => s
  | VArr l =>
      (fix join (l : list json) : string :=
         match l with
         | [] => ""
         | x :: l' =>
             let sx := match x with
                       | VUndefined | VNull => ""
                       | _ => to_string x
                       end in
             match l' with
             | [] => sx
             | _ :: _ => sx +:+ "," +:+ join l'
             end
         end) l
  | VObj _ => "[object Object]"
  end.

(** [k in Object(v)], own properties only. *)
Definition has_prop (v : json) (k : string) : bool :=
  match v with
  | VObj o => obj_has k o
  | VArr l => String.eqb k "length" || bool_decide (is_Some (array_index k (length l)))
  | VStr s =>
      String.eqb k "length" || bool_decide (is_Some (array_index k (String.length s)))
  | _ => false
  end.

(** ** [lodash.get]

    The resolver reads mutation results with [getByPath], which is
    [lodash.get].  The model follows lodash 4: [get] calls [baseGet], which
    turns the path into a list of keys with [castPath] (a path that is a
    key of the object is used whole, any other string is cut up by
    [stringToPath] along the regular expression [rePropName]) and then
    descends key by key while the current value is neither [undefined] nor
    [null]. *)
Module Lodash.

Local Open Scope char_scope.

Definition is_digit (c : ascii) : bool :=
  (Nat.leb 48 (nat_of_ascii c) && Nat.leb (nat_of_ascii c) 57)%bool.

(** [\w]: a letter, a digit or the underscore. *)
Definition is_word (c : ascii) : bool :=
  let n := nat_of_ascii c in
  (is_digit c
   || (Nat.leb 65 n && Nat.leb n 90)
   || (Nat.leb 97 n && Nat.leb n 122)
   || Ascii.eqb c "_")%bool.

(** The characters [.], [[] and []] end a plain run of [rePropName]. *)
Definition is_separator (c : ascii) : bool :=
  (Ascii.eqb c "." || Ascii.eqb c "[" || Ascii.eqb c "]")%bool.

Definition is_bracket (c : ascii) : bool :=
  (Ascii.eqb c "[" || Ascii.eqb c "]")%bool.

Definition is_quote (c : ascii) : bool :=
  (Ascii.eqb c "034" || Ascii.eqb c "'")%bool.

(** The regular expression dot matches every character but a line
    terminator. *)
Definition is_line_terminator (c : ascii) : bool :=
  (Ascii.eqb c "010" || Ascii.eqb c "013")%bool.

(** The longest prefix whose characters satisfy [p], and what follows. *)
Fixpoint span (p : ascii → bool) (s : string) : string * string :=
  match s with
  | EmptyString => (EmptyString, EmptyString)
  | String c s' =>
      if p c then let '(a, b) := span p s' in (String c a, b)
      else (EmptyString, s)
  end.

(** [-?\d+(?:\.\d+)?] followed by []], read after an opening bracket:
    the number as written and the count of characters up to and
    including the closing bracket. *)
Definition bracket_number (s : string) : option (string * nat) :=
  let '(sign, s1) :=
    match s with
    | String "-" r => ("-"%string, r)
    | _ => (EmptyString, s)
    end in
  let '(int, s2) := span is_digit s1 in
  if String.eqb int "" then None
  else
    let '(frac, s3) :=
      match s2 with
      | String "." r =>
          let '(digits, r') := span is_digit r in
          if String.eqb digits "" then (EmptyString, s2)
          else (String "." digits, r')
      | _ => (EmptyString, s2)
      end in
    match s3 with
    | String "]" _ =>
        let number := (sign +:+ int +:+ frac)%string in
        Some (number, S (String.length number))
    | _ => None
    end.

(** [((?:(?!\2)[^\\]|\\.)*?)\2\]] read after the opening quote [q]: the
    quoted text and the count of characters up to and including the
    closing bracket. *)
Fixpoint quoted_body (q : ascii) (s : string) : option (string * nat) :=
  match s with
  | EmptyString => None
  | String c r =>
      if Ascii.eqb c q then
        match r with
        | String "]" _ => Some (EmptyString, 2%nat)
        | _ => None
        end
      else if Ascii.eqb c "\" then
        match r with
        | String d r' =>
            if is_line_terminator d then None
            else '(body, n) ← quoted_body q r';
                 Some (String c (String d body), S (S n))
        | EmptyString => None
        end
      else '(body, n) ← quoted_body q r; Some (String c body, S n)
  end.

Definition bracket_quoted (s : string) : option (string * nat) :=
  match s with
  | String q r =>
      if is_quote q then '(body, n) ← quoted_body q r; Some (body, S n)
      else None
  | EmptyString => None
  end.

(** [reEscapeChar]: [subString.replace(/\\(\\)?/g, '$1')]. *)
Fixpoint unescape (s : string) : string :=
  match s with
  | EmptyString => EmptyString
  | String "\" (String "\" r) => String "\" (unescape r)
  | String "\" r => unescape r
  | String c r => String c (unescape r)
  end.

(** [(?:\.|\[\])]: one separator, dropped. *)
Definition strip_separator (s : string) : option string :=
  match s with
  | String "." r => Some r
  | String "[" (String "]" r) => Some r
  | _ => None
  end.

(** The third alternative of [rePropName], an empty match:
    [(?=(?:\.|\[\])(?:\.|\[\]|$))]. *)
Definition empty_key_here (s : string) : bool :=
  match strip_separator s with
  | Some EmptyString => true
  | Some r => bool_decide (is_Some (strip_separator r))
  | None => false
  end.

(** One match of [rePropName] anchored at the start of [s]: the key it
    pushes and the number of characters it covers. *)
Definition match_here (s : string) : option (string * nat) :=
  match s with
  | EmptyString => None
  | String c r =>
      if negb (is_separator c) then
        let run := (span (λ c, negb (is_separator c)) s).1 in
        Some (run, String.length run)
      else if Ascii.eqb c "[" then
        match bracket_number r with
        | Some (number, n) => Some (number, S n)
        | None =>
            match bracket_quoted r with
            | Some (body, n) => Some (unescape body, S n)
            | None => if empty_key_here s then Some (EmptyString, 0%nat) else None
            end
        end
      else if empty_key_here s then Some (EmptyString, 0%nat)
      else None
  end.

(** [string.replace(rePropName, ...)]: the matches from left to right.
    [skip] counts the characters still covered by the last match; after
    an empty match the search moves on by one character. *)
Fixpoint scan (s : string) (skip : nat) : list string :=
  match s with
  | EmptyString => []
  | String _ s' =>
      match skip with
      | S n => scan s' n
      | O =>
          match match_here s with
          | Some (key, n) => key :: scan s' (pred n)
          | None => scan s' 0%nat
          end
      end
  end.

Definition stringToPath (s : string) : list string :=
  match s with
  | String "." _ => EmptyString :: scan s 0%nat
  | _ => scan s 0%nat
  end.

(** [reIsPlainProp = /^\w*$/]. *)
Fixpoint is_plain_prop (s : string) : bool :=
  match s with
  | EmptyString => true
  | String c s' => (is_word c && is_plain_prop s')%bool
  end.

(** [reIsDeepProp]: a dot anywhere, or an opening bracket closed after a
    run without brackets or after a quoted text. *)
Fixpoint is_deep_prop (s : string) : bool :=
  match s with
  | EmptyString => false
  | String c r =>
      (Ascii.eqb c "."
       || (Ascii.eqb c "["
           && (match (span (λ c, negb (is_bracket c)) r).2 with
               | String "]" _ => true
               | _ => false
               end
               || bool_decide (is_Some (bracket_quoted r))))
       || is_deep_prop r)%bool
  end.

Definition isKey (s : string) (object : json) : bool :=
  (is_plain_prop s || negb (is_deep_prop s) || has_prop object s)%bool.

(** [castPath], with [toKey] applied to every key.  An array path is
    taken as it is; numbers, booleans, [null] and [undefined] are single
    keys. *)
Definition castPath (path object : json) : list string :=
  match path with
  | VArr keys => to_string <$> keys
  | VStr _ | VObj _ =>
      let s := to_string path in
      if isKey s object then [s] else stringToPath s
  | _ => [to_string path]
  end.

(** The loop of [baseGet]: [None] when it stops on [undefined] or [null]
    with keys left over. *)
Fixpoint descend (object : json) (keys : list string) : option json :=
  match keys with
  | [] => Some object
  | k :: keys' =>
      match object with
      | VUndefined | VNull => None
      | _ => descend (get_prop object k) keys'
      end
  end.

Definition baseGet (object path : json) : json :=
  match castPath path object with
  | [] => VUndefined
  | keys => default VUndefined (descend object keys)
  end.

(** [get(object, path)], no default value given. *)
Definition get (object path : json) : json :=
  match object with
  | VUndefined | VNull => VUndefined
  | _ => baseGet object path
  end.

End Lodash.

Abbreviation getByPath := Lodash.get.

(** ** Errors and effects *)

(** The errors the three transforms raise, one constructor per [throw] in
    the source, plus the assertion failure of [nanoassert] and the
    [TypeError] the JavaScript runtime raises on a property read of
    [undefined] or [null], a property write on a primitive (the modules are
    strict code) and a call of something that is not a function. *)
Inductive exn : Type :=
  | MustReturnNode
      (* Must return a serialized 'node' when returning 'mutations'. *)
  | NoMutationPath (type : string)
      (* No mutation path set for block view type '<type>'. *)
  | NoBlockForMutation (type : json)
      (* Received mutation for <type>, but no block types can handle it. *)
  | UnknownMutation (mutationPath : json)
      (* Slate document refers to unknown mutation '<mutationPath>'. *)
  | MustReturnSlateNode
      (* <Block>#deserialize() must return a Slate.js Node. *)
  | AssertionError (message : string)
  | TypeError.

(** The error taxonomy of the specification. *)
Inductive error_class : Type :=
  | ConfigurationError
  | ContractViolationError
  | PreconditionError
  | RuntimeError.

Definition class_of (e : exn) : error_class :=
  match e with
  | MustReturnNode | NoMutationPath _ | NoBlockForMutation _ | UnknownMutation _ =>
      ConfigurationError
  | MustReturnSlateNode => ContractViolationError
  | AssertionError _ => PreconditionError
  | TypeError => RuntimeError
  end.

(** How a run ends.  [OutOfFuel] marks a walk cut short by the recursion
    bound of the model; [OffModel] marks a run whose values leave [json]
    (an array that is given a named property). *)
Inductive outcome (A : Type) : Type :=
  | Ok (a : A)
  | Throw (e : exn)
  | OutOfFuel
  | OffModel.
Arguments Ok {A} a.
Arguments Throw {A} e.
Arguments OutOfFuel {A}.
Arguments OffModel {A}.

(** Computations over a mutable store [Σ] that may throw.  The store
    survives a throw: what was written before it stays written. *)
Definition M (Σ A : Type) : Type := Σ → outcome A * Σ.

#[global] Instance M_ret {Σ} : MRet (M Σ) := λ A a σ, (Ok a, σ).

#[global] Instance M_bind {Σ} : MBind (M Σ) := λ A B f m σ,
  match m σ with
  | (Ok a, σ') => f a σ'
  | (Throw e, σ') => (Throw e, σ')
  | (OutOfFuel, σ') => (OutOfFuel, σ')
  | (OffModel, σ') => (OffModel, σ')
  end.

Definition lift {Σ A} (r : outcome A) : M Σ A := λ σ, (r, σ).
Definition throw {Σ A} (e : exn) : M Σ A := lift (Throw e).
Definition get_store {Σ} : M Σ Σ := λ σ, (Ok σ, σ).
Definition put_store {Σ} (σ : Σ) : M Σ unit := λ _, (Ok tt, σ).

(** [array.map(f)] with an effectful callback: left to right. *)
Fixpoint array_map {Σ A B} (f : A → M Σ B) (l : list A) : M Σ (list B) :=
  match l with
  | [] => mret []
  | x :: l' => y ← f x; ys ← array_map f l'; mret (y :: ys)
  end.

(** A loop that threads a local accumulator through an effectful body. *)
Fixpoint for_each {Σ A B} (f : B → A → M Σ B) (b : B) (l : list A) : M Σ B :=
  match l with
  | [] => mret b
  | x :: l' => b' ← f b x; for_each f b' l'
  end.

(** [target[k] = v]. *)
Definition assign (target : json) (k : string) (v : json) : outcome json :=
  match target with
  | VObj o => Ok (VObj (obj_set k v o))
  | VArr _ => OffModel
  | _ => Throw TypeError
  end.

(** [target[k]] where [target] may be [undefined] or [null]. *)
Definition read (target : json) (k : string) : outcome json :=
  match target with
  | VUndefined | VNull => Throw TypeError
  | _ => Ok (get_prop target k)
  end.

(** [arr.push(x)]: the array after the call and its new length. *)
Definition push (arr x : json) : outcome (json * nat) :=
  match arr with
  | VArr l => Ok (VArr (l ++ [x]), length (l ++ [x]))
  | _ => Throw TypeError
  end.

(** ** The tree walker *)

Section walker.
Context {Σ N R : Type}.

(** The two callbacks a caller passes. *)
Record visitors : Type := Visitors {
  visitBlock : N → M Σ (option R);
  defaultVisitor : N → (N → M Σ R) → M Σ R;
}.

(** Whether a node is of the block kind. *)
Variable is_block : N → M Σ bool.

(** Modelled from the spec: the module [slate-walker] is not among the
    sources; this is the contract of section 4.1.  A block node goes to
    [visitBlock]; a result that is neither [null] nor [undefined]
    ([Some]) replaces the node and its subtree is not visited; on [null]
    or [undefined] ([None]), and for every node of another kind,
    [defaultVisitor] is called with the walk itself as [recurse].  The
    recursion is bounded by [fuel], one unit per level of the tree. *)
Fixpoint walkSlateNode (fuel : nat) (v : visitors) (node : N) : M Σ R :=
  match fuel with
  | O => lift OutOfFuel
  | S fuel' =>
      let recurse := walkSlateNode fuel' v in
      b ← is_block node;
      if b : bool then
        r ← visitBlock v node;
        match r with
        | Some replacement => mret replacement
        | None => defaultVisitor v node recurse
        end
      else defaultVisitor v node recurse
  end.
End walker.
Arguments visitors : clear implicits.

(** ** Slate documents *)

(** An immutable Slate node.  [data] is the node's [Data] map; a text node
    has no [nodes] list and keeps its content as plain data. *)
Inductive Node : Type :=
  | Document (data : obj) (nodes : list Node)
  | Block (type : string) (data : obj) (nodes : list Node)
  | Inline (type : string) (data : obj) (nodes : list Node)
  | Text (leaves : json).

(** A Slate [Value]; only its document matters here. *)
Record Value : Type := { document : Node }.

(** [node.object], [node.type], [node.get('data')] and [node.nodes]. *)
Definition Node_object (n : Node) : string :=
  match n with
  | Document _ _ => "document"
  | Block _ _ _ => "block"
  | Inline _ _ _ => "inline"
  | Text _ => "text"
  end.

Definition Node_type (n : Node) : json :=
  match n with
  | Block t _ _ | Inline t _ _ => VStr t
  | Document _ _ | Text _ => VUndefined
  end.

Definition Node_data (n : Node) : option obj :=
  match n with
  | Document d _ | Block _ d _ | Inline _ d _ => Some d
  | Text _ => None
  end.

Definition Node_nodes (n : Node) : option (list Node) :=
  match n with
  | Document _ ns | Block _ _ ns | Inline _ _ ns => Some ns
  | Text _ => None
  end.

(** [node.set('nodes', ns)]. *)
Definition Node_set_nodes (ns : list Node) (n : Node) : Node :=
  match n with
  | Document d _ => Document d ns
  | Block t d _ => Block t d ns
  | Inline t d _ => Inline t d ns
  | Text l => Text l
  end.

(** [node.toJSON()], Slate's own projection to plain data. *)
Fixpoint Node_toJSON (n : Node) : obj :=
  match n with
  | Document d ns =>
      [("object", VStr "document"); ("data", VObj d);
       ("nodes", VArr ((λ c, VObj (Node_toJSON c)) <$> ns))]
  | Block t d ns =>
      [("object", VStr "block"); ("type", VStr t); ("data", VObj d);
       ("nodes", VArr ((λ c, VObj (Node_toJSON c)) <$> ns))]
  | Inline t d ns =>
      [("object", VStr "inline"); ("type", VStr t); ("data", VObj d);
       ("nodes", VArr ((λ c, VObj (Node_toJSON c)) <$> ns))]
  | Text l => [("object", VStr "text"); ("leaves", l)]
  end.

(** The height of a node, the recursion bound of a walk over it. *)
Fixpoint Node_height (n : Node) : nat :=
  match n with
  | Document _ ns | Block _ _ ns | Inline _ _ ns =>
      S (foldr (λ c h, Nat.max (Node_height c) h) O ns)
  | Text _ => 1%nat
  end.

(** A Slate node is of the block kind when its [object] is ["block"]. *)
Definition Node_is_block {Σ} (n : Node) : M Σ bool :=
  mret (String.eqb (Node_object n) "block").

(** ** Block handlers *)

(** What [serialize] returns: [{ mutations, node }], either of which may be
    absent ([undefined]). *)
Record SerializeResult : Type := {
  mutations : json;
  node : json;
}.

(** What [deserialize] returns: a Slate node, or plain data ([null],
    [undefined] or anything else that is not a Slate node). *)
Inductive DeserializeResult : Type :=
  | ReturnsNode (n : Node)
  | ReturnsData (v : json).

(** A block handler.  [path] is [None] when the handler exports none. *)
Record BlockHandler : Type := {
  type : string;
  path : option string;
  serialize : Value → Node → SerializeResult;
  deserialize : Node → list json → DeserializeResult;
  getMutationOperationResults : json → json;
}.

(** [!block.path]. *)
Definition path_set (b : BlockHandler) : option string :=
  match path b with
  | Some p => if String.eqb p "" then None else Some p
  | None => None
  end.

(** ** The serializer *)

(** [mutations && Object.keys(mutations).length]. *)
Definition has_mutations (mutations : json) : bool :=
  truthy mutations && negb (Nat.eqb (length (own_entries mutations)) 0).

(** [Array.isArray(mutationData) ? mutationData : [mutationData]]. *)
Definition as_array (mutationData : json) : list json :=
  match mutationData with
  | VArr l => l
  | _ => [mutationData]
  end.

(** [`${blockPath}.${action}[${index}]`]. *)
Definition mutation_path (blockPath action : string) (index : nat) : string :=
  blockPath +:+ "." +:+ action +:+ "[" +:+ pretty index +:+ "]".

Section serialiseSlateValue.
Variable value : Value.
Variable blocks : gmap string BlockHandler.

(** [function shallowNodeToJson(node)]. *)
Definition shallowNodeToJson (node : Node) : obj :=
  match Node_nodes node with
  | Some _ => Node_toJSON (Node_set_nodes [] node)
  | None => Node_toJSON node
  end.

(** The body of [mutationData.forEach]: one mutation is appended to
    [allMutations[block.path][action]] and its path to the
    [_mutationPaths] array [paths] of the serialized node. *)
Definition gather_mutation (blockPath action : string) (paths mutation : json)
    : M obj json :=
  allMutations ← get_store;
  let batch := obj_get blockPath allMutations in
  '(entries, insertedBefore) ← lift (push (get_prop batch action) mutation);
  batch' ← lift (assign batch action entries);
  put_store (obj_set blockPath batch' allMutations);;
  let mutationPath := mutation_path blockPath action (insertedBefore - 1) in
  '(paths', _) ← lift (push paths (VStr mutationPath));
  mret paths'.

(** The body of [Object.entries(mutations).forEach]. *)
Definition gather_action (blockPath : string) (paths : json)
    (entry : string * json) : M obj json :=
  let '(action, mutationData) := entry in
  allMutations ← get_store;
  let batch := obj_get blockPath allMutations in
  let existing := get_prop batch action in
  batch' ← lift (assign batch action (if truthy existing then existing else VArr []));
  put_store (obj_set blockPath batch' allMutations);;
  for_each (gather_mutation blockPath action) paths (as_array mutationData).

(** [visitBlock] of [serialiseSlateValue]; the store is [allMutations]. *)
Definition serialise_visitBlock (node : Node) : M obj (option json) :=
  match blocks !! to_string (Node_type node) with
  | None => mret None
  | Some block =>
      let '{| mutations := mutations; node := serializedNode |} :=
        serialize block value node in
      if has_mutations mutations then
        if negb (truthy serializedNode) then throw MustReturnNode
        else
          match path_set block with
          | None => throw (NoMutationPath (type block))
          | Some blockPath =>
              allMutations ← get_store;
              let existing := obj_get blockPath allMutations in
              put_store
                (obj_set blockPath
                   (if truthy existing then existing
                    else VObj [("disconnectAll", VBool true)])
                   allMutations);;
              (* serializedNode.data = serializedNode.data || {} *)
              let data := get_prop serializedNode "data" in
              let data := if truthy data then data else VObj [] in
              _ ← lift (assign serializedNode "data" data);
              (* serializedNode.data._mutationPaths =
                   serializedNode.data._mutationPaths || [] *)
              let paths := get_prop data "_mutationPaths" in
              let paths := if truthy paths then paths else VArr [] in
              _ ← lift (assign data "_mutationPaths" paths);
              (* the pushes, then the node as they leave it *)
              paths ← for_each (gather_action blockPath) paths (own_entries mutations);
              data ← lift (assign data "_mutationPaths" paths);
              serializedNode ← lift (assign serializedNode "data" data);
              mret (Some serializedNode)
          end
      else mret (if truthy serializedNode then Some serializedNode else None)
  end.

(** [defaultVisitor] of [serialiseSlateValue]. *)
Definition serialise_defaultVisitor (node : Node) (visitNode : Node → M obj json)
    : M obj json :=
  let visitedNode := shallowNodeToJson node in
  match Node_nodes node with
  | Some nodes =>
      children ← array_map visitNode nodes;
      mret (VObj (obj_set "nodes" (VArr children) visitedNode))
  | None => mret (VObj visitedNode)
  end.

Definition serialise_visitors : visitors obj Node json :=
  Visitors serialise_visitBlock serialise_defaultVisitor.

(** [serialiseSlateValue(value, blocks)]: the walk starts from an empty
    [allMutations] and the result is [{ document, ...allMutations }]. *)
Definition serialiseSlateValue : outcome obj :=
  match walkSlateNode Node_is_block (S (Node_height (document value)))
          serialise_visitors (document value) [] with
  | (Ok serializedDocument, allMutations) =>
      Ok (spread [("document", serializedDocument)] (VObj allMutations))
  | (Throw e, _) => Throw e
  | (OutOfFuel, _) => OutOfFuel
  | (OffModel, _) => OffModel
  end.
End serialiseSlateValue.

(** ** The mutation path resolver *)

(** The height of a value, the recursion bound of a walk over a plain
    document. *)
Fixpoint json_height (v : json) : nat :=
  match v with
  | VArr l => S (foldr (λ x h, Nat.max (json_height x) h) O l)
  | VObj o => S (foldr (λ kv h, Nat.max (json_height kv.2) h) O o)
  | _ => 1%nat
  end.

(** A plain node is of the block kind when its [object] tag says so. *)
Definition json_is_block {Σ} (node : json) : M Σ bool :=
  mret match node with
       | VObj o => strict_equal (obj_get "object" o) (VStr "block")
       | _ => false
       end.

Section processSerialised.
Variable blocks : list BlockHandler.
Variable graphQlArgs : json.

(** [blocks.reduce((mutations, block) => ({ ...mutations,
    ...block.getMutationOperationResults(graphQlArgs) }), {})]. *)
Definition resolvedMutations : obj :=
  foldl (λ mutations block,
           spread (spread [] (VObj mutations))
                  (getMutationOperationResults block graphQlArgs))
        [] blocks.

(** The callback of [node.data._mutationPaths.map]. *)
Definition resolve_path (mutationPath : json) : M unit json :=
  let joinId := getByPath (VObj resolvedMutations) mutationPath in
  if negb (truthy joinId) then throw (UnknownMutation mutationPath)
  else mret joinId.

(** [visitBlock] of [processSerialised]. *)
Definition resolve_visitBlock (node : json) : M unit (option json) :=
  data ← lift (read node "data");
  if negb (truthy data) || negb (truthy (get_prop data "_mutationPaths")) then
    mret (Some node)
  else
    match find (λ b, strict_equal (VStr (type b)) (get_prop node "type")) blocks with
    | None => throw (NoBlockForMutation (get_prop node "type"))
    | Some block =>
        match get_prop data "_mutationPaths" with
        | VArr mutationPaths =>
            _joinIds ← array_map resolve_path mutationPaths;
            mret (Some (VObj (obj_set "data" (VObj [("_joinIds", VArr _joinIds)])
                                      (spread [] node))))
        | _ => throw TypeError
        end
    end.

(** [defaultVisitor] of [processSerialised], on values: [node.nodes] is
    replaced by the visited children. *)
Definition resolve_defaultVisitor (node : json) (visitNode : json → M unit json)
    : M unit json :=
  nodes ← lift (read node "nodes");
  if truthy nodes then
    match nodes with
    | VArr children =>
        visited ← array_map visitNode children;
        lift (assign node "nodes" (VArr visited))
    | _ => throw TypeError
    end
  else mret node.

Definition resolve_visitors : visitors unit json json :=
  Visitors resolve_visitBlock resolve_defaultVisitor.

(** [processSerialised(document, blocks, graphQlArgs)]. *)
Definition processSerialised (doc : json) : outcome obj :=
  match walkSlateNode json_is_block (json_height doc) resolve_visitors doc tt with
  | (Ok resolved, _) => Ok [("document", resolved)]
  | (Throw e, _) => Throw e
  | (OutOfFuel, _) => OutOfFuel
  | (OffModel, _) => OffModel
  end.
End processSerialised.

(** ** The deserializer *)

(** [assert(t, message)] of [nanoassert]. *)
Definition assert {Σ} (t : bool) (message : string) : M Σ unit :=
  if t then mret tt else throw (AssertionError message).

(** The properties left by the rest pattern [{ document, ...serializations }]. *)
Definition without_key (k : string) (o : obj) : obj :=
  filter (λ kv, kv.1 ≠ k) o.

Section deserialiseToSlateValue.
(** Slate's [Value.fromJSON], which builds (and may refuse to build) the
    immutable tree from plain data. *)
Variable Value_fromJSON : obj → outcome Value.

Section visitors.
Variable serializations : obj.
Variable blocks : gmap string BlockHandler.

(** [data.find(({ id }) => joinId === id)]. *)
Fixpoint find_record (joinId : json) (records : list json) : M unit json :=
  match records with
  | [] => mret VUndefined
  | record :: records' =>
      id ← lift (read record "id");
      if strict_equal joinId id then mret record
      else find_record joinId records'
  end.

(** The callback of [.map] that turns one join id into its record. *)
Definition find_join (data joinId : json) : M unit json :=
  match data with
  | VArr records => find_record joinId records
  | _ => throw TypeError
  end.

(** [((nodeData && nodeData.size && nodeData.get('_joinIds')) || [])]. *)
Definition joinIds_of (node : Node) : json :=
  match Node_data node with
  | Some nodeData =>
      if negb (Nat.eqb (length nodeData) 0) && truthy (obj_get "_joinIds" nodeData)
      then obj_get "_joinIds" nodeData
      else VArr []
  | None => VArr []
  end.

(** The [joins] handed to the handler of a node. *)
Definition joins_of (block : BlockHandler) (node : Node) : M unit (list json) :=
  let data := obj_get (to_string (from_option VStr VUndefined (path block)))
                      serializations in
  match joinIds_of node with
  | VArr joinIds => array_map (find_join data) joinIds
  | _ => throw TypeError
  end.

(** [visitBlock] of [deserialiseToSlateValue]. *)
Definition deserialise_visitBlock (node : Node) : M unit (option Node) :=
  match blocks !! to_string (Node_type node) with
  | None => mret None
  | Some block =>
      joins ← joins_of block node;
      match deserialize block node joins with
      | ReturnsNode newNode => mret (Some newNode)
      | ReturnsData newNode =>
          if negb (truthy newNode) then mret None
          else throw MustReturnSlateNode
      end
  end.

(** [defaultVisitor] of [deserialiseToSlateValue]. *)
Definition deserialise_defaultVisitor (node : Node)
    (visitNode : Node → M unit Node) : M unit Node :=
  match Node_nodes node with
  | Some nodes =>
      visited ← array_map visitNode nodes;
      mret (Node_set_nodes visited node)
  | None => mret node
  end.

Definition deserialise_visitors : visitors unit Node Node :=
  Visitors deserialise_visitBlock deserialise_defaultVisitor.
End visitors.

(** [deserialiseToSlateValue({ document, ...serializations }, blocks)];
    [blocks] is [None] when the argument is missing. *)
Definition deserialiseToSlateValue (input : obj)
    (blocks : option (gmap string BlockHandler)) : M unit Value :=
  let doc := obj_get "document" input in
  let serializations := without_key "document" input in
  assert (truthy doc) "Must pass document to deserialiseToSlateValue()";;
  match blocks with
  | None => throw (AssertionError "Must pass blocks to deserialiseToSlateValue()")
  | Some blocks =>
      value ← lift (Value_fromJSON [("document", doc)]);
      walked ← walkSlateNode Node_is_block (S (Node_height (document value)))
                 (deserialise_visitors serializations blocks) (document value);
      mret {| document := walked |}
  end.
End deserialiseToSlateValue.

(** ** The resolver on a store of mutable objects

    [processSerialised] receives the document as parsed JSON, and its
    [defaultVisitor] writes [node.nodes] in place.  To see what the caller's
    document looks like after the call, the same walk is modelled over a
    store: every object and array lives at a location, a property holds
    either a reference or a datum that is only ever read. *)

Abbreviation loc := nat.

Inductive hval : Type :=
  | HData (v : json)
  | HRef (l : loc).

Inductive hobj : Type :=
  | HObject (props : list (string * hval))
  | HArray (elems : list hval).

Abbreviation heap := (list hobj).

Definition htruthy (v : hval) : bool :=
  match v with
  | HData d => truthy d
  | HRef _ => true
  end.

(** [a === b] where [b] is a string. *)
Definition hval_is_string (a : hval) (b : string) : bool :=
  match a with
  | HData d => strict_equal d (VStr b)
  | HRef _ => false
  end.

Definition alloc (o : hobj) : M heap hval :=
  λ h, (Ok (HRef (length h)), h ++ [o]).

Definition deref (v : hval) : M heap (option hobj) :=
  λ h, match v with
       | HRef l =>
           match h !! l with
           | Some o => (Ok (Some o), h)
           | None => (OffModel, h)
           end
       | HData _ => (Ok None, h)
       end.

(** [v[k]]. *)
Definition hread (v : hval) (k : string) : M heap hval :=
  o ← deref v;
  match o, v with
  | Some (HObject props), _ => mret (default (HData VUndefined) (alist_get k props))
  | Some (HArray elems), _ =>
      if String.eqb k "length" then mret (HData (VNum (Z.of_nat (length elems))))
      else mret (default (HData VUndefined)
                   (i ← array_index k (length elems); elems !! i))
  | None, HData d => x ← lift (read d k); mret (HData x)
  | None, HRef _ => lift OffModel
  end.

(** [v[k] = x]. *)
Definition hwrite (v : hval) (k : string) (x : hval) : M heap unit :=
  o ← deref v;
  match o, v with
  | Some (HObject props), HRef l =>
      h ← get_store;
      put_store (<[l := HObject (alist_set k x props)]> h)
  | Some (HArray _), _ => lift OffModel
  | _, _ => throw TypeError
  end.

(** [JSON.parse]: a value laid out in the store, every object and array
    at a location of its own. *)
Fixpoint load (v : json) (h : heap) : hval * heap :=
  match v with
  | VObj o =>
      let '(props, h') :=
        (fix go (o : obj) (h : heap) : list (string * hval) * heap :=
           match o with
           | [] => ([], h)
           | kv :: o' =>
               let '(x, h1) := load kv.2 h in
               let '(props, h2) := go o' h1 in
               ((kv.1, x) :: props, h2)
           end) o h in
      (HRef (length h'), h' ++ [HObject props])
  | VArr l =>
      let '(elems, h') :=
        (fix go (l : list json) (h : heap) : list hval * heap :=
           match l with
           | [] => ([], h)
           | x :: l' =>
               let '(y, h1) := load x h in
               let '(elems, h2) := go l' h1 in
               (y :: elems, h2)
           end) l h in
      (HRef (length h'), h' ++ [HArray elems])
  | _ => (HData v, h)
  end.

(** The value a store holds at [v], read back to depth [fuel]. *)
Fixpoint reify (fuel : nat) (h : heap) (v : hval) : option json :=
  match fuel with
  | O => None
  | S fuel' =>
      match v with
      | HData d => Some d
      | HRef l =>
          match h !! l with
          | Some (HObject props) =>
              VObj <$> mapM (λ kv, pair kv.1 <$> reify fuel' h kv.2) props
          | Some (HArray elems) => VArr <$> mapM (reify fuel' h) elems
          | None => None
          end
      end
  end.

Definition hval_is_block (node : hval) : M heap bool :=
  λ h, match hread node "object" h with
       | (Ok tag, _) => (Ok (hval_is_string tag "block"), h)
       | (_, _) => (Ok false, h)
       end.

Section processSerialised_in_place.
Variable blocks : list BlockHandler.
Variable graphQlArgs : json.

(** The callback of [node.data._mutationPaths.map]; a mutation path is a
    datum. *)
Definition hresolve_path (mutationPath : hval) : M heap hval :=
  match mutationPath with
  | HData p =>
      let joinId := getByPath (VObj (resolvedMutations blocks graphQlArgs)) p in
      if negb (truthy joinId) then throw (UnknownMutation p)
      else mret (HData joinId)
  | HRef _ => lift OffModel
  end.

(** [visitBlock] of [processSerialised]: the block is read, never
    written; [{ ...node, data: { _joinIds } }] is a new object. *)
Definition hresolve_visitBlock (node : hval) : M heap (option hval) :=
  data ← hread node "data";
  if negb (htruthy data) then mret (Some node)
  else
    paths ← hread data "_mutationPaths";
    if negb (htruthy paths) then mret (Some node)
    else
      type_ ← hread node "type";
      match find (λ b, hval_is_string type_ (type b)) blocks with
      | None =>
          (* the message shows [node.type]; an object is shown as such *)
          throw (NoBlockForMutation
                   (match type_ with HData t => t | HRef _ => VObj [] end))
      | Some block =>
          elems ← deref paths;
          match elems with
          | Some (HArray mutationPaths) =>
              _joinIds ← array_map hresolve_path mutationPaths;
              ids ← alloc (HArray _joinIds);
              data' ← alloc (HObject [("_joinIds", ids)]);
              props ← deref node;
              match props with
              | Some (HObject props) =>
                  n ← alloc (HObject (alist_set "data" data' props));
                  mret (Some n)
              | _ => lift OffModel
              end
          | _ => throw TypeError
          end
      end.

(** [defaultVisitor] of [processSerialised]:
    [node.nodes = node.nodes.map(childNode => visitNode(childNode))]
    builds a new array and stores it in the node it was given. *)
Definition hresolve_defaultVisitor (node : hval)
    (visitNode : hval → M heap hval) : M heap hval :=
  nodes ← hread node "nodes";
  if htruthy nodes then
    children ← deref nodes;
    match children with
    | Some (HArray children) =>
        visited ← array_map visitNode children;
        nodes' ← alloc (HArray visited);
        hwrite node "nodes" nodes';;
        mret node
    | _ => throw TypeError
    end
  else mret node.

Definition hresolve_visitors : visitors heap hval hval :=
  Visitors hresolve_visitBlock hresolve_defaultVisitor.

(** The walk of [processSerialised] over the store, to depth [fuel]. *)
Definition processSerialised_in_place (fuel : nat) (doc : hval) : M heap hval :=
  walkSlateNode hval_is_block fuel hresolve_visitors doc.
End processSerialised_in_place.

(** ** The Content field type

    The part of the class [Content] that works on the block instances: the
    normalisation of the [blocks] option and the duplicate check of the
    constructor, [extendAdminMeta], and the [resolveInput] hook the
    constructor gives the auxiliary list, which is the caller of
    [processSerialised].  The creation of the auxiliary list and the
    GraphQL plumbing are left out. *)

(** A block instance as the field type uses it: the handler the three
    transforms work with, and the options it sends to the admin
    interface ([block.getViewOptions()]). *)
Record BlockInstance : Type := {
  handler : BlockHandler;
  getViewOptions : json;
}.

(** [({ type }) => type]. *)
Definition block_type (block : BlockInstance) : string := type (handler block).

(** The error the constructor of [Content] throws. *)
Inductive ContentError : Type :=
  | DuplicateBlockType (currentType : string).
    (* Encountered duplicate Content block type '<currentType>'. *)

(** The inner loop of the duplicate check: [currentType] against the
    instances after it. *)
Fixpoint check_against (currentType : string) (rest : list BlockInstance)
    : ContentError + unit :=
  match rest with
  | [] => inr tt
  | check :: rest' =>
      if String.eqb currentType (block_type check)
      then inl (DuplicateBlockType currentType)
      else check_against currentType rest'
  end.

(** The outer loop: every instance against those after it, in order. *)
Fixpoint check_duplicates (blockInstances : list BlockInstance)
    : ContentError + unit :=
  match blockInstances with
  | [] => inr tt
  | current :: rest =>
      match check_against (block_type current) rest with
      | inl e => inl e
      | inr _ => check_duplicates rest
      end
  end.

Section Content.
(** What every block is constructed with besides its own config: the
    lists and the list registry of the field. *)
Context {Ctx : Type}.

(** A block class, as the function from the arguments of [new] to the
    instance. *)
Definition BlockClass : Type := json → Ctx → BlockInstance.

(** An element of the [blocks] option: a class, or a tuple of a class
    and its config. *)
Inductive BlockEntry : Type :=
  | BareBlock (block : BlockClass)
  | BlockTuple (block : BlockClass) (blockConfig : json).

(** [./blocks/paragraph], which is not among the sources. *)
Variable paragraph : BlockClass.

Definition DEFAULT_BLOCKS : list (BlockClass * json) := [(paragraph, VObj [])].

(** [(Array.isArray(inputBlocks) ? inputBlocks : []).map(block =>
    Array.isArray(block) ? block : [block, {}])], then
    [blocks.push(...DEFAULT_BLOCKS)].  [inputBlocks] is [None] when the
    option is no array. *)
Definition normalise_blocks (inputBlocks : option (list BlockEntry))
    : list (BlockClass * json) :=
  ((λ block, match block with
             | BlockTuple block blockConfig => (block, blockConfig)
             | BareBlock block => (block, VObj [])
             end) <$> default [] inputBlocks)
  ++ DEFAULT_BLOCKS.

(** The block instances of a [Content] field, or the error of the
    duplicate check. *)
Definition Content_blocks (inputBlocks : option (list BlockEntry)) (ctx : Ctx)
    : ContentError + list BlockInstance :=
  let blockInstances :=
    (λ '(block, blockConfig), block blockConfig ctx) <$> normalise_blocks inputBlocks in
  match check_duplicates blockInstances with
  | inl e => inl e
  | inr _ => inr blockInstances
  end.

(** The instance an element of the [blocks] option gives. *)
Definition instantiate (ctx : Ctx) (entry : BlockEntry) : BlockInstance :=
  match entry with
  | BareBlock block => block (VObj []) ctx
  | BlockTuple block blockConfig => block blockConfig ctx
  end.
End Content.

(** [blockConfig && Object.keys(blockConfig).length]. *)
Definition has_view_options (blockConfig : json) : bool :=
  truthy blockConfig && negb (Nat.eqb (length (own_entries blockConfig)) 0).

(** The [blockOptions] of [extendAdminMeta]: the non-empty view options,
    keyed by block type. *)
Definition blockOptions (blocks : list BlockInstance) : obj :=
  foldl (λ options block,
           obj_set (block_type block.1) block.2 (spread [] (VObj options)))
        []
        (filter (λ block, has_view_options block.2 = true)
                ((λ block, (block, getViewOptions block)) <$> blocks)).

(** [extendAdminMeta(meta)]. *)
Definition extendAdminMeta (blocks : list BlockInstance) (meta : json) : obj :=
  obj_set "blockOptions" (VObj (blockOptions blocks))
    (obj_set "blockTypes" (VArr (VStr ∘ block_type <$> blocks))
       (spread [] meta)).

Section resolveInput.
(** [JSON.parse] and [JSON.stringify]. *)
Variable JSON_parse : json → outcome json.
Variable JSON_stringify : json → outcome json.
Variable blockInstances : list BlockInstance.

(** The [resolveInput] hook of the auxiliary list, called with
    [{ resolvedData, ...args }]. *)
Definition resolveInput (input : obj) : M unit json :=
  let resolvedData := obj_get "resolvedData" input in
  let args := VObj (without_key "resolvedData" input) in
  document ← lift (read resolvedData "document");
  if negb (truthy document) then mret resolvedData
  else
    documentObj ← lift (JSON_parse document);
    result ← lift (processSerialised (handler <$> blockInstances) args documentObj);
    document ← lift (JSON_stringify (obj_get "document" result));
    mret (VObj (obj_set "document" document (spread [] resolvedData))).
End resolveInput.

(** ** Vocabulary of the statements *)

(** A key that [rePropName] reads as one plain run: it is not empty and
    holds no [.], [[] or []]. *)
Fixpoint no_separator (s : string) : bool :=
  match s with
  | EmptyString => true
  | String c s' => negb (Lodash.is_separator c) && no_separator s'
  end.

Definition plain_key (s : string) : bool :=
  negb (String.eqb s "") && no_separator s.

(** The data map of a plain node: its [data] property when that is an
    object, the empty map when it is absent or falsy. *)
Definition node_data (n : obj) : option obj :=
  match obj_get "data" n with
  | VObj d => Some d
  | v => if truthy v then None else Some []
  end.

(** The first of the fetched records whose [id] is the join id, or
    [undefined] when there is none. *)
Definition record_for (records : list json) (joinId : json) : json :=
  default VUndefined (find (λ r, strict_equal joinId (get_prop r "id")) records).

(** A fetched record is an object or a primitive, not [undefined] or
    [null]. *)
Definition is_record (r : json) : bool :=
  match r with
  | VUndefined | VNull => false
  | _ => true
  end.

(** The mutations a handler result holds, action by action. *)
Definition emitted_mutations (mutations : json) : list json :=
  flat_map (λ entry, as_array entry.2) (own_entries mutations).

Section reached.
Variable value : Value.
Variable blocks : gmap string BlockHandler.

(** The handler registered for a node, when the node is a block. *)
Definition handler_of (n : Node) : option BlockHandler :=
  if String.eqb (Node_object n) "block"
  then blocks !! to_string (Node_type n)
  else None.

(** A block whose handler returns a node: the walk replaces it and does
    not enter it. *)
Definition claimed (n : Node) : bool :=
  match handler_of n with
  | Some b => truthy (node (serialize b value n))
  | None => false
  end.

(** The nodes the walk of [serialiseSlateValue] arrives at, in order: a
    node, then the nodes below each of its children unless the node is
    claimed. *)
Fixpoint reached (n : Node) : list Node :=
  n :: (if claimed n then []
        else match n with
             | Document _ children | Block _ _ children | Inline _ _ children =>
                 flat_map reached children
             | Text _ => []
             end).

(** The handler of [n], if it has mutations, returns a node and declares
    a path: [n] passes the two checks of the serializer. *)
Definition passes_checks (n : Node) : Prop :=
  ∀ b, handler_of n = Some b →
       has_mutations (mutations (serialize b value n)) = true →
       truthy (node (serialize b value n)) = true ∧ is_Some (path_set b).

(** The handler of [n] returns a non-empty mutations map and its path
    is [p]. *)
Definition emits (n : Node) (p : string) : bool :=
  match handler_of n with
  | Some b =>
      has_mutations (mutations (serialize b value n))
      && bool_decide (path_set b = Some p)
  | None => false
  end.
End reached.

(** The nodes the walk of [processSerialised] arrives at: a node, then
    the nodes below each element of its [nodes] list unless the node is a
    block. *)
Fixpoint json_reached (v : json) : list json :=
  v :: match v with
       | VObj o =>
           if strict_equal (obj_get "object" o) (VStr "block") then []
           else (fix below (o : obj) : list json :=
                   match o with
                   | [] => []
                   | (k, x) :: o' =>
                       if String.eqb "nodes" k then
                         match x with
                         | VArr children => flat_map json_reached children
                         | _ => []
                         end
                       else below o'
                   end) o
       | _ => []
       end.

Section resolves.
Variable blocks : list BlockHandler.
Variable graphQlArgs : json.

(** A block that carries [data._mutationPaths] has a handler, and each of
    its paths, when they are a list, looks up to a truthy result. *)
Definition resolves (n : json) : Prop :=
  ∀ o, n = VObj o →
       obj_get "object" o = VStr "block" →
       truthy (obj_get "data" o) = true →
       truthy (get_prop (obj_get "data" o) "_mutationPaths") = true →
       is_Some (find (λ b, strict_equal (VStr (type b)) (obj_get "type" o)) blocks)
       ∧ ∀ paths,
           get_prop (obj_get "data" o) "_mutationPaths" = VArr paths →
           Forall (λ p, truthy (getByPath (VObj (resolvedMutations blocks graphQlArgs)) p)
                        = true) paths.
End resolves.

(** A batch as the serializer keeps it: an object whose [disconnectAll]
    is [true]. *)
Definition batch_ok (v : json) : Prop :=
  ∃ batch, v = VObj batch ∧ obj_get "disconnectAll" batch = VBool true.

(** The batches of a walk in progress: distinct paths, each with a batch. *)
Definition store_ok (σ : obj) : Prop :=
  NoDup σ.*1 ∧ ∀ p v, alist_get p σ = Some v → batch_ok v.

(** A step that writes the batch of [p] and no other. *)
Definition touches_only (p : string) (σ σ' : obj) : Prop :=
  (NoDup σ.*1 → NoDup σ'.*1)
  ∧ (batch_ok (obj_get p σ) → batch_ok (obj_get p σ'))
  ∧ ∀ q, q ≠ p → alist_get q σ' = alist_get q σ.

(** An object of the store is a block when its [object] is ["block"]. *)
Definition is_block_object (props : list (string * hval)) : bool :=
  hval_is_string (default (HData VUndefined) (alist_get "object" props)) "block".

(** What a walk of the resolver may have done to an object of the store:
    nothing to an array, nothing to a block, and to any other object
    nothing but a write of its [nodes] property. *)
Definition object_frame (o o' : hobj) : Prop :=
  match o, o' with
  | HArray elems, HArray elems' => elems' = elems
  | HObject props, HObject props' =>
      (∀ k, k ≠ "nodes" → alist_get k props' = alist_get k props)
      ∧ (is_block_object props = true → props' = props)
  | _, _ => False
  end.

Definition heap_frame (h h' : heap) : Prop :=
  ∀ l o, h !! l = Some o → ∃ o', h' !! l = Some o' ∧ object_frame o o'.

(** A string of decimal digits. *)
Fixpoint all_digits (s : string) : bool :=
  match s with
  | EmptyString => true
  | String c s' => Lodash.is_digit c && all_digits s'
  end.

(** All the nodes of a tree, a node before the nodes below it. *)
Fixpoint subnodes (n : Node) : list Node :=
  n :: match n with
       | Document _ children | Block _ _ children | Inline _ _ children =>
           flat_map subnodes children
       | Text _ => []
       end.

Section declines.
Variable value : Value.
Variable blocks : gmap string BlockHandler.

(** A handler that returns neither a node nor mutations leaves the node
    to the structural projection. *)
Definition declines (n : Node) : Prop :=
  ∀ b, handler_of blocks n = Some b →
       has_mutations (mutations (serialize b value n)) = false
       ∧ truthy (node (serialize b value n)) = false.
End declines.

Section left_alone.
Variable serializations : obj.
Variable blocks : gmap string BlockHandler.

(** The handler of [n], if there is one, is given its joins and returns
    a falsy value: the deserializer leaves [n] to the default visitor. *)
Definition left_alone (n : Node) : Prop :=
  ∀ b, handler_of blocks n = Some b →
       ∃ joins v,
         joins_of serializations b n tt = (Ok joins, tt)
         ∧ deserialize b n joins = ReturnsData v
         ∧ truthy v = false.
End left_alone.

(** A node the resolver has nothing to do on: a block that carries no
    [data._mutationPaths], or a node of another kind whose [nodes], if it
    has any, is a list.  [undefined] and [null] are no nodes. *)
Definition passes_through (n : json) : bool :=
  match n with
  | VUndefined | VNull => false
  | VObj o =>
      if strict_equal (obj_get "object" o) (VStr "block")
      then negb (truthy (obj_get "data" o))
           || negb (truthy (get_prop (obj_get "data" o) "_mutationPaths"))
      else match obj_get "nodes" o with
           | VArr _ => true
           | nodes => negb (truthy nodes)
           end
  | _ => true
  end.

(** A node as [JSON.parse] gives it: an object has no key twice. *)
Definition distinct_keys (n : json) : Prop :=
  match n with
  | VObj o => NoDup o.*1
  | _ => True
  end.

(** The entries the batches [σ] hold for the action [a] of the path
    [p]. *)
Definition entries_at (σ : obj) (p a : string) : list json :=
  match get_prop (obj_get p σ) a with
  | VArr entries => entries
  | _ => []
  end.

Section filed.
Variable value : Value.
Variable blocks : gmap string BlockHandler.

(** The mutations the handler of [n] returns for the action [a], when
    its path is [p]. *)
Definition filed (p a : string) (n : Node) : list json :=
  match handler_of blocks n with
  | Some b =>
      if emits value blocks n p
      then flat_map (λ entry, if String.eqb entry.1 a then as_array entry.2 else [])
                    (own_entries (mutations (serialize b value n)))
      else []
  | None => []
  end.
End filed.

(** ** Sample handlers and documents *)

Module Sample.

(** The image handler of the specification's scenarios: it moves the data
    of the block into one [create] mutation under the path [images], and
    rebuilds the block from the join it is given. *)
Definition image : BlockHandler := {|
  type := "image";
  path := Some "images";
  serialize := λ _ n,
    {| mutations := VObj [("create", VObj (default [] (Node_data n)))];
       node := VObj [("object", VStr "block"); ("type", VStr "image");
                     ("data", VObj [])] |};
  deserialize := λ n joins,
    match joins with
    | [VObj record] => ReturnsNode (Block "image" (without_key "id" record) [])
    | _ => ReturnsData VNull
    end;
  getMutationOperationResults := λ args, args;
|}.

(** A handler that creates two records for every block. *)
Definition gallery : BlockHandler := {|
  type := "gallery";
  path := Some "images";
  serialize := λ _ n,
    {| mutations := VObj [("create", VArr [VObj [("slot", VNum 1)];
                                           VObj [("slot", VNum 2)]])];
       node := VObj [("object", VStr "block"); ("type", VStr "gallery")] |};
  deserialize := λ _ _, ReturnsData VNull;
  getMutationOperationResults := λ args, args;
|}.

(** A handler whose mutations map has an action and no mutation in it. *)
Definition idle : BlockHandler := {|
  type := "idle";
  path := Some "links";
  serialize := λ _ n,
    {| mutations := VObj [("create", VArr [])];
       node := VObj [("object", VStr "block"); ("type", VStr "idle")] |};
  deserialize := λ _ _, ReturnsData VNull;
  getMutationOperationResults := λ args, args;
|}.

(** A handler that returns neither a node nor mutations. *)
Definition silent : BlockHandler := {|
  type := "note";
  path := Some "notes";
  serialize := λ _ _, {| mutations := VUndefined; node := VUndefined |};
  deserialize := λ _ _, ReturnsData VUndefined;
  getMutationOperationResults := λ _, VObj [];
|}.

(** A handler that returns mutations and no node. *)
Definition nodeless : BlockHandler := {|
  type := "ghost";
  path := Some "ghosts";
  serialize := λ _ _,
    {| mutations := VObj [("create", VObj [])]; node := VUndefined |};
  deserialize := λ _ _, ReturnsData VUndefined;
  getMutationOperationResults := λ _, VObj [];
|}.

(** A handler that returns mutations and declares no path. *)
Definition pathless : BlockHandler := {|
  type := "stray";
  path := None;
  serialize := λ _ _,
    {| mutations := VObj [("create", VObj [])];
       node := VObj [("object", VStr "block"); ("type", VStr "stray")] |};
  deserialize := λ _ _, ReturnsData VUndefined;
  getMutationOperationResults := λ _, VObj [];
|}.

Definition file : json := VStr "F".

Definition image_block : Node :=
  Block "image" [("file", file); ("align", VStr "center")] [].

Definition image_document : Value := {| document := Document [] [image_block] |}.

Definition gallery_document : Value :=
  {| document := Document [] [Block "gallery" [] []] |}.

(** A serialized image block that refers to the first created record. *)
Definition serialized_image : json :=
  VObj [("object", VStr "block"); ("type", VStr "image");
        ("data", VObj [("_mutationPaths", VArr [VStr "images.create[0]"])])].

(** The results of the storage layer for one created image. *)
Definition image_results : json :=
  VObj [("images", VObj [("create", VArr [VObj [("id", VStr "abc123")]])])].

(** A plain paragraph block that holds a serialized image block. *)
Definition quoted_image : json :=
  VObj [("object", VStr "block"); ("type", VStr "paragraph");
        ("nodes", VArr [serialized_image])].

(** A document node that holds a serialized image block. *)
Definition serialized_document : json :=
  VObj [("object", VStr "document"); ("nodes", VArr [serialized_image])].

(** A persisted image block and the records fetched for it. *)
Definition persisted_image : Node :=
  Block "image" [("_joinIds", VArr [VStr "abc123"])] [].

(** A persisted image block whose second join id no record has. *)
Definition orphaned_image : Node :=
  Block "image" [("_joinIds", VArr [VStr "abc123"; VStr "gone"])] [].

Definition fetched : obj :=
  [("images", VArr [VObj [("id", VStr "abc123"); ("publicUrl", VStr "http://x");
                          ("align", VStr "center")]])].

(** A stand-in for Slate's parser that knows one document. *)
Definition fromJSON (o : obj) : outcome Value :=
  Ok {| document := Document [] [persisted_image] |}.

End Sample.

(** ** Sample block instances *)

Module Blocks.

(** A block that carries a type and nothing else: it has no path, its
    handler declines every node, and it sends no view options.  The
    block classes among the sources ([LinkBlock], [CaptionBlock],
    [OrderedListBlock]) define [type] and [getAdminViews] only; what they
    inherit is taken to be this. *)
Definition structural (type : string) : BlockInstance := {|
  handler := {|
    type := type;
    path := None;
    serialize := λ _ _, {| mutations := VUndefined; node := VUndefined |};
    deserialize := λ _ _, ReturnsData VUndefined;
    getMutationOperationResults := λ _, VObj [];
  |};
  getViewOptions := VUndefined;
|}.

Definition LinkBlock : BlockClass (Ctx := unit) := λ _ _, structural "link".
Definition CaptionBlock : BlockClass (Ctx := unit) := λ _ _, structural "caption".
Definition OrderedListBlock : BlockClass (Ctx := unit) :=
  λ _ _, structural "ordered-list".
Definition paragraph : BlockClass (Ctx := unit) := λ _ _, structural "paragraph".

(** A block that sends its config to the admin interface. *)
Definition embed : BlockClass (Ctx := unit) := λ blockConfig _, {|
  handler := handler (structural "embed");
  getViewOptions := blockConfig;
|}.

(** A handler whose [deserialize] returns text. *)
Definition rogue : BlockHandler := {|
  type := "rogue";
  path := None;
  serialize := λ _ _, {| mutations := VUndefined; node := VUndefined |};
  deserialize := λ _ _, ReturnsData (VStr "oops");
  getMutationOperationResults := λ _, VObj [];
|}.

(** Two handlers whose results share the key [images]. *)
Definition early : BlockHandler := {|
  type := "early";
  path := Some "images";
  serialize := λ _ _, {| mutations := VUndefined; node := VUndefined |};
  deserialize := λ _ _, ReturnsData VUndefined;
  getMutationOperationResults := λ _, VObj [("images", VNum 1)];
|}.

Definition late : BlockHandler := {|
  type := "late";
  path := Some "images";
  serialize := λ _ _, {| mutations := VUndefined; node := VUndefined |};
  deserialize := λ _ _, ReturnsData VUndefined;
  getMutationOperationResults := λ _, VObj [("images", VNum 2); ("links", VNum 3)];
|}.

(** A document of an image block and a gallery block, and one of a
    paragraph of text. *)
Definition album : Value :=
  {| document := Document [] [Sample.image_block; Block "gallery" [] []] |}.

Definition note : Value :=
  {| document := Document [] [Block "note" [] [Text (VStr "hi")]] |}.

(** The batches after one image has been filed. *)
Definition one_image : obj :=
  [("images", VObj [("disconnectAll", VBool true);
                    ("create", VArr [VObj [("slot", VNum 0)]])])].

(** A plain document of one paragraph. *)
Definition plain_document : json :=
  VObj [("object", VStr "document");
        ("nodes", VArr [VObj [("object", VStr "block"); ("type", VStr "paragraph");
                              ("nodes", VArr [VObj [("object", VStr "text")]])]])].

(** A handler that names an action [disconnectAll]. *)
Definition sweeper : BlockHandler := {|
  type := "sweeper";
  path := Some "links";
  serialize := λ _ _,
    {| mutations := VObj [("disconnectAll", VObj [("id", VStr "abc123")])];
       node := VObj [("object", VStr "block"); ("type", VStr "sweeper")] |};
  deserialize := λ _ _, ReturnsData VUndefined;
  getMutationOperationResults := λ _, VObj [];
|}.

End Blocks.

(** * Properties *)

(** ** Association lists *)

Lemma eqb_decide (a b : string) : String.eqb a b = bool_decide (a = b).
Proof.
  destruct (String.eqb_spec a b);
    [by rewrite bool_decide_eq_true_2 | by rewrite bool_decide_eq_false_2].
Qed.

Ltac string_cases :=
  rewrite ?eqb_decide in *;
  repeat (case_bool_decide; simplify_eq/=; rewrite ?eqb_decide in * );
  try done.

Lemma alist_get_set_eq {A} k (v : A) o : alist_get k (alist_set k v o) = Some v.
Proof. induction o as [|[k' v'] o IH]; simpl; string_cases. Qed.

Lemma alist_get_set_ne {A} k k' (v : A) o :
  k ≠ k' → alist_get k' (alist_set k v o) = alist_get k' o.
Proof. intros Hne. induction o as [|[k0 v0] o IH]; simpl; string_cases. Qed.

Lemma alist_get_set {A} k k' (v : A) o :
  alist_get k' (alist_set k v o) = if decide (k = k') then Some v else alist_get k' o.
Proof.
  case_decide as H; [subst; apply alist_get_set_eq | by apply alist_get_set_ne].
Qed.

Lemma alist_set_fresh {A} k (v : A) o : k ∉ o.*1 → alist_set k v o = o ++ [(k, v)].
Proof.
  induction o as [|[k' v'] o IH]; simpl; [done|].
  intros [Hne Hk]%not_elem_of_cons. string_cases. by rewrite IH.
Qed.

Lemma alist_set_keys {A} k (v : A) o : k ∈ o.*1 → (alist_set k v o).*1 = o.*1.
Proof.
  induction o as [|[k' v'] o IH]; simpl; [by intros ?%elem_of_nil|].
  intros Hk. string_cases. f_equal. apply IH. set_solver.
Qed.

Lemma alist_set_keys_NoDup {A} k (v : A) o : NoDup o.*1 → NoDup (alist_set k v o).*1.
Proof.
  intros Hnd. destruct (decide (k ∈ o.*1)) as [Hk|Hk].
  - by rewrite alist_set_keys.
  - rewrite alist_set_fresh, fmap_app by done. simpl.
    apply NoDup_app. split_and!; [done | | apply NoDup_singleton].
    intros x Hx ->%list_elem_of_singleton. done.
Qed.

Lemma alist_get_Some_key {A} k (v : A) o : alist_get k o = Some v → k ∈ o.*1.
Proof.
  induction o as [|[k' v'] o IH]; simpl; [done|].
  destruct (String.eqb k k') eqn:E.
  - apply String.eqb_eq in E as ->. left.
  - right. by apply IH.
Qed.


Lemma obj_get_set k k' v o :
  obj_get k' (obj_set k v o) = if decide (k = k') then v else obj_get k' o.
Proof. unfold obj_get, obj_set. rewrite alist_get_set. by case_decide. Qed.


(** Copying an object with distinct keys, property by property, gives the
    same object. *)
Lemma foldl_obj_set_app (o1 o2 : obj) :
  NoDup (o1 ++ o2).*1 →
  foldl (λ acc kv, obj_set kv.1 kv.2 acc) o1 o2 = o1 ++ o2.
Proof.
  revert o1. induction o2 as [|[k v] o2 IH]; intros o1 Hnd; simpl.
  - by rewrite app_nil_r.
  - unfold obj_set at 2. rewrite alist_set_fresh.
    + rewrite IH; by rewrite <-app_assoc.
    + rewrite fmap_app in Hnd. apply NoDup_app in Hnd as (_ & Hdisj & _).
      intros ?. eapply Hdisj; [done | left].
Qed.

Lemma spread_empty_id (o : obj) : NoDup o.*1 → spread [] (VObj o) = o.
Proof. intros. unfold spread. simpl. by rewrite foldl_obj_set_app. Qed.

(** ** Effects *)

Ltac unfold_M :=
  unfold mbind, mret, M_bind, M_ret, lift, throw, get_store, put_store in *.

Lemma bind_Ok {Σ A B} (m : M Σ A) (f : A → M Σ B) σ a σ' :
  m σ = (Ok a, σ') → (m ≫= f) σ = f a σ'.
Proof. unfold_M. by intros ->. Qed.

Lemma bind_Throw {Σ A B} (m : M Σ A) (f : A → M Σ B) σ e σ' :
  m σ = (Throw e, σ') → (m ≫= f) σ = (Throw e, σ').
Proof. unfold_M. by intros ->. Qed.

Lemma bind_inv_Ok {Σ A B} (m : M Σ A) (f : A → M Σ B) σ b σ' :
  (m ≫= f) σ = (Ok b, σ') → ∃ a σ1, m σ = (Ok a, σ1) ∧ f a σ1 = (Ok b, σ').
Proof. unfold_M. destruct (m σ) as [[a| | |] σ1]; naive_solver. Qed.

Lemma bind_fuel {Σ A B} (m : M Σ A) (f : A → M Σ B) σ :
  (m σ).1 ≠ OutOfFuel →
  (∀ a σ1, m σ = (Ok a, σ1) → (f a σ1).1 ≠ OutOfFuel) →
  ((m ≫= f) σ).1 ≠ OutOfFuel.
Proof. unfold_M. destruct (m σ) as [[a| | |] σ1]; naive_solver. Qed.


(** A callback that agrees with [f] wherever [f] has fuel enough gives the
    same [map]. *)
Lemma array_map_mono {Σ A B} (f g : A → M Σ B) l σ :
  (∀ x σ, (f x σ).1 ≠ OutOfFuel → g x σ = f x σ) →
  (array_map f l σ).1 ≠ OutOfFuel →
  array_map g l σ = array_map f l σ.
Proof.
  intros Hfg. revert σ. induction l as [|x l IH]; intros σ; [done|]. simpl. unfold_M.
  pose proof (Hfg x σ) as Hx.
  destruct (f x σ) as [[y| | |] σ1]; simpl in *; intros Hfuel;
    rewrite Hx by done; try done.
  specialize (IH σ1).
  destruct (array_map f l σ1) as [[ys| | |] σ2]; simpl in *;
    rewrite IH by done; done.
Qed.

Lemma array_map_fuel {Σ A B} (f : A → M Σ B) l σ :
  (∀ x σ, x ∈ l → (f x σ).1 ≠ OutOfFuel) → (array_map f l σ).1 ≠ OutOfFuel.
Proof.
  revert σ. induction l as [|x l IH]; intros σ Hf; [done|]. simpl.
  apply bind_fuel; [apply Hf; left|]. intros y σ1 _.
  apply bind_fuel; [apply IH; intros; apply Hf; by right|]. done.
Qed.

Lemma array_map_Ok_length {Σ A B} (f : A → M Σ B) l σ ys σ' :
  array_map f l σ = (Ok ys, σ') → length ys = length l.
Proof.
  revert σ ys. induction l as [|x l IH]; intros σ ys; simpl; unfold_M.
  - intros ?. by simplify_eq.
  - destruct (f x σ) as [[y| | |] σ1]; try done.
    specialize (IH σ1). destruct (array_map f l σ1) as [[ys'| | |] σ2]; try done.
    intros ?. simplify_eq/=. f_equal. by eapply IH.
Qed.

(** ** The walker *)

Section walker_facts.
Context {Σ N R : Type}.
Variable is_block : N → M Σ bool.
Variable v : visitors Σ N R.

Lemma walk_unfold fuel node :
  walkSlateNode is_block (S fuel) v node =
  (b ← is_block node;
   if b : bool then
     r ← visitBlock v node;
     match r with
     | Some replacement => mret replacement
     | None => defaultVisitor v node (walkSlateNode is_block fuel v)
     end
   else defaultVisitor v node (walkSlateNode is_block fuel v)).
Proof. done. Qed.

(** More fuel does not change a walk that had enough, provided the
    default visitor uses its callback monotonically. *)
Hypothesis default_mono : ∀ node g1 g2 σ,
  (∀ c σ', (g1 c σ').1 ≠ OutOfFuel → g2 c σ' = g1 c σ') →
  (defaultVisitor v node g1 σ).1 ≠ OutOfFuel →
  defaultVisitor v node g2 σ = defaultVisitor v node g1 σ.

Lemma walk_fuel_mono fuel fuel' node σ :
  fuel ≤ fuel' →
  (walkSlateNode is_block fuel v node σ).1 ≠ OutOfFuel →
  walkSlateNode is_block fuel' v node σ = walkSlateNode is_block fuel v node σ.
Proof.
  revert fuel' node σ. induction fuel as [|fuel IH]; intros fuel' node σ Hle; [done|].
  destruct fuel' as [|fuel']; [lia|]. rewrite !walk_unfold. unfold_M.
  destruct (is_block node σ) as [[[]| | |] σ1]; try done.
  - destruct (visitBlock v node σ1) as [[[r|]| | |] σ2]; try done.
    apply default_mono. intros. apply IH; [lia | done].
  - apply default_mono. intros. apply IH; [lia | done].
Qed.

(** A walk with fuel for the height of its tree does not run out. *)
Variable height : N → nat.
Hypothesis height_pos : ∀ node, 0 < height node.
Hypothesis is_block_fuel : ∀ node σ, (is_block node σ).1 ≠ OutOfFuel.
Hypothesis visitBlock_fuel : ∀ node σ, (visitBlock v node σ).1 ≠ OutOfFuel.
Hypothesis default_fuel : ∀ node g σ,
  (∀ c σ', height c < height node → (g c σ').1 ≠ OutOfFuel) →
  (defaultVisitor v node g σ).1 ≠ OutOfFuel.

Lemma walk_enough_fuel fuel node σ :
  height node ≤ fuel → (walkSlateNode is_block fuel v node σ).1 ≠ OutOfFuel.
Proof.
  revert node σ. induction fuel as [|fuel IH]; intros node σ Hle.
  { pose proof (height_pos node). lia. }
  rewrite walk_unfold.
  apply bind_fuel; [done|]. intros [] σ1 _.
  - apply bind_fuel; [done|]. intros [r|] σ2 _; [done|].
    apply default_fuel. intros. apply IH. lia.
  - apply default_fuel. intros. apply IH. lia.
Qed.
End walker_facts.

Lemma bind_fuel_inv {Σ A B} (m : M Σ A) (f : A → M Σ B) σ :
  ((m ≫= f) σ).1 ≠ OutOfFuel → (m σ).1 ≠ OutOfFuel.
Proof. unfold_M. by destruct (m σ) as [[a| | |] σ1]. Qed.

Lemma for_each_fuel {Σ A B} (f : B → A → M Σ B) b l σ :
  (∀ b x σ, (f b x σ).1 ≠ OutOfFuel) → (for_each f b l σ).1 ≠ OutOfFuel.
Proof.
  intros Hf. revert b σ. induction l as [|x l IH]; intros b σ; [done|]. simpl.
  apply bind_fuel; [apply Hf|]. intros. apply IH.
Qed.

Lemma lift_fuel {Σ A} (r : outcome A) (σ : Σ) : r ≠ OutOfFuel → (lift r σ).1 ≠ OutOfFuel.
Proof. done. Qed.

Lemma assign_fuel target k x : assign target k x ≠ OutOfFuel.
Proof. by destruct target. Qed.

Lemma read_fuel target k : read target k ≠ OutOfFuel.
Proof. by destruct target. Qed.

Lemma push_fuel arr x : push arr x ≠ OutOfFuel.
Proof. by destruct arr. Qed.

Lemma max_foldr_le {A} (h : A → nat) (x : A) (l : list A) :
  x ∈ l → h x ≤ foldr (λ y m, Nat.max (h y) m) 0 l.
Proof.
  induction l as [|y l IH]; [by intros ?%elem_of_nil|].
  intros [->|Hin]%elem_of_cons; simpl; [lia|]. specialize (IH Hin). lia.
Qed.

Lemma Node_height_pos n : 0 < Node_height n.
Proof. destruct n; simpl; lia. Qed.

Lemma Node_height_child n children c :
  Node_nodes n = Some children → c ∈ children → Node_height c < Node_height n.
Proof.
  intros Hn Hc. pose proof (max_foldr_le Node_height c children Hc).
  destruct n; simplify_eq/=; lia.
Qed.

Lemma json_height_pos v : 0 < json_height v.
Proof. destruct v; simpl; lia. Qed.

Lemma json_height_elem l c : c ∈ l → json_height c < json_height (VArr l).
Proof. intros Hc. pose proof (max_foldr_le json_height c l Hc). simpl. lia. Qed.

Lemma json_height_prop o k x :
  alist_get k o = Some x → json_height x < json_height (VObj o).
Proof.
  intros Hx. simpl. apply Nat.lt_succ_r.
  induction o as [|[k' v'] o IH]; simpl in *; [done|].
  destruct (String.eqb k k'); simplify_eq; [lia|]. specialize (IH Hx). lia.
Qed.

(** ** The walks have fuel enough *)

Section serialise_fuel.
Variable value : Value.
Variable blocks : gmap string BlockHandler.

Lemma serialise_default_mono node g1 g2 σ :
  (∀ c σ', (g1 c σ').1 ≠ OutOfFuel → g2 c σ' = g1 c σ') →
  (serialise_defaultVisitor node g1 σ).1 ≠ OutOfFuel →
  serialise_defaultVisitor node g2 σ = serialise_defaultVisitor node g1 σ.
Proof.
  intros Hg. unfold serialise_defaultVisitor.
  destruct (Node_nodes node) as [children|]; [|done].
  intros Hfuel%bind_fuel_inv. unfold_M. by rewrite (array_map_mono g1 g2).
Qed.

Lemma gather_mutation_fuel blockPath action paths mutation σ :
  (gather_mutation blockPath action paths mutation σ).1 ≠ OutOfFuel.
Proof.
  unfold gather_mutation.
  apply bind_fuel; [done|]. intros allMutations σ1 _.
  apply bind_fuel; [apply lift_fuel, push_fuel|]. intros [entries n] σ2 _.
  apply bind_fuel; [apply lift_fuel, assign_fuel|]. intros batch' σ3 _.
  apply bind_fuel; [done|]. intros _ σ4 _.
  apply bind_fuel; [apply lift_fuel, push_fuel|]. by intros [paths' ?] σ5 _.
Qed.

Lemma gather_action_fuel blockPath paths entry σ :
  (gather_action blockPath paths entry σ).1 ≠ OutOfFuel.
Proof.
  unfold gather_action. destruct entry as [action mutationData].
  apply bind_fuel; [done|]. intros allMutations σ1 _.
  apply bind_fuel; [apply lift_fuel, assign_fuel|]. intros batch' σ2 _.
  apply bind_fuel; [done|]. intros _ σ3 _.
  apply for_each_fuel. intros. apply gather_mutation_fuel.
Qed.

Lemma serialise_visitBlock_fuel node σ :
  (serialise_visitBlock value blocks node σ).1 ≠ OutOfFuel.
Proof.
  unfold serialise_visitBlock.
  destruct (blocks !! _) as [block|]; [|done].
  destruct (serialize block value node) as [mutations serializedNode].
  destruct (has_mutations mutations); [|done].
  destruct (negb (truthy serializedNode)); [done|].
  destruct (path_set block) as [blockPath|]; [|done].
  apply bind_fuel; [done|]. intros allMutations σ1 _.
  apply bind_fuel; [done|]. intros _ σ2 _.
  apply bind_fuel; [apply lift_fuel, assign_fuel|]. intros sn σ3 _.
  apply bind_fuel; [apply lift_fuel, assign_fuel|]. intros data σ4 _.
  apply bind_fuel.
  { apply for_each_fuel. intros. apply gather_action_fuel. }
  intros paths σ5 _.
  apply bind_fuel; [apply lift_fuel, assign_fuel|]. intros data' σ6 _.
  apply bind_fuel; [apply lift_fuel, assign_fuel|]. done.
Qed.

Lemma serialise_walk_fuel fuel node σ :
  Node_height node ≤ fuel →
  (walkSlateNode Node_is_block fuel (serialise_visitors value blocks) node σ).1
    ≠ OutOfFuel.
Proof.
  apply (walk_enough_fuel _ _ Node_height); [apply Node_height_pos|done| |].
  - apply serialise_visitBlock_fuel.
  - intros n g σ' Hg. simpl. unfold serialise_defaultVisitor.
    destruct (Node_nodes n) as [children|] eqn:Hn; [|done].
    apply bind_fuel; [|done].
    apply array_map_fuel. intros c σ1 Hc. apply Hg. by eapply Node_height_child.
Qed.

(** [serialiseSlateValue] returns or throws: the walk it starts never
    runs out of fuel. *)
Lemma serialiseSlateValue_fuel : serialiseSlateValue value blocks ≠ OutOfFuel.
Proof.
  unfold serialiseSlateValue.
  pose proof (serialise_walk_fuel (S (Node_height (document value)))
                (document value) [] ltac:(lia)) as H.
  by destruct (walkSlateNode _ _ _ _ _) as [[| | |] ?].
Qed.
End serialise_fuel.

Section resolve_fuel.
Variable blocks : list BlockHandler.
Variable graphQlArgs : json.

Lemma resolve_default_mono node g1 g2 σ :
  (∀ c σ', (g1 c σ').1 ≠ OutOfFuel → g2 c σ' = g1 c σ') →
  (resolve_defaultVisitor node g1 σ).1 ≠ OutOfFuel →
  resolve_defaultVisitor node g2 σ = resolve_defaultVisitor node g1 σ.
Proof.
  intros Hg. unfold resolve_defaultVisitor. unfold_M.
  destruct (read node "nodes") as [nodes| | |]; try done.
  destruct (truthy nodes); [|done]. destruct nodes as [| | | | |children|]; try done.
  intros Hfuel.
  rewrite (array_map_mono g1 g2); [done|done|].
  by destruct (array_map g1 children σ) as [[| | |] ?].
Qed.

Lemma resolve_visitBlock_fuel node σ :
  (resolve_visitBlock blocks graphQlArgs node σ).1 ≠ OutOfFuel.
Proof.
  unfold resolve_visitBlock.
  apply bind_fuel; [apply lift_fuel, read_fuel|]. intros data σ1 _.
  destruct (_ || _); [done|]. destruct (find _ _); [|done].
  destruct (get_prop data "_mutationPaths"); try done.
  apply bind_fuel; [|done]. apply array_map_fuel. intros p σ2 _.
  unfold resolve_path. by destruct (negb _).
Qed.

Lemma resolve_walk_fuel fuel node σ :
  json_height node ≤ fuel →
  (walkSlateNode json_is_block fuel (resolve_visitors blocks graphQlArgs) node σ).1
    ≠ OutOfFuel.
Proof.
  apply (walk_enough_fuel _ _ json_height); [apply json_height_pos|done| |].
  - apply resolve_visitBlock_fuel.
  - intros n g σ' Hg. simpl. unfold resolve_defaultVisitor.
    apply bind_fuel; [apply lift_fuel, read_fuel|]. intros nodes σ1 Hread.
    destruct (truthy nodes) eqn:Htruthy; [|done].
    destruct nodes as [| | | | |children|]; try done.
    apply bind_fuel; [|intros; apply lift_fuel, assign_fuel].
    apply array_map_fuel. intros c σ2 Hc. apply Hg.
    unfold lift, read in Hread. destruct n as [| | | |s|l|o]; simplify_eq/=.
    + repeat case_match; simplify_eq.
      by destruct (chars s !! _).
    + repeat case_match; simplify_eq. unfold nth_or_undefined in *.
      destruct (l !! _) as [x|] eqn:Hx; simplify_eq/=.
      etrans; [by apply json_height_elem|].
      by eapply json_height_elem, list_elem_of_lookup_2.
    + unfold obj_get in *. destruct (alist_get "nodes" o) as [x|] eqn:Hx; simplify_eq/=.
      etrans; [by apply json_height_elem | by eapply json_height_prop].
Qed.

(** [processSerialised] returns or throws. *)
Lemma processSerialised_fuel doc :
  processSerialised blocks graphQlArgs doc ≠ OutOfFuel.
Proof.
  unfold processSerialised.
  pose proof (resolve_walk_fuel (json_height doc) doc tt ltac:(lia)) as H.
  by destruct (walkSlateNode _ _ _ _ _) as [[| | |] ?].
Qed.
End resolve_fuel.

(** ** What a computation may throw *)

(** Every error [m] throws satisfies [E]. *)
Definition throws_in {Σ A} (E : exn → Prop) (m : M Σ A) : Prop :=
  ∀ σ e, (m σ).1 = Throw e → E e.

Lemma throws_in_ret {Σ A} E (a : A) : throws_in (Σ := Σ) E (mret a).
Proof. by intros σ e. Qed.

Lemma throws_in_bind {Σ A B} E (m : M Σ A) (f : A → M Σ B) :
  throws_in E m → (∀ a, throws_in E (f a)) → throws_in E (m ≫= f).
Proof.
  intros Hm Hf σ e. unfold_M. specialize (Hm σ).
  destruct (m σ) as [[a| | |] σ1]; simpl in *; try done; [|by intros [= <-]; apply Hm].
  apply Hf.
Qed.

Lemma throws_in_lift {Σ A} (E : exn → Prop) (r : outcome A) :
  (∀ e, r = Throw e → E e) → throws_in (Σ := Σ) E (lift r).
Proof. intros Hr σ e. apply Hr. Qed.

Lemma throws_in_array_map {Σ A B} E (f : A → M Σ B) l :
  (∀ x, x ∈ l → throws_in E (f x)) → throws_in E (array_map f l).
Proof.
  induction l as [|x l IH]; intros Hf; simpl; [apply throws_in_ret|].
  apply throws_in_bind; [apply Hf; left|]. intros y.
  apply throws_in_bind; [apply IH; intros; apply Hf; by right|].
  intros. apply throws_in_ret.
Qed.

Lemma throws_in_for_each {Σ A B} E (f : B → A → M Σ B) b l :
  (∀ b x, throws_in E (f b x)) → throws_in E (for_each f b l).
Proof.
  intros Hf. revert b. induction l as [|x l IH]; intros b; simpl; [apply throws_in_ret|].
  apply throws_in_bind; [apply Hf | apply IH].
Qed.

Lemma throws_in_walk {Σ N R} E (is_block : N → M Σ bool) (v : visitors Σ N R) fuel :
  (∀ n, throws_in E (is_block n)) →
  (∀ n, throws_in E (visitBlock v n)) →
  (∀ n g, (∀ c, throws_in E (g c)) → throws_in E (defaultVisitor v n g)) →
  ∀ n, throws_in E (walkSlateNode is_block fuel v n).
Proof.
  intros Hb Hv Hd. induction fuel as [|fuel IH]; intros n; [done|].
  rewrite walk_unfold. apply throws_in_bind; [done|]. intros [].
  - apply throws_in_bind; [done|]. intros [r|]; [apply throws_in_ret | by apply Hd].
  - by apply Hd.
Qed.

Lemma read_throws target k e : read target k = Throw e → e = TypeError.
Proof. destruct target; simpl; congruence. Qed.

Lemma assign_throws target k x e : assign target k x = Throw e → e = TypeError.
Proof. destruct target; simpl; congruence. Qed.

Lemma push_throws arr x e : push arr x = Throw e → e = TypeError.
Proof. destruct arr; simpl; congruence. Qed.

(** ** The deserializer: fuel and errors *)

Section deserialise_facts.
Variable Value_fromJSON : obj → outcome Value.
Variable serializations : obj.
Variable blocks : gmap string BlockHandler.

Lemma deserialise_default_mono node g1 g2 σ :
  (∀ c σ', (g1 c σ').1 ≠ OutOfFuel → g2 c σ' = g1 c σ') →
  (deserialise_defaultVisitor node g1 σ).1 ≠ OutOfFuel →
  deserialise_defaultVisitor node g2 σ = deserialise_defaultVisitor node g1 σ.
Proof.
  intros Hg. unfold deserialise_defaultVisitor.
  destruct (Node_nodes node) as [children|]; [|done].
  intros Hfuel%bind_fuel_inv. unfold_M. by rewrite (array_map_mono g1 g2).
Qed.

Lemma find_record_fuel joinId records σ :
  (find_record joinId records σ).1 ≠ OutOfFuel.
Proof.
  induction records as [|r records IH]; [done|]. simpl.
  apply bind_fuel; [apply lift_fuel, read_fuel|]. intros id σ1 _.
  destruct (strict_equal joinId id); [done|]. destruct σ, σ1. apply IH.
Qed.

Lemma find_record_throws joinId records :
  throws_in (λ e, e = TypeError) (find_record joinId records).
Proof.
  induction records as [|r records IH]; [done|]. simpl.
  apply throws_in_bind; [apply throws_in_lift, read_throws|]. intros id.
  by destruct (strict_equal joinId id).
Qed.

Lemma joins_of_fuel block node σ : (joins_of serializations block node σ).1 ≠ OutOfFuel.
Proof.
  unfold joins_of. destruct (joinIds_of node); try done.
  apply array_map_fuel. intros joinId σ1 _. unfold find_join.
  destruct (obj_get _ _); try done. apply find_record_fuel.
Qed.

Lemma joins_of_throws block node :
  throws_in (λ e, e = TypeError) (joins_of serializations block node).
Proof.
  unfold joins_of. destruct (joinIds_of node); try by intros ?? [= <-].
  apply throws_in_array_map. intros joinId _. unfold find_join.
  destruct (obj_get _ _); try by intros ?? [= <-]. apply find_record_throws.
Qed.

Lemma deserialise_visitBlock_fuel node σ :
  (deserialise_visitBlock serializations blocks node σ).1 ≠ OutOfFuel.
Proof.
  unfold deserialise_visitBlock. destruct (blocks !! _) as [block|]; [|done].
  apply bind_fuel; [apply joins_of_fuel|]. intros joins σ1 _.
  destruct (deserialize block node joins) as [newNode|newNode]; [done|].
  by destruct (negb (truthy newNode)).
Qed.

Lemma deserialise_walk_fuel fuel node σ :
  Node_height node ≤ fuel →
  (walkSlateNode Node_is_block fuel (deserialise_visitors serializations blocks) node σ).1
    ≠ OutOfFuel.
Proof.
  apply (walk_enough_fuel _ _ Node_height); [apply Node_height_pos|done| |].
  - apply deserialise_visitBlock_fuel.
  - intros n g σ' Hg. simpl. unfold deserialise_defaultVisitor.
    destruct (Node_nodes n) as [children|] eqn:Hn; [|done].
    apply bind_fuel; [|done].
    apply array_map_fuel. intros c σ1 Hc. apply Hg. by eapply Node_height_child.
Qed.

(** The walk of the deserializer throws nothing but a [TypeError] and
    the handler contract error. *)
Lemma deserialise_walk_throws fuel node :
  throws_in (λ e, e = TypeError ∨ e = MustReturnSlateNode)
    (walkSlateNode Node_is_block fuel (deserialise_visitors serializations blocks) node).
Proof.
  apply throws_in_walk; [done| |].
  - intros n. simpl. unfold deserialise_visitBlock.
    destruct (blocks !! _) as [block|]; [|done].
    apply throws_in_bind.
    { intros σ e He. left. by eapply joins_of_throws. }
    intros joins. destruct (deserialize block n joins) as [newNode|newNode]; [done|].
    destruct (negb (truthy newNode)); [done|]. intros σ e [= <-]. by right.
  - intros n g Hg. simpl. unfold deserialise_defaultVisitor.
    destruct (Node_nodes n) as [children|]; [|done].
    apply throws_in_bind; [|done]. apply throws_in_array_map. auto.
Qed.
End deserialise_facts.

(** With fuel for the height of the tree, the amount of fuel does not
    matter. *)
Lemma serialise_walk_stable value blocks fuel n σ :
  Node_height n ≤ fuel →
  walkSlateNode Node_is_block fuel (serialise_visitors value blocks) n σ
  = walkSlateNode Node_is_block (Node_height n) (serialise_visitors value blocks) n σ.
Proof.
  intros Hfuel.
  apply (walk_fuel_mono Node_is_block (serialise_visitors value blocks)
           serialise_default_mono); [done | by apply serialise_walk_fuel].
Qed.

Lemma resolve_walk_stable blocks graphQlArgs fuel n σ :
  json_height n ≤ fuel →
  walkSlateNode json_is_block fuel (resolve_visitors blocks graphQlArgs) n σ
  = walkSlateNode json_is_block (json_height n) (resolve_visitors blocks graphQlArgs) n σ.
Proof.
  intros Hfuel.
  apply (walk_fuel_mono json_is_block (resolve_visitors blocks graphQlArgs)
           resolve_default_mono); [done | by apply resolve_walk_fuel].
Qed.

Lemma deserialise_walk_stable serializations blocks fuel n σ :
  Node_height n ≤ fuel →
  walkSlateNode Node_is_block fuel (deserialise_visitors serializations blocks) n σ
  = walkSlateNode Node_is_block (Node_height n)
      (deserialise_visitors serializations blocks) n σ.
Proof.
  intros Hfuel.
  apply (walk_fuel_mono Node_is_block (deserialise_visitors serializations blocks)
           deserialise_default_mono); [done | by apply deserialise_walk_fuel].
Qed.

(** [deserialiseToSlateValue] returns or throws, whenever Slate's parser
    does. *)
Lemma deserialiseToSlateValue_fuel Value_fromJSON input blocks :
  (∀ o, Value_fromJSON o ≠ OutOfFuel) →
  (deserialiseToSlateValue Value_fromJSON input blocks tt).1 ≠ OutOfFuel.
Proof.
  intros Hparse. unfold deserialiseToSlateValue, assert.
  destruct (truthy (obj_get "document" input)); [|done].
  apply bind_fuel; [done|]. intros _ σ1 _. destruct blocks as [blocks|]; [|done].
  apply bind_fuel; [apply lift_fuel, Hparse|]. intros value σ2 _.
  apply bind_fuel; [|done]. apply deserialise_walk_fuel. lia.
Qed.

(** C9. [deserialiseToSlateValue] called without a document, or without
    the handler map, throws an assertion error, of the class
    [PreconditionError], whatever Slate's parser would do; called with
    both, it throws no error of that class of its own: one it throws is one
    Slate's parser threw. *)
Theorem deserialise_preconditions Value_fromJSON input blocks :
  (truthy (obj_get "document" input) = false ∨ blocks = None →
   ∃ e, deserialiseToSlateValue Value_fromJSON input blocks tt = (Throw e, tt)
        ∧ class_of e = PreconditionError)
  ∧ (truthy (obj_get "document" input) = true → is_Some blocks →
     ∀ e, (deserialiseToSlateValue Value_fromJSON input blocks tt).1 = Throw e →
          class_of e = PreconditionError →
          Value_fromJSON [("document", obj_get "document" input)] = Throw e).
Proof.
  unfold deserialiseToSlateValue, assert. split.
  - intros [-> | ->]; [by eauto|].
    destruct (truthy (obj_get "document" input)); eauto.
  - intros -> [bs ->] e. unfold_M.
    destruct (Value_fromJSON _) as [value| | |]; try done.
    pose proof (deserialise_walk_throws (without_key "document" input) bs
                  (S (Node_height (document value))) (document value) tt) as Hwalk.
    destruct (walkSlateNode _ _ _ _ _) as [[walked|e'| |] σ]; try done.
    intros [= <-]. by destruct (Hwalk e' eq_refl) as [-> | ->].
Qed.

(** ** Reading a mutation path with [lodash.get] *)

Section mutation_paths.
Import Lodash.

Lemma span_plain_run p t :
  no_separator p = true →
  span (λ c, negb (is_separator c)) (p +:+ String "." t) = (p, String "." t).
Proof.
  induction p as [|c p IH]; simpl; [done|].
  intros [Hc Hp]%andb_prop. rewrite Hc, IH by done. done.
Qed.

Lemma scan_skip p t : scan (p +:+ t) (String.length p) = scan t 0.
Proof. induction p as [|c p IH]; simpl; [by destruct t | done]. Qed.

Lemma append_separator_ne p c t : p +:+ String c t ≠ p.
Proof.
  intros H. apply (f_equal String.length) in H. revert H.
  induction p as [|c' p IH]; simpl; [done | intros [= ?]; auto].
Qed.

Lemma is_plain_prop_dot p t : is_plain_prop (p +:+ String "." t) = false.
Proof. induction p as [|c p IH]; simpl; [done | by rewrite IH, andb_false_r]. Qed.

Lemma is_deep_prop_dot p t : is_deep_prop (p +:+ String "." t) = true.
Proof. induction p as [|c p IH]; simpl; [done | by rewrite IH, !orb_true_r]. Qed.

Lemma scan_unfold c s :
  scan (String c s) 0 =
  match match_here (String c s) with
  | Some (key, n) => key :: scan s (pred n)
  | None => scan s 0
  end.
Proof. done. Qed.

Lemma match_here_plain c s :
  is_separator c = false →
  match_here (String c s) =
  let run := (span (λ c, negb (is_separator c)) (String c s)).1 in
  Some (run, String.length run).
Proof. intros Hc. unfold match_here. by rewrite Hc. Qed.

(** A key path that starts with a plain key and a dot is cut after the
    key, and the rest is cut on its own. *)
Lemma stringToPath_plain_prefix p t :
  plain_key p = true →
  stringToPath (p +:+ String "." t) = p :: scan (String "." t) 0.
Proof.
  intros [Hne Hp]%andb_prop. destruct p as [|c p]; [done|]. clear Hne.
  pose proof (span_plain_run (String c p) t Hp) as Hspan.
  simpl in Hp. apply andb_prop in Hp as [Hc%negb_true_iff Hp'].
  change (String c p +:+ String "." t) with (String c (p +:+ String "." t)) in *.
  assert (scan (String c (p +:+ String "." t)) 0
          = String c p :: scan (String "." t) 0) as Hscan.
  { rewrite scan_unfold, match_here_plain by done. rewrite Hspan.
    cbn [fst String.length pred]. by rewrite scan_skip. }
  unfold stringToPath. rewrite <-Hscan.
  destruct c as [[] [] [] [] [] [] [] []]; try done.
Qed.

(** The path [`${p}.create[${i}]`] leads to the [i]-th result of the
    [create] action of [p], for [i] below two. *)
Lemma getByPath_create p r0 r1 :
  plain_key p = true →
  let results := VObj [(p, VObj [("create", VArr [r0; r1])])] in
  getByPath results (VStr (mutation_path p "create" 0)) = r0
  ∧ getByPath results (VStr (mutation_path p "create" 1)) = r1.
Proof.
  intros Hp results.
  assert (∀ i, castPath (VStr (mutation_path p "create" i)) results
               = p :: scan (String "." ("create[" +:+ pretty i +:+ "]")) 0) as Hcast.
  { intros i. unfold castPath, isKey, mutation_path. cbn [to_string].
    change (p +:+ "." +:+ "create" +:+ "[" +:+ pretty i +:+ "]")
      with (p +:+ String "." ("create[" +:+ pretty i +:+ "]")).
    rewrite is_plain_prop_dot, is_deep_prop_dot. cbn [negb orb].
    unfold results, has_prop, obj_has. cbn [alist_get].
    destruct (String.eqb_spec (p +:+ String "." ("create[" +:+ pretty i +:+ "]")) p)
      as [Heq|_]; [by apply append_separator_ne in Heq|].
    rewrite bool_decide_eq_false_2 by by intros [? ?].
    by apply stringToPath_plain_prefix. }
  unfold Lodash.get, baseGet, results. rewrite !Hcast.
  cbn [descend].
  assert (get_prop (VObj [(p, VObj [("create", VArr [r0; r1])])]) p
          = VObj [("create", VArr [r0; r1])]) as ->.
  { unfold get_prop, obj_get. cbn [alist_get]. by rewrite String.eqb_refl. }
  by vm_compute.
Qed.
End mutation_paths.

(** ** The serializer's visitor *)

Section serialise_visitor.
Variable value : Value.
Variable blocks : gmap string BlockHandler.

Abbreviation walk_serialise fuel :=
  (walkSlateNode Node_is_block fuel (serialise_visitors value blocks)).

Lemma handler_of_Some n b :
  handler_of blocks n = Some b →
  String.eqb (Node_object n) "block" = true
  ∧ blocks !! to_string (Node_type n) = Some b.
Proof. unfold handler_of. by destruct (String.eqb _ _). Qed.

(** On a block the walk is [visitBlock], then the default visitor if
    that returned nothing. *)
Lemma walk_serialise_block fuel n b σ :
  handler_of blocks n = Some b →
  walk_serialise (S fuel) n σ =
  (r ← serialise_visitBlock value blocks n;
   match r with
   | Some replacement => mret replacement
   | None => serialise_defaultVisitor n (walk_serialise fuel)
   end) σ.
Proof.
  intros [Hblock _]%handler_of_Some. rewrite walk_unfold.
  unfold Node_is_block. by rewrite Hblock.
Qed.

End serialise_visitor.

Lemma alist_set_set {A} k (v v' : A) o :
  alist_set k v (alist_set k v' o) = alist_set k v o.
Proof. induction o as [|[k0 v0] o IH]; simpl; string_cases. by rewrite IH. Qed.

Lemma alist_set_get_id {A} k (v : A) o : alist_get k o = Some v → alist_set k v o = o.
Proof.
  induction o as [|[k0 v0] o IH]; simpl; [done|].
  destruct (String.eqb_spec k k0); intros; simplify_eq; [done|]. by rewrite IH.
Qed.

Lemma obj_get_defined k o v :
  obj_get k o = v → v ≠ VUndefined → alist_get k o = Some v.
Proof. unfold obj_get. destruct (alist_get k o); simpl; congruence. Qed.

Section serialise_block.
Variable value : Value.
Variable blocks : gmap string BlockHandler.

(** C3 (as amended). A block whose handler returns neither a node nor
    mutations is not dropped: [visitBlock] returns [null], the walk falls
    through to the default visitor, and the block comes out as its
    structural JSON projection over its visited children, exactly like a
    block that has no handler. *)
Theorem serialise_unclaimed_block_projected fuel t d children b σ :
  blocks !! t = Some b →
  let result := serialize b value (Block t d children) in
  truthy (node result) = false →
  has_mutations (mutations result) = false →
  walkSlateNode Node_is_block (S fuel) (serialise_visitors value blocks)
    (Block t d children) σ
  = (visited ← array_map (walkSlateNode Node_is_block fuel
                            (serialise_visitors value blocks)) children;
     mret (VObj [("object", VStr "block"); ("type", VStr t); ("data", VObj d);
                 ("nodes", VArr visited)])) σ.
Proof.
  intros Hb result Hnode Hmutations.
  rewrite (walk_serialise_block value blocks fuel _ b) by done.
  unfold serialise_visitBlock. cbn [Node_type to_string]. rewrite Hb. fold result.
  destruct result as [ms sn]. cbn [mutations node] in *.
  by rewrite Hmutations, Hnode.
Qed.

Lemma gather_mutation_run p action ps m σ batch entries :
  obj_get p σ = VObj batch →
  obj_get action batch = VArr entries →
  gather_mutation p action (VArr ps) m σ
  = (Ok (VArr (ps ++ [VStr (mutation_path p action (length entries))])),
     obj_set p (VObj (obj_set action (VArr (entries ++ [m])) batch)) σ).
Proof.
  intros Hbatch Hentries. unfold gather_mutation. unfold_M.
  rewrite Hbatch. cbn [get_prop]. rewrite Hentries. cbn [push assign].
  rewrite length_app. cbn [length].
  by replace (length entries + 1 - 1) with (length entries) by lia.
Qed.

(** Appending the mutations [ms] of one action: they go to the end of
    the action's entries, and the paths pushed carry the positions they
    take there. *)
Lemma gather_mutations_run p action ms : ∀ ps entries σ batch,
  obj_get p σ = VObj batch →
  obj_get action batch = VArr entries →
  for_each (gather_mutation p action) (VArr ps) ms σ
  = (Ok (VArr (ps ++ ((λ i, VStr (mutation_path p action i))
                        <$> seq (length entries) (length ms)))),
     obj_set p (VObj (obj_set action (VArr (entries ++ ms)) batch)) σ).
Proof.
  induction ms as [|m ms IH]; intros ps entries σ batch Hbatch Hentries.
  - simpl. rewrite !app_nil_r. unfold_M. f_equal. unfold obj_set, obj_get in *.
    rewrite (alist_set_get_id action), alist_set_get_id; [done| |].
    + by apply obj_get_defined.
    + by apply obj_get_defined.
  - cbn [for_each]. erewrite bind_Ok by by apply gather_mutation_run.
    rewrite (IH _ (entries ++ [m]) _ (obj_set action (VArr (entries ++ [m])) batch)).
    + rewrite !length_app. cbn [length seq fmap list_fmap].
      replace (length entries + 1) with (S (length entries)) by lia.
      unfold obj_set. rewrite !alist_set_set, <-!app_assoc. done.
    + by rewrite obj_get_set, decide_True.
    + by rewrite obj_get_set, decide_True.
Qed.

(** One action of a handler result: its mutations are appended to the
    entries the batch already has for the action, if any. *)
Lemma gather_action_run p ps action data σ batch entries :
  obj_get p σ = VObj batch →
  (if truthy (obj_get action batch) then obj_get action batch else VArr [])
  = VArr entries →
  gather_action p (VArr ps) (action, data) σ
  = (Ok (VArr (ps ++ ((λ i, VStr (mutation_path p action i))
                        <$> seq (length entries) (length (as_array data))))),
     obj_set p (VObj (obj_set action (VArr (entries ++ as_array data)) batch)) σ).
Proof.
  intros Hbatch Hentries. unfold gather_action. unfold_M.
  rewrite Hbatch. cbn [get_prop assign]. rewrite Hentries.
  rewrite (gather_mutations_run p action _ ps entries _
             (obj_set action (VArr entries) batch)).
  - unfold obj_set. by rewrite !alist_set_set.
  - by rewrite obj_get_set, decide_True.
  - by rewrite obj_get_set, decide_True.
Qed.

(** The visitor on a block whose handler creates two records, starting
    from no batches at all. *)
Lemma serialise_visitBlock_create n b p sn dat m0 m1 :
  handler_of blocks n = Some b →
  path_set b = Some p →
  serialize b value n
  = {| mutations := VObj [("create", VArr [m0; m1])]; node := VObj sn |} →
  node_data sn = Some dat →
  truthy (obj_get "_mutationPaths" dat) = false →
  serialise_visitBlock value blocks n []
  = (Ok (Some (VObj (obj_set "data"
                       (VObj (obj_set "_mutationPaths"
                                (VArr [VStr (mutation_path p "create" 0);
                                       VStr (mutation_path p "create" 1)]) dat))
                       sn))),
     [(p, VObj [("disconnectAll", VBool true); ("create", VArr [m0; m1])])]).
Proof.
  intros [_ Hb]%handler_of_Some Hp Hser Hdata Hpaths.
  unfold serialise_visitBlock. rewrite Hb, Hser, Hp.
  change (has_mutations (VObj [("create", VArr [m0; m1])])) with true.
  cbn [truthy negb own_entries].
  assert ((if truthy (get_prop (VObj sn) "data")
           then get_prop (VObj sn) "data" else VObj []) = VObj dat) as Hdat.
  { unfold node_data in Hdata. cbn [get_prop].
    destruct (obj_get "data" sn) as [| | [] | | | |]; simpl in *;
      repeat case_match; by simplify_eq/=. }
  rewrite Hdat. cbn [get_prop]. rewrite Hpaths.
  erewrite bind_Ok by done. erewrite bind_Ok by done.
  erewrite bind_Ok by done. erewrite bind_Ok by done.
  cbn [for_each].
  erewrite bind_Ok; cycle 1.
  { erewrite bind_Ok; [done|].
    apply (gather_action_run p [] "create" (VArr [m0; m1]) _
             [("disconnectAll", VBool true)] []); [|done].
    cbn. unfold obj_get. cbn [alist_get]. by rewrite String.eqb_refl. }
  erewrite bind_Ok by done. erewrite bind_Ok by done.
  cbn. rewrite String.eqb_refl. unfold obj_set. by rewrite ?alist_set_set.
Qed.
End serialise_block.

(** ** The resolver's visitor *)

Section resolve_visitor.
Variable blocks : list BlockHandler.
Variable graphQlArgs : json.

Abbreviation results := (VObj (resolvedMutations blocks graphQlArgs)).
Abbreviation walk_resolve fuel :=
  (walkSlateNode json_is_block fuel (resolve_visitors blocks graphQlArgs)).
Abbreviation handler_for type_ :=
  (find (λ b, strict_equal (VStr (type b)) type_) blocks).

(** Resolving a list of mutation paths that all lead somewhere. *)
Lemma resolve_paths_Ok paths :
  Forall (λ p, truthy (getByPath results p) = true) paths →
  array_map (resolve_path blocks graphQlArgs) paths tt
  = (Ok (getByPath results <$> paths), tt).
Proof.
  induction 1 as [|p paths Hp _ IH]; [done|]. cbn [array_map].
  erewrite bind_Ok; [|unfold resolve_path; by rewrite Hp].
  by erewrite bind_Ok by done.
Qed.

(** Resolving a list one of whose paths leads nowhere stops at the first
    such path. *)
Lemma resolve_paths_Throw paths :
  Exists (λ p, truthy (getByPath results p) = false) paths →
  ∃ p, p ∈ paths ∧ truthy (getByPath results p) = false
       ∧ array_map (resolve_path blocks graphQlArgs) paths tt
         = (Throw (UnknownMutation p), tt).
Proof.
  induction paths as [|q paths IH]; [by intros ?%Exists_nil|].
  intros Hex. cbn [array_map].
  destruct (truthy (getByPath results q)) eqn:Hq.
  - apply Exists_cons in Hex as [Hex|Hex]; [congruence|].
    destruct (IH Hex) as (p & Hin & Hp & Hrun). exists p.
    split_and!; [by right | done |].
    erewrite bind_Ok; [|unfold resolve_path; by rewrite Hq].
    by erewrite bind_Throw.
  - exists q. split_and!; [left | done |].
    erewrite bind_Throw; [done|]. unfold resolve_path. by rewrite Hq.
Qed.

(** The visitor on a plain object, case by case. *)
Lemma resolve_visitBlock_eq o σ :
  resolve_visitBlock blocks graphQlArgs (VObj o) σ =
  let data := obj_get "data" o in
  if negb (truthy data) || negb (truthy (get_prop data "_mutationPaths"))
  then (Ok (Some (VObj o)), σ)
  else match handler_for (obj_get "type" o) with
       | None => (Throw (NoBlockForMutation (obj_get "type" o)), σ)
       | Some _ =>
           match get_prop data "_mutationPaths" with
           | VArr paths =>
               match array_map (resolve_path blocks graphQlArgs) paths σ with
               | (Ok ids, σ') =>
                   (Ok (Some (VObj (obj_set "data" (VObj [("_joinIds", VArr ids)])
                                      (spread [] (VObj o))))), σ')
               | (Throw e, σ') => (Throw e, σ')
               | (OutOfFuel, σ') => (OutOfFuel, σ')
               | (OffModel, σ') => (OffModel, σ')
               end
           | _ => (Throw TypeError, σ)
           end
       end.
Proof.
  unfold resolve_visitBlock. unfold_M. cbn [read get_prop].
  destruct (_ || _); [done|]. destruct (handler_for _); [|done].
  by destruct (get_prop _ _).
Qed.

(** On a block the walk is the visitor alone: it never returns nothing. *)
Lemma walk_resolve_block fuel o σ :
  obj_get "object" o = VStr "block" →
  walk_resolve (S fuel) (VObj o) σ =
  match resolve_visitBlock blocks graphQlArgs (VObj o) σ with
  | (Ok (Some replacement), σ') => (Ok replacement, σ')
  | (Ok None, σ') => resolve_defaultVisitor (VObj o) (walk_resolve fuel) σ'
  | (Throw e, σ') => (Throw e, σ')
  | (OutOfFuel, σ') => (OutOfFuel, σ')
  | (OffModel, σ') => (OffModel, σ')
  end.
Proof.
  intros Hblock. rewrite walk_unfold. unfold json_is_block. rewrite Hblock.
  change (strict_equal (VStr "block") (VStr "block")) with true.
  unfold_M. cbn [visitBlock defaultVisitor resolve_visitors].
  by destruct (resolve_visitBlock _ _ _ _) as [[[]| | |] ?].
Qed.

Lemma walk_resolve_other fuel n σ :
  match n with
  | VObj o => strict_equal (obj_get "object" o) (VStr "block") = false
  | _ => True
  end →
  walk_resolve (S fuel) n σ = resolve_defaultVisitor n (walk_resolve fuel) σ.
Proof.
  intros Hn. rewrite walk_unfold. unfold json_is_block.
  destruct n; try done. by rewrite Hn.
Qed.

Lemma resolve_paths_inv paths ids :
  array_map (resolve_path blocks graphQlArgs) paths tt = (Ok ids, tt) →
  ids = getByPath results <$> paths.
Proof.
  revert ids. induction paths as [|p paths IH]; intros ids.
  - cbn. unfold_M. by intros [= <-].
  - cbn [array_map].
    intros (r & [] & Hp & (rs & [] & Hrs & Hret)%bind_inv_Ok)%bind_inv_Ok.
    unfold resolve_path in Hp. destruct (negb _); [done|].
    unfold_M. simplify_eq. cbn. f_equal. by apply IH.
Qed.


End resolve_visitor.

(** ** Positional integrity *)

Lemma serialise_walk_document value blocks fuel dd children σ :
  walkSlateNode Node_is_block (S fuel) (serialise_visitors value blocks)
    (Document dd children) σ
  = (visited ← array_map (walkSlateNode Node_is_block fuel
                            (serialise_visitors value blocks)) children;
     mret (VObj [("object", VStr "document"); ("data", VObj dd);
                 ("nodes", VArr visited)])) σ.
Proof. done. Qed.

Lemma resolve_walk_container blocks graphQlArgs fuel o children :
  strict_equal (obj_get "object" o) (VStr "block") = false →
  obj_get "nodes" o = VArr children →
  walkSlateNode json_is_block (S fuel) (resolve_visitors blocks graphQlArgs) (VObj o) tt
  = (visited ← array_map (walkSlateNode json_is_block fuel
                            (resolve_visitors blocks graphQlArgs)) children;
     mret (VObj (obj_set "nodes" (VArr visited) o))) tt.
Proof.
  intros Hkind Hnodes. rewrite walk_resolve_other by done.
  unfold resolve_defaultVisitor. cbn [read get_prop]. rewrite Hnodes.
  unfold_M. cbn [truthy assign].
  by destruct (array_map _ _ _) as [[| | |] ?].
Qed.

Lemma array_map_singleton {Σ A B} (f : A → M Σ B) x σ y σ' :
  f x σ = (Ok y, σ') → array_map f [x] σ = (Ok [y], σ').
Proof. intros Hx. cbn [array_map]. by erewrite bind_Ok by done. Qed.

(** The serializer on a document of one block whose handler creates two
    records. *)
Lemma serialise_create value blocks dd n b p sn dat m0 m1 :
  document value = Document dd [n] →
  handler_of blocks n = Some b →
  path_set b = Some p →
  serialize b value n
  = {| mutations := VObj [("create", VArr [m0; m1])]; node := VObj sn |} →
  node_data sn = Some dat →
  truthy (obj_get "_mutationPaths" dat) = false →
  serialiseSlateValue value blocks
  = Ok (spread
          [("document",
            VObj [("object", VStr "document"); ("data", VObj dd);
                  ("nodes",
                   VArr [VObj (obj_set "data"
                                 (VObj (obj_set "_mutationPaths"
                                          (VArr [VStr (mutation_path p "create" 0);
                                                 VStr (mutation_path p "create" 1)])
                                          dat))
                                 sn)])])]
          (VObj [(p, VObj [("disconnectAll", VBool true); ("create", VArr [m0; m1])])])).
Proof.
  intros Hdoc Hb Hp Hser Hdata Hfresh.
  pose proof (serialise_visitBlock_create value blocks n b p sn dat m0 m1
                Hb Hp Hser Hdata Hfresh) as Hvisit.
  unfold serialiseSlateValue. rewrite Hdoc, serialise_walk_document.
  cbn [Node_height foldr].
  erewrite bind_Ok; cycle 1.
  { apply array_map_singleton.
    rewrite (walk_serialise_block value blocks _ n b) by done.
    by erewrite bind_Ok by apply Hvisit. }
  done.
Qed.

Lemma json_height_document data children :
  2 ≤ json_height (VObj [("object", VStr "document"); ("data", data);
                         ("nodes", VArr children)]).
Proof. simpl. lia. Qed.

(** The resolver on a document of one block that carries the two paths of
    a [create] batch. *)
Lemma resolve_create handlers graphQlArgs dd sn data p r0 r1 :
  plain_key p = true →
  obj_get "object" sn = VStr "block" →
  obj_get "data" sn = VObj data →
  obj_get "_mutationPaths" data
  = VArr [VStr (mutation_path p "create" 0); VStr (mutation_path p "create" 1)] →
  is_Some (find (λ h, strict_equal (VStr (type h)) (obj_get "type" sn)) handlers) →
  resolvedMutations handlers graphQlArgs = [(p, VObj [("create", VArr [r0; r1])])] →
  truthy r0 = true →
  truthy r1 = true →
  processSerialised handlers graphQlArgs
    (VObj [("object", VStr "document"); ("data", VObj dd); ("nodes", VArr [VObj sn])])
  = Ok [("document",
         VObj [("object", VStr "document"); ("data", VObj dd);
               ("nodes",
                VArr [VObj (obj_set "data" (VObj [("_joinIds", VArr [r0; r1])])
                              (spread [] (VObj sn)))])])].
Proof.
  intros Hplain Hblock Hdata Hpaths [h Hh] Hresults Hr0 Hr1.
  destruct (getByPath_create p r0 r1 Hplain) as [H0 H1].
  assert (walkSlateNode json_is_block 1 (resolve_visitors handlers graphQlArgs)
            (VObj sn) tt
          = (Ok (VObj (obj_set "data" (VObj [("_joinIds", VArr [r0; r1])])
                         (spread [] (VObj sn)))), tt)) as Hwalk.
  { rewrite walk_resolve_block, resolve_visitBlock_eq by done.
    cbv zeta. rewrite Hdata. cbn [get_prop]. rewrite Hpaths, Hh.
    cbn [truthy negb orb]. rewrite resolve_paths_Ok.
    - rewrite Hresults. cbn [fmap list_fmap]. by rewrite H0, H1.
    - rewrite Hresults. repeat constructor; by rewrite ?H0, ?H1. }
  assert (walkSlateNode json_is_block 2 (resolve_visitors handlers graphQlArgs)
            (VObj [("object", VStr "document"); ("data", VObj dd);
                   ("nodes", VArr [VObj sn])]) tt
          = (Ok (VObj [("object", VStr "document"); ("data", VObj dd);
                       ("nodes",
                        VArr [VObj (obj_set "data" (VObj [("_joinIds", VArr [r0; r1])])
                                      (spread [] (VObj sn)))])]), tt)) as Hroot.
  { rewrite (resolve_walk_container _ _ _ _ [VObj sn]) by done.
    by erewrite bind_Ok by (apply array_map_singleton, Hwalk). }
  unfold processSerialised.
  rewrite (walk_fuel_mono json_is_block (resolve_visitors handlers graphQlArgs)
             resolve_default_mono 2);
    [by rewrite Hroot | apply json_height_document | by rewrite Hroot].
Qed.


(** ** The deserializer's visitor *)

Section deserialise_visitor.
Variable serializations : obj.
Variable blocks : gmap string BlockHandler.

Abbreviation walk_deserialise fuel :=
  (walkSlateNode Node_is_block fuel (deserialise_visitors serializations blocks)).

Lemma find_record_run joinId records :
  forallb is_record records = true →
  find_record joinId records tt = (Ok (record_for records joinId), tt).
Proof.
  unfold record_for. induction records as [|r records IH]; [done|].
  intros [Hr Hrecords]%andb_prop. cbn [find_record find].
  erewrite bind_Ok; [|by destruct r].
  destruct (strict_equal joinId (get_prop r "id")); [done | by apply IH].
Qed.

Lemma find_joins_run records joinIds :
  forallb is_record records = true →
  array_map (find_join (VArr records)) joinIds tt
  = (Ok (record_for records <$> joinIds), tt).
Proof.
  intros Hrecords. induction joinIds as [|joinId joinIds IH]; [done|].
  cbn [array_map]. erewrite bind_Ok by by apply find_record_run.
  by erewrite bind_Ok by done.
Qed.

(** The joins of a block whose join ids are a list, the fetched records
    under the handler's path being a list of records. *)
Lemma joins_of_run t d children b p joinIds records :
  path b = Some p →
  obj_get "_joinIds" d = VArr joinIds →
  obj_get p serializations = VArr records →
  forallb is_record records = true →
  joins_of serializations b (Block t d children) tt
  = (Ok (record_for records <$> joinIds), tt).
Proof.
  intros Hp Hids Hrecords Hok.
  unfold joins_of, joinIds_of. rewrite Hp. cbn [Node_data from_option to_string].
  rewrite Hids, Hrecords.
  assert (negb (length d =? 0) = true) as -> by by destruct d.
  cbn [truthy andb]. by apply find_joins_run.
Qed.

(** What the walk does on a block that has a handler, given the joins. *)
Lemma walk_deserialise_block fuel t d children b joins :
  blocks !! t = Some b →
  joins_of serializations b (Block t d children) tt = (Ok joins, tt) →
  walk_deserialise (S fuel) (Block t d children) tt =
  match deserialize b (Block t d children) joins with
  | ReturnsNode newNode => (Ok newNode, tt)
  | ReturnsData newNode =>
      if truthy newNode then (Throw MustReturnSlateNode, tt)
      else deserialise_defaultVisitor (Block t d children) (walk_deserialise fuel) tt
  end.
Proof.
  intros Hb Hjoins. rewrite walk_unfold. unfold Node_is_block.
  cbn [Node_object String.eqb Ascii.eqb Bool.eqb].
  erewrite bind_Ok by done. cbn [visitBlock deserialise_visitors].
  unfold deserialise_visitBlock. cbn [Node_type to_string]. rewrite Hb.
  unfold_M. rewrite Hjoins.
  destruct (deserialize _ _ _) as [newNode|newNode]; [done|].
  by destruct (truthy newNode).
Qed.


End deserialise_visitor.

(** ** Batches *)

Lemma touches_only_refl p σ : touches_only p σ σ.
Proof. by split_and!. Qed.

Lemma touches_only_trans p σ1 σ2 σ3 :
  touches_only p σ1 σ2 → touches_only p σ2 σ3 → touches_only p σ1 σ3.
Proof.
  intros (Hn1 & Hb1 & Hf1) (Hn2 & Hb2 & Hf2). split_and!; [auto | auto |].
  intros q Hq. by rewrite Hf2, Hf1.
Qed.

Lemma touches_only_set p batch σ :
  (batch_ok (obj_get p σ) → batch_ok batch) →
  touches_only p σ (obj_set p batch σ).
Proof.
  intros Hbatch. split_and!.
  - apply alist_set_keys_NoDup.
  - rewrite obj_get_set, decide_True by done. auto.
  - intros q Hq. by apply alist_get_set_ne.
Qed.

Lemma for_each_touches_only {A B} (f : B → A → M obj B) p b l σ r σ' :
  (∀ b x σ r σ', f b x σ = (Ok r, σ') → touches_only p σ σ') →
  for_each f b l σ = (Ok r, σ') → touches_only p σ σ'.
Proof.
  intros Hf. revert b σ. induction l as [|x l IH]; intros b σ; cbn [for_each].
  - unfold_M. intros [= _ <-]. apply touches_only_refl.
  - intros (b' & σ1 & Hx & Hrest)%bind_inv_Ok.
    eapply touches_only_trans; [by eapply Hf | by eapply IH].
Qed.

Section batches.
Variable value : Value.
Variable blocks : gmap string BlockHandler.

Lemma gather_mutation_touches p action paths m σ r σ' :
  gather_mutation p action paths m σ = (Ok r, σ') → touches_only p σ σ'.
Proof.
  unfold gather_mutation. unfold_M.
  destruct (push (get_prop (obj_get p σ) action) m) as [[entries n]| | |] eqn:Hpush;
    try done.
  destruct (assign (obj_get p σ) action entries) as [batch'| | |] eqn:Hassign;
    try done.
  destruct (push paths _) as [[paths' ?]| | |]; try done.
  intros [= _ <-]. apply touches_only_set.
  intros (batch & Hbatch & Hdisconnect). rewrite Hbatch in *.
  cbn [assign get_prop] in *. simplify_eq. eexists. split; [done|].
  rewrite obj_get_set. case_decide as Haction; [|done]. subst action.
  rewrite Hdisconnect in Hpush. done.
Qed.

Lemma gather_action_touches p paths entry σ r σ' :
  gather_action p paths entry σ = (Ok r, σ') → touches_only p σ σ'.
Proof.
  unfold gather_action. destruct entry as [action mutationData]. unfold_M.
  destruct (assign (obj_get p σ) action _) as [batch'| | |] eqn:Hassign; try done.
  intros Hloop. eapply touches_only_trans;
    [|eapply for_each_touches_only; [|done]; intros; by eapply gather_mutation_touches].
  apply touches_only_set.
  intros (batch & Hbatch & Hdisconnect). rewrite Hbatch in *.
  cbn [assign get_prop] in *. simplify_eq. eexists. split; [done|].
  rewrite obj_get_set. case_decide as Haction; [|done]. subst action.
  by rewrite Hdisconnect.
Qed.

(** What the visitor returns on a block tells whether the block is
    claimed, and the batches it leaves are those it found, plus the batch
    of the handler's path when the handler had mutations. *)
Lemma serialise_visitBlock_store n σ r σ' :
  String.eqb (Node_object n) "block" = true →
  serialise_visitBlock value blocks n σ = (Ok r, σ') →
  store_ok σ →
  (is_Some r ↔ claimed value blocks n = true)
  ∧ store_ok σ'
  ∧ ∀ p, obj_has p σ' = obj_has p σ || emits value blocks n p.
Proof.
  intros Hblock. unfold serialise_visitBlock, claimed, emits, handler_of.
  rewrite Hblock. destruct (blocks !! _) as [b|]; cycle 1.
  { unfold_M. intros [= <- <-] Hok. split_and!; [|done|].
    - split; [by intros [? ?] | done].
    - intros p. by rewrite orb_false_r. }
  destruct (serialize b value n) as [ms sn]. cbn [mutations node].
  destruct (has_mutations ms); cycle 1.
  { unfold_M. intros [= <- <-] Hok. split_and!; [|done|].
    - destruct (truthy sn); split; try done; by intros [? ?].
    - intros p. by rewrite orb_false_r. }
  destruct (truthy sn) eqn:Hsn; [|done]. cbn [negb].
  destruct (path_set b) as [blockPath|]; [|done].
  intros (allMutations & σ0 & [= <- <-] & Hrun)%bind_inv_Ok.
  apply bind_inv_Ok in Hrun as ([] & σ1 & [= <-] & Hrun).
  apply bind_inv_Ok in Hrun as (sn1 & σ2 & Hsn1 & Hrun).
  apply bind_inv_Ok in Hrun as (data1 & σ3 & Hdata1 & Hrun).
  apply bind_inv_Ok in Hrun as (paths & σ4 & Hloop & Hrun).
  apply bind_inv_Ok in Hrun as (data2 & σ5 & Hdata2 & Hrun).
  apply bind_inv_Ok in Hrun as (sn2 & σ6 & Hsn2 & Hrun).
  unfold_M. simplify_eq. intros [Hnd Hbatches].
  set (σ1 := obj_set blockPath _ σ) in *.
  assert (touches_only blockPath σ σ1) as Hfirst.
  { apply touches_only_set. intros _.
    destruct (truthy (obj_get blockPath σ)) eqn:Hexisting; [|by eexists].
    unfold obj_get in *. destruct (alist_get blockPath σ) as [v|] eqn:Hv; [|done].
    by eapply Hbatches. }
  assert (batch_ok (obj_get blockPath σ1)) as Hbatch1.
  { unfold σ1. rewrite obj_get_set, decide_True by done.
    destruct (truthy (obj_get blockPath σ)) eqn:Hexisting; [|by eexists].
    unfold obj_get in *. destruct (alist_get blockPath σ) as [v|] eqn:Hv; [|done].
    by eapply Hbatches. }
  assert (touches_only blockPath σ1 σ') as (Hnd' & Hbatch' & Hframe').
  { eapply for_each_touches_only; [|done]. intros. by eapply gather_action_touches. }
  destruct Hfirst as (Hnd1 & _ & Hframe1).
  specialize (Hbatch' Hbatch1). split_and!; [done | |].
  - split; [auto|]. intros q v Hq. destruct (decide (q = blockPath)) as [->|Hne].
    + unfold obj_get in Hbatch'. by rewrite Hq in Hbatch'.
    + rewrite Hframe', Hframe1 in Hq by done. by eapply Hbatches.
  - intros q. unfold obj_has. destruct (decide (q = blockPath)) as [->|Hne].
    + rewrite (bool_decide_eq_true_2 (Some blockPath = Some blockPath)) by done.
      rewrite orb_true_r. apply bool_decide_eq_true_2.
      destruct Hbatch' as (batch & Hbatch & _). unfold obj_get in Hbatch.
      by destruct (alist_get blockPath σ').
    + rewrite Hframe', Hframe1 by done.
      rewrite (bool_decide_eq_false_2 (Some blockPath = Some q)) by congruence.
      by rewrite andb_false_r, orb_false_r.
Qed.
End batches.

Lemma alist_get_spread k (target source : obj) :
  NoDup source.*1 →
  alist_get k (spread target (VObj source))
  = match alist_get k source with
    | Some v => Some v
    | None => alist_get k target
    end.
Proof.
  unfold spread. cbn [own_entries]. revert target.
  induction source as [|[k0 v0] source IH]; intros target Hnd; [done|].
  inversion_clear Hnd as [|?? Hfresh Hnd']. cbn [foldl alist_get fst snd].
  rewrite IH by done. unfold obj_set. rewrite alist_get_set.
  destruct (String.eqb_spec k k0) as [->|Hne].
  - rewrite decide_True by done.
    destruct (alist_get k0 source) eqn:Hk0; [|done].
    by apply alist_get_Some_key in Hk0.
  - by rewrite decide_False by done.
Qed.

Section batch_defaulting.
Variable value : Value.
Variable blocks : gmap string BlockHandler.

Abbreviation emitting p nodes := (existsb (λ m, emits value blocks m p) nodes).

Lemma reached_unclaimed n :
  claimed value blocks n = false →
  reached value blocks n
  = n :: flat_map (reached value blocks) (default [] (Node_nodes n)).
Proof. intros Hn. destruct n; cbn [reached Node_nodes default]; by rewrite Hn. Qed.

Lemma reached_claimed n :
  claimed value blocks n = true → reached value blocks n = [n].
Proof. intros Hn. destruct n; cbn [reached]; by rewrite Hn. Qed.

(** Walking a list of children leaves the batches of the paths that had
    one, plus those of the paths the nodes reached below them emit. *)
Lemma serialise_children_store (walk : Node → M obj json) children :
  (∀ n σ r σ',
     walk n σ = (Ok r, σ') → store_ok σ →
     store_ok σ' ∧ ∀ p, obj_has p σ' = obj_has p σ || emitting p (reached value blocks n)) →
  ∀ σ rs σ',
    array_map walk children σ = (Ok rs, σ') → store_ok σ →
    store_ok σ'
    ∧ ∀ p, obj_has p σ'
           = obj_has p σ || emitting p (flat_map (reached value blocks) children).
Proof.
  intros Hwalk. induction children as [|c children IH]; intros σ rs σ'; cbn [array_map].
  - unfold_M. intros [= _ <-] Hok. split; [done|]. intros p. by rewrite orb_false_r.
  - intros (r & σ1 & Hc & (rs' & σ2 & Hcs & Hret)%bind_inv_Ok)%bind_inv_Ok Hok.
    unfold_M. simplify_eq.
    destruct (Hwalk _ _ _ _ Hc Hok) as [Hok1 Hhas1].
    destruct (IH _ _ _ Hcs Hok1) as [Hok2 Hhas2]. split; [done|].
    intros p. cbn [flat_map]. rewrite existsb_app, Hhas2, Hhas1.
    by rewrite orb_assoc.
Qed.

Lemma serialise_walk_store fuel : ∀ n σ r σ',
  walkSlateNode Node_is_block fuel (serialise_visitors value blocks) n σ = (Ok r, σ') →
  store_ok σ →
  store_ok σ' ∧ ∀ p, obj_has p σ' = obj_has p σ || emitting p (reached value blocks n).
Proof.
  induction fuel as [|fuel IH]; intros n σ r σ'; [done|].
  rewrite walk_unfold. erewrite bind_Ok by done.
  assert (∀ σ0 r0 σ0',
            claimed value blocks n = false →
            emits value blocks n = (λ _, false) →
            serialise_defaultVisitor n
              (walkSlateNode Node_is_block fuel (serialise_visitors value blocks)) σ0
            = (Ok r0, σ0') →
            store_ok σ0 →
            store_ok σ0'
            ∧ ∀ p, obj_has p σ0' = obj_has p σ0 || emitting p (reached value blocks n))
    as Hdefault.
  { intros σ0 r0 σ0' Hclaimed Hemits. rewrite reached_unclaimed by done.
    unfold serialise_defaultVisitor. cbn [existsb]. rewrite Hemits. cbn [orb].
    destruct (Node_nodes n) as [children|]; cbn [default flat_map existsb].
    - intros (rs & σ1 & Hcs & Hret)%bind_inv_Ok Hok. unfold_M. simplify_eq.
      by eapply serialise_children_store.
    - unfold_M. intros [= _ <-] Hok. split; [done|]. intros p. by rewrite orb_false_r. }
  destruct (String.eqb (Node_object n) "block") eqn:Hblock.
  - intros (r0 & σ1 & Hvisit & Hrest)%bind_inv_Ok Hok.
    destruct (serialise_visitBlock_store value blocks n σ r0 σ1 Hblock Hvisit Hok)
      as (Hclaimed & Hok1 & Hhas1).
    destruct r0 as [replacement|].
    + unfold_M. simplify_eq. split; [done|]. intros p.
      rewrite reached_claimed by (apply Hclaimed; eauto).
      cbn [existsb]. by rewrite orb_false_r.
    + assert (claimed value blocks n = false) as Hunclaimed.
      { destruct (claimed value blocks n); [|done]. by destruct Hclaimed as [_ [? ?]]. }
      cbn [defaultVisitor serialise_visitors] in Hrest.
      rewrite reached_unclaimed by done.
      unfold serialise_defaultVisitor in Hrest.
      destruct (Node_nodes n) as [children|]; cbn [default flat_map existsb].
      * apply bind_inv_Ok in Hrest as (rs & σ2 & Hcs & Hret). unfold_M. simplify_eq.
        destruct (serialise_children_store _ children IH _ _ _ Hcs Hok1) as [Hok2 Hhas2].
        split; [done|]. intros p. by rewrite Hhas2, Hhas1, orb_assoc.
      * unfold_M. simplify_eq. split; [done|]. intros p. by rewrite orb_false_r.
  - apply Hdefault.
    + unfold claimed, handler_of. by rewrite Hblock.
    + unfold emits, handler_of. by rewrite Hblock.
Qed.

End batch_defaulting.

(** ** The resolver writes in place *)

Lemma object_frame_refl o : object_frame o o.
Proof. by destruct o. Qed.

Lemma object_frame_trans o1 o2 o3 :
  object_frame o1 o2 → object_frame o2 o3 → object_frame o1 o3.
Proof.
  destruct o1 as [p1|e1], o2 as [p2|e2], o3 as [p3|e3]; simpl; try done; [|congruence].
  intros [Hk12 Hb12] [Hk23 Hb23]. split.
  - intros k Hk. by rewrite Hk23, Hk12.
  - intros Hblock. rewrite <-(Hb12 Hblock). apply Hb23.
    unfold is_block_object in *. by rewrite Hk12.
Qed.

Lemma heap_frame_refl h : heap_frame h h.
Proof. intros l o Hl. eauto using object_frame_refl. Qed.

Lemma heap_frame_trans h1 h2 h3 :
  heap_frame h1 h2 → heap_frame h2 h3 → heap_frame h1 h3.
Proof.
  intros H12 H23 l o1 Hl. destruct (H12 l o1 Hl) as (o2 & Hl2 & Hf12).
  destruct (H23 l o2 Hl2) as (o3 & Hl3 & Hf23). eauto using object_frame_trans.
Qed.

Lemma heap_frame_alloc h o : heap_frame h (h ++ [o]).
Proof.
  intros l o' Hl. exists o'. split; [|apply object_frame_refl].
  by apply lookup_app_l_Some.
Qed.

(** Every step of the walk over the store leaves a frame, whatever its
    outcome. *)
Definition keeps_frame {A} (m : M heap A) : Prop :=
  ∀ h r h', m h = (r, h') → heap_frame h h'.

Lemma keeps_frame_ret {A} (a : A) : keeps_frame (mret a).
Proof. intros h r h' [= _ <-]. apply heap_frame_refl. Qed.

Lemma keeps_frame_lift {A} (r : outcome A) : keeps_frame (lift r).
Proof. intros h r' h' [= _ <-]. apply heap_frame_refl. Qed.

Lemma keeps_frame_bind {A B} (m : M heap A) (f : A → M heap B) :
  keeps_frame m → (∀ a, keeps_frame (f a)) → keeps_frame (m ≫= f).
Proof.
  intros Hm Hf h r h'. unfold_M. specialize (Hm h).
  destruct (m h) as [[a| | |] h1]; try (intros [= _ <-]; by eapply Hm).
  intros Hrun. eapply heap_frame_trans; [by eapply Hm | by eapply Hf].
Qed.

Lemma keeps_frame_array_map {A B} (f : A → M heap B) l :
  (∀ x, keeps_frame (f x)) → keeps_frame (array_map f l).
Proof.
  intros Hf. induction l as [|x l IH]; cbn [array_map]; [apply keeps_frame_ret|].
  apply keeps_frame_bind; [done|]. intros y.
  apply keeps_frame_bind; [done|]. intros ys. apply keeps_frame_ret.
Qed.

Lemma keeps_frame_alloc o : keeps_frame (alloc o).
Proof. intros h r h' [= _ <-]. apply heap_frame_alloc. Qed.

Lemma keeps_frame_deref v : keeps_frame (deref v).
Proof.
  intros h r h'. unfold deref. destruct v as [d|l]; [|destruct (h !! l)];
    intros [= _ <-]; apply heap_frame_refl.
Qed.

Lemma keeps_frame_hread v k : keeps_frame (hread v k).
Proof.
  unfold hread. apply keeps_frame_bind; [apply keeps_frame_deref|].
  intros [[props|elems]|].
  - apply keeps_frame_ret.
  - destruct (String.eqb k "length"); apply keeps_frame_ret.
  - destruct v; [|apply keeps_frame_lift].
    apply keeps_frame_bind; [apply keeps_frame_lift|]. intros. apply keeps_frame_ret.
Qed.

Section in_place.
Variable blocks : list BlockHandler.
Variable graphQlArgs : json.

Lemma keeps_frame_hresolve_path p : keeps_frame (hresolve_path blocks graphQlArgs p).
Proof.
  unfold hresolve_path. destruct p; [|apply keeps_frame_lift].
  destruct (negb _); [apply keeps_frame_lift | apply keeps_frame_ret].
Qed.

(** The visitor of blocks reads and allocates; it writes nothing. *)
Lemma keeps_frame_hresolve_visitBlock node :
  keeps_frame (hresolve_visitBlock blocks graphQlArgs node).
Proof.
  unfold hresolve_visitBlock.
  apply keeps_frame_bind; [apply keeps_frame_hread|]. intros data.
  destruct (negb (htruthy data)); [apply keeps_frame_ret|].
  apply keeps_frame_bind; [apply keeps_frame_hread|]. intros paths.
  destruct (negb (htruthy paths)); [apply keeps_frame_ret|].
  apply keeps_frame_bind; [apply keeps_frame_hread|]. intros type_.
  destruct (find _ _); [|apply keeps_frame_lift].
  apply keeps_frame_bind; [apply keeps_frame_deref|]. intros [[props|mutationPaths]|];
    try apply keeps_frame_lift.
  apply keeps_frame_bind.
  { apply keeps_frame_array_map, keeps_frame_hresolve_path. }
  intros _joinIds.
  apply keeps_frame_bind; [apply keeps_frame_alloc|]. intros ids.
  apply keeps_frame_bind; [apply keeps_frame_alloc|]. intros data'.
  apply keeps_frame_bind; [apply keeps_frame_deref|]. intros [[props|elems]|];
    try apply keeps_frame_lift.
  apply keeps_frame_bind; [apply keeps_frame_alloc|]. intros. apply keeps_frame_ret.
Qed.

(** The visitor of blocks never returns nothing: a block does not reach
    the default visitor. *)
Lemma hresolve_visitBlock_Some node h r h' :
  hresolve_visitBlock blocks graphQlArgs node h = (Ok r, h') → is_Some r.
Proof.
  unfold hresolve_visitBlock.
  intros (data & h1 & _ & Hrun)%bind_inv_Ok.
  destruct (negb (htruthy data)); [unfold_M; by simplify_eq|].
  apply bind_inv_Ok in Hrun as (paths & h2 & _ & Hrun).
  destruct (negb (htruthy paths)); [unfold_M; by simplify_eq|].
  apply bind_inv_Ok in Hrun as (type_ & h3 & _ & Hrun).
  destruct (find _ _); [|done].
  apply bind_inv_Ok in Hrun as (elems & h4 & _ & Hrun).
  destruct elems as [[props|mutationPaths]|]; try done.
  apply bind_inv_Ok in Hrun as (_joinIds & h5 & _ & Hrun).
  apply bind_inv_Ok in Hrun as (ids & h6 & _ & Hrun).
  apply bind_inv_Ok in Hrun as (data' & h7 & _ & Hrun).
  apply bind_inv_Ok in Hrun as (props & h8 & _ & Hrun).
  destruct props as [[props|elems]|]; try done.
  apply bind_inv_Ok in Hrun as (n & h9 & _ & Hrun).
  unfold_M. by simplify_eq.
Qed.

Lemma hread_store v k h r h' : hread v k h = (r, h') → h' = h.
Proof.
  unfold hread, deref. unfold_M.
  destruct v as [d|l]; [|destruct (h !! l) as [[props|elems]|]].
  - destruct (read d k); by intros [= _ <-].
  - by intros [= _ <-].
  - destruct (String.eqb k "length"); by intros [= _ <-].
  - by intros [= _ <-].
Qed.

Lemma hval_is_block_false l props h :
  h !! l = Some (HObject props) →
  hval_is_block (HRef l) h = (Ok false, h) →
  is_block_object props = false.
Proof.
  intros Hl. unfold hval_is_block, hread, deref. unfold_M. rewrite Hl.
  by intros [= Hblock].
Qed.

(** The write of [node.nodes] keeps the frame when the node was not a
    block to begin with. *)
Lemma hwrite_nodes_frame node x h0 h r h' :
  heap_frame h0 h →
  hval_is_block node h0 = (Ok false, h0) →
  hwrite node "nodes" x h = (r, h') →
  heap_frame h0 h'.
Proof.
  intros Hframe Hkind. unfold hwrite, deref. unfold_M.
  destruct node as [d|l]; [by intros [= _ <-]|].
  destruct (h !! l) as [[props|elems]|] eqn:Hl; try by intros [= _ <-].
  intros [= _ <-]. intros l0 o0 Hl0.
  destruct (Hframe l0 o0 Hl0) as (o & Hlo & Hobj).
  destruct (decide (l0 = l)) as [->|Hne]; [|by rewrite list_lookup_insert_ne; eauto].
  rewrite list_lookup_insert_eq by by eapply lookup_lt_Some.
  eexists. split; [done|]. simplify_eq.
  destruct o0 as [props0|]; [|done]. destruct Hobj as [Hk Hb].
  pose proof (hval_is_block_false _ _ _ Hl0 Hkind) as Hnot. split.
  - intros k Hnodes. by rewrite alist_get_set_ne, Hk.
  - congruence.
Qed.

(** The default visitor keeps the frame on a node that is not a block. *)
Lemma hresolve_default_frame node g h r h' :
  (∀ c, keeps_frame (g c)) →
  hval_is_block node h = (Ok false, h) →
  hresolve_defaultVisitor node g h = (r, h') →
  heap_frame h h'.
Proof.
  intros Hg Hkind. unfold hresolve_defaultVisitor. unfold_M.
  destruct (hread node "nodes" h) as [rn h1] eqn:Hread.
  apply hread_store in Hread as ->.
  destruct rn as [nodes| | |]; try (intros [= _ <-]; apply heap_frame_refl).
  destruct (htruthy nodes); [|intros [= _ <-]; apply heap_frame_refl].
  destruct (deref nodes h) as [rc h1] eqn:Hderef.
  pose proof (keeps_frame_deref _ _ _ _ Hderef) as H1.
  destruct rc as [[[props|children]|]| | |]; try (by intros [= _ <-]).
  destruct (array_map g children h1) as [rv h2] eqn:Hmap.
  pose proof (keeps_frame_array_map g children Hg _ _ _ Hmap) as H2.
  pose proof (heap_frame_trans _ _ _ H1 H2) as H12.
  destruct rv as [visited| | |]; try (by intros [= _ <-]).
  unfold alloc.
  destruct (hwrite node "nodes" (HRef (length h2)) (h2 ++ [HArray visited]))
    as [rw h3] eqn:Hwrite.
  eapply hwrite_nodes_frame in Hwrite; [|by eapply heap_frame_trans, heap_frame_alloc|done].
  destruct rw; by intros [= _ <-].
Qed.

Lemma hval_is_block_store node h r h' :
  hval_is_block node h = (r, h') → h' = h ∧ ∃ b, r = Ok b.
Proof.
  unfold hval_is_block. destruct (hread node "object" h) as [[tag| | |] h1];
    intros [= <- <-]; eauto.
Qed.

Lemma heap_frame_length h h' : heap_frame h h' → length h ≤ length h'.
Proof.
  intros Hframe. destruct h as [|o h _] using rev_ind; [simpl; lia|].
  destruct (Hframe (length h) o) as (o' & Hl & _).
  { by apply list_lookup_middle. }
  apply lookup_lt_Some in Hl. rewrite length_app. simpl. lia.
Qed.

(** The walk started on a node that is not a block and has children:
    it returns that very node, whose [nodes] now refers to a new array. *)
Lemma hresolve_container_rewritten fuel l props a children h out h' :
  h !! l = Some (HObject props) →
  is_block_object props = false →
  alist_get "nodes" props = Some (HRef a) →
  h !! a = Some (HArray children) →
  processSerialised_in_place blocks graphQlArgs fuel (HRef l) h = (Ok out, h') →
  (∀ c, keeps_frame (processSerialised_in_place blocks graphQlArgs (pred fuel) c)) →
  out = HRef l
  ∧ ∃ props' a' visited,
      h' !! l = Some (HObject props')
      ∧ alist_get "nodes" props' = Some (HRef a')
      ∧ length h ≤ a'
      ∧ h' !! a' = Some (HArray visited)
      ∧ length visited = length children.
Proof.
  intros Hl Hkind Hnodes Ha. unfold processSerialised_in_place.
  destruct fuel as [|fuel]; [done|]. cbn [pred]. rewrite walk_unfold.
  assert (hval_is_block (HRef l) h = (Ok false, h)) as Hblock.
  { unfold hval_is_block, hread, deref. unfold_M. rewrite Hl.
    unfold is_block_object in Hkind. by rewrite Hkind. }
  rewrite (bind_Ok _ _ _ _ _ Hblock). cbn [defaultVisitor hresolve_visitors].
  unfold hresolve_defaultVisitor.
  assert (hread (HRef l) "nodes" h = (Ok (HRef a), h)) as Hread.
  { unfold hread, deref. unfold_M. by rewrite Hl, Hnodes. }
  rewrite (bind_Ok _ _ _ _ _ Hread). cbn [htruthy].
  assert (deref (HRef a) h = (Ok (Some (HArray children)), h)) as Hderef.
  { unfold deref. by rewrite Ha. }
  rewrite (bind_Ok _ _ _ _ _ Hderef).
  intros Hrun Hwalk.
  apply bind_inv_Ok in Hrun as (visited & h2 & Hmap & Hrun).
  pose proof (keeps_frame_array_map _ children Hwalk _ _ _ Hmap) as Hframe.
  pose proof (heap_frame_length _ _ Hframe) as Hlen.
  destruct (Hframe l _ Hl) as ([props2|] & Hl2 & Hobj); [|done].
  apply bind_inv_Ok in Hrun as (nodes' & h3 & [= <- <-] & Hrun).
  apply bind_inv_Ok in Hrun as ([] & h4 & Hwrite & Hrun).
  unfold_M. simplify_eq.
  unfold hwrite, deref in Hwrite. unfold_M.
  rewrite (lookup_app_l_Some _ _ _ _ Hl2) in Hwrite. simplify_eq.
  pose proof (lookup_lt_Some _ _ _ Hl2) as Hlt.
  split; [done|]. eexists _, (length h2), visited. split_and!.
  - apply list_lookup_insert_eq. rewrite length_app. simpl. lia.
  - apply alist_get_set_eq.
  - done.
  - rewrite list_lookup_insert_ne by lia. by apply list_lookup_middle.
  - by eapply array_map_Ok_length.
Qed.

End in_place.

(** ** Error conditions over a whole document *)

Section serialise_checks.
Variable value : Value.
Variable blocks : gmap string BlockHandler.

Lemma serialise_visitBlock_checked n σ r σ' :
  String.eqb (Node_object n) "block" = true →
  serialise_visitBlock value blocks n σ = (Ok r, σ') →
  (is_Some r ↔ claimed value blocks n = true) ∧ passes_checks value blocks n.
Proof.
  intros Hblock. unfold serialise_visitBlock, claimed, passes_checks, handler_of.
  rewrite Hblock. destruct (blocks !! _) as [b|]; cycle 1.
  { unfold_M. intros [= <- _]. split; [|done]. split; [by intros [? ?] | done]. }
  destruct (serialize b value n) as [ms sn] eqn:Hser. cbn [mutations node].
  destruct (has_mutations ms) eqn:Hms; cycle 1.
  { unfold_M. intros [= <- _]. split.
    - destruct (truthy sn); split; try done; by intros [? ?].
    - intros b' [= <-]. rewrite Hser. cbn [mutations]. congruence. }
  destruct (truthy sn) eqn:Hsn; [|done]. cbn [negb].
  destruct (path_set b) as [blockPath|] eqn:Hpath; [|done].
  intros (? & ? & _ & Hrun)%bind_inv_Ok.
  apply bind_inv_Ok in Hrun as (? & ? & _ & Hrun).
  apply bind_inv_Ok in Hrun as (? & ? & _ & Hrun).
  apply bind_inv_Ok in Hrun as (? & ? & _ & Hrun).
  apply bind_inv_Ok in Hrun as (? & ? & _ & Hrun).
  apply bind_inv_Ok in Hrun as (? & ? & _ & Hrun).
  apply bind_inv_Ok in Hrun as (? & ? & _ & Hrun).
  unfold_M. simplify_eq. split; [by split; eauto|].
  intros b' [= <-] _. rewrite Hser, Hpath. cbn [node]. eauto.
Qed.

Lemma serialise_children_checked (walk : Node → M obj json) children :
  (∀ n σ r σ',
     walk n σ = (Ok r, σ') →
     Forall (passes_checks value blocks) (reached value blocks n)) →
  ∀ σ rs σ',
    array_map walk children σ = (Ok rs, σ') →
    Forall (passes_checks value blocks) (flat_map (reached value blocks) children).
Proof.
  intros Hwalk. induction children as [|c children IH]; intros σ rs σ'; cbn [array_map].
  - intros _. constructor.
  - intros (r & σ1 & Hc & (rs' & σ2 & Hcs & _)%bind_inv_Ok)%bind_inv_Ok.
    cbn [flat_map]. apply Forall_app. eauto.
Qed.

(** A walk that returns has found every block it reached in order. *)
Lemma serialise_walk_checked fuel : ∀ n σ r σ',
  walkSlateNode Node_is_block fuel (serialise_visitors value blocks) n σ = (Ok r, σ') →
  Forall (passes_checks value blocks) (reached value blocks n).
Proof.
  induction fuel as [|fuel IH]; intros n σ r σ'; [done|].
  rewrite walk_unfold. erewrite bind_Ok by done.
  assert (∀ σ0 r0 σ0',
            claimed value blocks n = false →
            passes_checks value blocks n →
            serialise_defaultVisitor n
              (walkSlateNode Node_is_block fuel (serialise_visitors value blocks)) σ0
            = (Ok r0, σ0') →
            Forall (passes_checks value blocks) (reached value blocks n)) as Hdefault.
  { intros σ0 r0 σ0' Hclaimed Hn. rewrite reached_unclaimed by done.
    unfold serialise_defaultVisitor.
    destruct (Node_nodes n) as [children|]; cbn [default flat_map].
    - intros (rs & σ1 & Hcs & _)%bind_inv_Ok. constructor; [done|].
      by eapply serialise_children_checked.
    - intros _. constructor; [done | constructor]. }
  destruct (String.eqb (Node_object n) "block") eqn:Hblock.
  - intros (r0 & σ1 & Hvisit & Hrest)%bind_inv_Ok.
    destruct (serialise_visitBlock_checked n σ r0 σ1 Hblock Hvisit) as [Hclaimed Hn].
    destruct r0 as [replacement|].
    + rewrite reached_claimed by (apply Hclaimed; eauto).
      constructor; [done | constructor].
    + eapply Hdefault; [|done|done].
      destruct (claimed value blocks n); [|done]. by destruct Hclaimed as [_ [? ?]].
  - apply Hdefault.
    + unfold claimed, handler_of. by rewrite Hblock.
    + unfold passes_checks, handler_of. by rewrite Hblock.
Qed.

(** C6. On a block whose handler returns a non-empty mutations map,
    [serialiseSlateValue]'s walk throws an error of the class
    [ConfigurationError] when the handler returned no node, and when it
    returned one but declares no path; so a call of [serialiseSlateValue]
    whose walk reaches such a block does not return.  When the mutations
    map is empty or absent neither check fires: the visitor returns the
    handler's node, or nothing, and leaves the batches as they are. *)
Theorem serialise_error_conditions n b :
  handler_of blocks n = Some b →
  let result := serialize b value n in
  (has_mutations (mutations result) = true → truthy (node result) = false →
   ∀ fuel σ,
     walkSlateNode Node_is_block (S fuel) (serialise_visitors value blocks) n σ
     = (Throw MustReturnNode, σ)
     ∧ class_of MustReturnNode = ConfigurationError)
  ∧ (has_mutations (mutations result) = true → truthy (node result) = true →
     path_set b = None →
     ∀ fuel σ,
       walkSlateNode Node_is_block (S fuel) (serialise_visitors value blocks) n σ
       = (Throw (NoMutationPath (type b)), σ)
       ∧ class_of (NoMutationPath (type b)) = ConfigurationError)
  ∧ (has_mutations (mutations result) = true →
     truthy (node result) = false ∨ path_set b = None →
     n ∈ reached value blocks (document value) →
     ∀ out, serialiseSlateValue value blocks ≠ Ok out)
  ∧ (has_mutations (mutations result) = false →
     ∀ σ, serialise_visitBlock value blocks n σ
          = (Ok (if truthy (node result) then Some (node result) else None), σ)).
Proof.
  intros Hb result. pose proof Hb as [_ Hlookup]%handler_of_Some.
  assert (∀ fuel σ,
            walkSlateNode Node_is_block (S fuel) (serialise_visitors value blocks) n σ
            = (r ← serialise_visitBlock value blocks n;
               match r with
               | Some replacement => mret replacement
               | None => serialise_defaultVisitor n
                           (walkSlateNode Node_is_block fuel
                              (serialise_visitors value blocks))
               end) σ) as Hwalk.
  { intros. by apply (walk_serialise_block value blocks _ _ b). }
  unfold serialise_visitBlock in *. rewrite Hlookup in *. fold result in Hwalk |- *.
  split_and!.
  - intros Hms Hsn fuel σ. rewrite Hwalk.
    destruct result as [ms sn]. cbn [mutations node] in *. by rewrite Hms, Hsn.
  - intros Hms Hsn Hpath fuel σ. rewrite Hwalk.
    destruct result as [ms sn]. cbn [mutations node] in *. by rewrite Hms, Hsn, Hpath.
  - intros Hms Hbad Hreached out Hout. unfold serialiseSlateValue in Hout.
    destruct (walkSlateNode _ _ _ _ _) as [[serializedDocument| | |] allMutations]
      eqn:Hrun; try done.
    apply serialise_walk_checked in Hrun.
    rewrite Forall_forall in Hrun.
    destruct (Hrun n Hreached b Hb Hms) as [Hsn [p Hp]].
    fold result in Hsn. destruct Hbad; congruence.
  - intros Hms σ. destruct result as [ms sn]. cbn [mutations node] in *.
    by rewrite Hms.
Qed.
End serialise_checks.

Lemma json_reached_object o :
  json_reached (VObj o) =
  VObj o :: (if strict_equal (obj_get "object" o) (VStr "block") then []
             else match obj_get "nodes" o with
                  | VArr children => flat_map json_reached children
                  | _ => []
                  end).
Proof.
  cbn [json_reached]. f_equal. destruct (strict_equal _ _); [done|].
  unfold obj_get. induction o as [|[k x] o IH]; [done|]. cbn [alist_get].
  destruct (String.eqb "nodes" k); [by destruct x | done].
Qed.

Section resolve_checks.
Variable blocks : list BlockHandler.
Variable graphQlArgs : json.

Abbreviation results := (VObj (resolvedMutations blocks graphQlArgs)).
Abbreviation walk_resolve fuel :=
  (walkSlateNode json_is_block fuel (resolve_visitors blocks graphQlArgs)).
Abbreviation handler_for type_ :=
  (find (λ b, strict_equal (VStr (type b)) type_) blocks).

(** A list of mutation paths that resolves has no path that leads
    nowhere. *)
Lemma resolve_paths_checked paths : ∀ ids,
  array_map (resolve_path blocks graphQlArgs) paths tt = (Ok ids, tt) →
  Forall (λ p, truthy (getByPath results p) = true) paths.
Proof.
  induction paths as [|p paths IH]; intros ids; [constructor|].
  cbn [array_map].
  intros (r & [] & Hp & (rs & [] & Hrs & _)%bind_inv_Ok)%bind_inv_Ok.
  unfold resolve_path in Hp.
  destruct (truthy (getByPath results p)) eqn:Hq; [|done]. constructor; eauto.
Qed.

(** The visitor returns on a block only if the block resolves, and then
    it returns a node. *)
Lemma resolve_visitBlock_checked o r :
  resolve_visitBlock blocks graphQlArgs (VObj o) tt = (Ok r, tt) →
  is_Some r ∧ resolves blocks graphQlArgs (VObj o).
Proof.
  rewrite resolve_visitBlock_eq. cbv zeta.
  destruct (negb _ || negb _) eqn:Hskip.
  - intros [= <-]. split; [done|]. intros o' [= <-] _ Hdata Hpaths.
    by rewrite Hdata, Hpaths in Hskip.
  - destruct (handler_for _) as [h|] eqn:Hh; [|done].
    destruct (get_prop (obj_get "data" o) "_mutationPaths") as [| | | | |l|]
      eqn:Hpaths; try done.
    destruct (array_map _ _ _) as [[ids| | |] []] eqn:Hids; try done.
    intros [= <-]. split; [done|]. intros o' [= <-] _ _ _. split; [done|].
    intros paths. rewrite Hpaths. intros [= <-]. by eapply resolve_paths_checked.
Qed.

Lemma resolve_children_checked (walk : json → M unit json) children :
  (∀ n r, walk n tt = (Ok r, tt) →
          Forall (resolves blocks graphQlArgs) (json_reached n)) →
  ∀ rs, array_map walk children tt = (Ok rs, tt) →
        Forall (resolves blocks graphQlArgs) (flat_map json_reached children).
Proof.
  intros Hwalk. induction children as [|c children IH]; intros rs; cbn [array_map].
  - intros _. constructor.
  - intros (r & [] & Hc & (rs' & [] & Hcs & _)%bind_inv_Ok)%bind_inv_Ok.
    cbn [flat_map]. apply Forall_app. eauto.
Qed.

(** A walk that returns has resolved every block it reached. *)
Lemma resolve_walk_checked fuel : ∀ n r,
  walk_resolve fuel n tt = (Ok r, tt) →
  Forall (resolves blocks graphQlArgs) (json_reached n).
Proof.
  induction fuel as [|fuel IH]; intros n r; [done|].
  destruct n as [| | | | |l|o];
    try (intros _; constructor; [by intros ? [=] | constructor]).
  rewrite json_reached_object.
  destruct (strict_equal (obj_get "object" o) (VStr "block")) eqn:Hblock.
  - assert (obj_get "object" o = VStr "block") as Hb.
    { destruct (obj_get "object" o); try done.
      cbn [strict_equal] in Hblock. by apply String.eqb_eq in Hblock as ->. }
    rewrite walk_resolve_block by done.
    destruct (resolve_visitBlock _ _ _ _) as [[[replacement|]| | |] []] eqn:Hvisit;
      try done.
    + intros _. constructor; [|constructor].
      by eapply resolve_visitBlock_checked.
    + by apply resolve_visitBlock_checked in Hvisit as [[? ?] _].
  - rewrite walk_resolve_other by done. unfold resolve_defaultVisitor.
    intros (nodes & [] & Hread & Hrest)%bind_inv_Ok.
    unfold lift in Hread. cbn [read get_prop] in Hread. injection Hread as <-.
    constructor.
    { intros o' [= <-] Hobj. rewrite Hobj in Hblock. by cbn in Hblock. }
    destruct (obj_get "nodes" o) as [| | | | |children|]; try constructor.
    cbn [truthy] in Hrest.
    apply bind_inv_Ok in Hrest as (rs & [] & Hcs & _).
    by eapply resolve_children_checked.
Qed.

End resolve_checks.

(** ** Mutation paths in general *)

Section mutation_path_lookup.
Import Lodash.

Lemma append_cons c (a b : string) : String c a +:+ b = String c (a +:+ b).
Proof. done. Qed.

Lemma append_assoc (a b c : string) : (a +:+ b) +:+ c = a +:+ b +:+ c.
Proof. induction a as [|x a IH]; [done|]. rewrite !append_cons. by f_equal. Qed.

Lemma append_empty_r (a : string) : a +:+ "" = a.
Proof. induction a as [|x a IH]; [done|]. rewrite append_cons. by f_equal. Qed.

Lemma pretty_N_char_digit x : is_digit (pretty_N_char x) = true.
Proof. destruct x as [|[[[[]|[]|]|[[]|[]|]|]|[[[]|[]|]|[[]|[]|]|]|]]; done. Qed.

Lemma pretty_N_go_digits x : ∀ s,
  ∃ d, pretty_N_go x s = d +:+ s ∧ all_digits d = true ∧ ((0 < x)%N → d ≠ "").
Proof.
  induction (N.lt_wf_0 x) as [x _ IH]; intros s.
  destruct (decide (x = 0)%N) as [->|Hx].
  { exists "". rewrite pretty_N_go_0. split_and!; [done..|lia]. }
  rewrite pretty_N_go_step by lia.
  destruct (IH (x `div` 10)%N) with (s := String (pretty_N_char (x `mod` 10)) s)
    as (d & Hgo & Hd & _); [apply N.div_lt; lia|].
  rewrite Hgo. exists (d +:+ String (pretty_N_char (x `mod` 10)) "").
  split_and!.
  - by rewrite append_assoc.
  - clear -Hd. induction d as [|c d IH].
    + change (all_digits (String (pretty_N_char (x `mod` 10)) "") = true).
      cbn [all_digits]. by rewrite pretty_N_char_digit.
    + rewrite append_cons. cbn [all_digits] in *.
      apply andb_prop in Hd as [-> ?]. auto.
  - intros _. by destruct d.
Qed.

Lemma pretty_nat_digits (i : nat) : all_digits (pretty i) = true ∧ pretty i ≠ "".
Proof.
  unfold pretty, pretty_nat, pretty, pretty_N. case_decide; [done|].
  destruct (pretty_N_go_digits (N.of_nat i) "") as (d & -> & Hd & Hne).
  rewrite append_empty_r.
  split; [done | apply Hne; lia].
Qed.

Lemma span_run_until (f : ascii → bool) p c t :
  (∀ x, f x = true → is_separator x = false) →
  is_separator c = true →
  (fix all (s : string) : bool :=
     match s with EmptyString => true | String x s' => f x && all s' end) p = true →
  span f (p +:+ String c t) = (p, String c t).
Proof.
  intros Hf Hc. induction p as [|x p IH]; intros Hp.
  - change ("" +:+ String c t) with (String c t). cbn [span].
    destruct (f c) eqn:Hfc; [|done]. apply Hf in Hfc. congruence.
  - apply andb_prop in Hp as [Hx Hp]. rewrite append_cons. cbn [span].
    by rewrite Hx, IH.
Qed.

Lemma span_plain_until p c t :
  no_separator p = true → is_separator c = true →
  span (λ c, negb (is_separator c)) (p +:+ String c t) = (p, String c t).
Proof.
  intros Hp Hc. apply span_run_until; [|done|].
  - by intros x ?%negb_true_iff.
  - clear -Hp. induction p as [|x p IH]; [done|]. cbn [no_separator] in Hp.
    apply andb_prop in Hp as [-> ?]. auto.
Qed.

Lemma digit_not_separator x : is_digit x = true → is_separator x = false.
Proof. destruct x as [[] [] [] [] [] [] [] []]; done. Qed.

Lemma span_digits_until d c t :
  all_digits d = true → is_separator c = true →
  span is_digit (d +:+ String c t) = (d, String c t).
Proof.
  intros Hd Hc. apply span_run_until; [apply digit_not_separator|done|].
  clear -Hd. induction d as [|x d IH]; [done|]. cbn [all_digits] in Hd.
  apply andb_prop in Hd as [-> ?]. auto.
Qed.

Lemma append_length (a b : string) :
  String.length (a +:+ b) = String.length a + String.length b.
Proof. induction a as [|x a IH]; [done|]. rewrite append_cons. cbn. by rewrite IH. Qed.

(** A plain key that ends at a separator is one match of [rePropName]. *)
Lemma scan_plain_run a c t :
  plain_key a = true → is_separator c = true →
  scan (a +:+ String c t) 0 = a :: scan (String c t) 0.
Proof.
  intros [Hne Ha]%andb_prop Hc. destruct a as [|x a]; [done|]. clear Hne.
  pose proof (span_plain_until (String x a) c t Ha Hc) as Hspan.
  cbn [no_separator] in Ha. apply andb_prop in Ha as [Hx%negb_true_iff _].
  rewrite append_cons in *. rewrite scan_unfold, match_here_plain by done.
  rewrite Hspan. cbn [fst String.length pred]. by rewrite scan_skip.
Qed.

(** A dot before a plain key is skipped. *)
Lemma scan_dot a t :
  plain_key a = true → scan (String "." (a +:+ t)) 0 = scan (a +:+ t) 0.
Proof.
  intros [Hne Ha]%andb_prop. destruct a as [|x a]; [done|]. clear Hne.
  cbn [no_separator] in Ha. apply andb_prop in Ha as [Hx%negb_true_iff _].
  rewrite append_cons, scan_unfold.
  assert (match_here (String "." (String x (a +:+ t))) = None) as ->; [|done].
  destruct x as [[] [] [] [] [] [] [] []]; done.
Qed.

(** A number between brackets at the end of a path is its last key. *)
Lemma scan_bracket_number d :
  all_digits d = true → d ≠ "" → scan (String "[" (d +:+ "]")) 0 = [d].
Proof.
  intros Hd Hne.
  assert (bracket_number (d +:+ "]") = Some (d, S (String.length d))) as Hnumber.
  { unfold bracket_number.
    assert ((match d +:+ "]" with
             | String "-" r => ("-", r)
             | _ => ("", d +:+ "]")
             end) = ("", d +:+ "]")) as ->.
    { destruct d as [|x d]; [done|]. rewrite append_cons.
      cbn [all_digits] in Hd. apply andb_prop in Hd as [Hx _].
      destruct x as [[] [] [] [] [] [] [] []]; done. }
    rewrite span_digits_until by done.
    destruct (String.eqb_spec d "") as [|_]; [done|].
    change ("" +:+ d +:+ "") with (d +:+ ""). by rewrite append_empty_r. }
  rewrite scan_unfold. unfold match_here.
  change (negb (is_separator "[")) with false. cbn iota.
  change (Ascii.eqb "[" "[") with true. cbn iota. rewrite Hnumber.
  cbn [pred]. f_equal.
  rewrite <-(append_empty_r (d +:+ "]")) at 1.
  replace (S (String.length d)) with (String.length (d +:+ "]")).
  - by rewrite scan_skip.
  - rewrite append_length. cbn. lia.
Qed.

(** The three keys of a mutation path. *)
Lemma stringToPath_of_mutation_path p action i :
  plain_key p = true → plain_key action = true →
  stringToPath (mutation_path p action i) = [p; action; pretty i].
Proof.
  intros Hp Haction. unfold mutation_path.
  destruct (pretty_nat_digits i) as [Hd Hne].
  change (p +:+ "." +:+ action +:+ "[" +:+ pretty i +:+ "]")
    with (p +:+ String "." (action +:+ String "[" (pretty i +:+ "]"))).
  rewrite stringToPath_plain_prefix by done. f_equal.
  rewrite scan_dot, scan_plain_run by done. f_equal.
  by apply scan_bracket_number.
Qed.

Lemma array_index_pretty (i len : nat) :
  array_index (pretty i) len = if decide (i < len) then Some i else None.
Proof.
  unfold array_index.
  assert (filter (λ j, pretty j = pretty i) (seq 0 len)
          = if decide (i < len) then [i] else []) as ->; [|by case_decide].
  induction len as [|len IH]; [done|].
  rewrite seq_S, filter_app, IH. cbn [plus filter list_filter].
  destruct (decide (pretty len = pretty i)) as [Heq|Hne].
  - apply (inj pretty) in Heq as ->.
    rewrite decide_False, decide_True by lia. done.
  - destruct (decide (i < len)), (decide (i < S len)); try lia; try done.
    destruct Hne. f_equal. lia.
Qed.

Lemma pretty_not_length (i : nat) : String.eqb (pretty i) "length" = false.
Proof.
  destruct (pretty_nat_digits i) as [Hd Hne].
  destruct (pretty i) as [|x d]; [done|].
  cbn [all_digits] in Hd. apply andb_prop in Hd as [Hx _].
  destruct x as [[] [] [] [] [] [] [] []]; done.
Qed.

(** The path [`${p}.${action}[${i}]`] leads to the [i]-th entry of the
    action [action] of the batch [p]. *)
Lemma getByPath_mutation_path p action i results batch entries :
  plain_key p = true →
  plain_key action = true →
  obj_get p results = VObj batch →
  obj_get action batch = VArr entries →
  obj_has (mutation_path p action i) results = false →
  getByPath (VObj results) (VStr (mutation_path p action i))
  = nth_or_undefined entries i.
Proof.
  intros Hp Haction Hbatch Hentries Hkey.
  unfold Lodash.get, baseGet, castPath, isKey. cbn [to_string has_prop].
  rewrite Hkey.
  assert (is_plain_prop (mutation_path p action i) = false) as ->.
  { unfold mutation_path. apply is_plain_prop_dot. }
  assert (is_deep_prop (mutation_path p action i) = true) as ->.
  { unfold mutation_path. apply is_deep_prop_dot. }
  cbn [negb orb]. rewrite stringToPath_of_mutation_path by done.
  cbn [descend get_prop]. rewrite Hbatch. cbn [get_prop]. rewrite Hentries.
  cbn [get_prop default]. rewrite pretty_not_length, array_index_pretty.
  unfold nth_or_undefined. case_decide as Hi; [done|].
  by rewrite lookup_ge_None_2 by lia.
Qed.
End mutation_path_lookup.

Lemma append_inj_r (a b c : string) : a +:+ c = b +:+ c → a = b.
Proof.
  revert b. induction a as [|x a IH]; intros [|y b] Heq; [done| | |].
  - change ("" +:+ c) with c in Heq. apply (f_equal String.length) in Heq.
    rewrite append_cons in Heq. cbn [String.length] in Heq.
    rewrite append_length in Heq. lia.
  - change ("" +:+ c) with c in Heq. apply (f_equal String.length) in Heq.
    rewrite append_cons in Heq. cbn [String.length] in Heq.
    rewrite append_length in Heq. lia.
  - rewrite !append_cons in Heq. injection Heq as -> Heq. f_equal. by apply IH.
Qed.

(** Mutation paths of one action differ when their positions do. *)
Lemma mutation_path_inj p action : Inj (=) (=) (mutation_path p action).
Proof.
  intros i j Heq. unfold mutation_path in Heq.
  do 4 apply String.app_inj in Heq.
  by apply append_inj_r, (inj pretty) in Heq.
Qed.

Lemma plain_key_not_path k p t : plain_key k = true → k ≠ p +:+ String "." t.
Proof.
  intros [_ Hk]%andb_prop ->. revert Hk. clear.
  induction p as [|x p IH]; [done|]. rewrite append_cons. cbn [no_separator].
  intros [_ ?]%andb_prop. auto.
Qed.

Section serialise_round_trip.
Variable value : Value.
Variable blocks : gmap string BlockHandler.

(** The visitor on a block whose handler returns a node and the mutations
    [data] of one action, whatever the batches hold already. *)
Lemma serialise_visitBlock_action n b p sn dat action data ps σ batch entries :
  handler_of blocks n = Some b →
  path_set b = Some p →
  serialize b value n = {| mutations := VObj [(action, data)]; node := VObj sn |} →
  node_data sn = Some dat →
  (if truthy (obj_get "_mutationPaths" dat)
   then obj_get "_mutationPaths" dat else VArr []) = VArr ps →
  (if truthy (obj_get p σ)
   then obj_get p σ else VObj [("disconnectAll", VBool true)]) = VObj batch →
  (if truthy (obj_get action batch)
   then obj_get action batch else VArr []) = VArr entries →
  serialise_visitBlock value blocks n σ
  = (Ok (Some (VObj (obj_set "data"
                       (VObj (obj_set "_mutationPaths"
                                (VArr (ps ++ ((λ i, VStr (mutation_path p action i))
                                                <$> seq (length entries)
                                                      (length (as_array data)))))
                                dat))
                       sn))),
     obj_set p (VObj (obj_set action (VArr (entries ++ as_array data)) batch)) σ).
Proof.
  intros [_ Hb]%handler_of_Some Hp Hser Hdata Hpaths Hbatch Hentries.
  unfold serialise_visitBlock. rewrite Hb, Hser, Hp.
  change (has_mutations (VObj [(action, data)])) with true.
  cbn [truthy negb own_entries].
  assert ((if truthy (get_prop (VObj sn) "data")
           then get_prop (VObj sn) "data" else VObj []) = VObj dat) as Hdat.
  { unfold node_data in Hdata. cbn [get_prop].
    destruct (obj_get "data" sn) as [| | [] | | | |]; simpl in *;
      repeat case_match; by simplify_eq/=. }
  rewrite Hdat. cbn [get_prop]. rewrite Hpaths.
  erewrite bind_Ok by done. rewrite Hbatch.
  erewrite bind_Ok by done.
  erewrite bind_Ok by done. erewrite bind_Ok by done.
  cbn [for_each].
  erewrite bind_Ok; cycle 1.
  { erewrite bind_Ok; [done|].
    apply (gather_action_run p ps action data _ batch entries); [|done].
    by rewrite obj_get_set, decide_True. }
  erewrite bind_Ok by done. erewrite bind_Ok by done.
  unfold_M. unfold obj_set. by rewrite ?alist_set_set.
Qed.

End serialise_round_trip.

Section resolve_positions.
Variable blocks : list BlockHandler.
Variable graphQlArgs : json.

Abbreviation results := (VObj (resolvedMutations blocks graphQlArgs)).
Abbreviation walk_resolve fuel :=
  (walkSlateNode json_is_block fuel (resolve_visitors blocks graphQlArgs)).
Abbreviation handler_for type_ :=
  (find (λ b, strict_equal (VStr (type b)) type_) blocks).

Lemma getByPath_results p a batch entries i :
  plain_key p = true →
  plain_key a = true →
  Forall (λ k, plain_key k = true) (resolvedMutations blocks graphQlArgs).*1 →
  obj_get p (resolvedMutations blocks graphQlArgs) = VObj batch →
  obj_get a batch = VArr entries →
  getByPath results (VStr (mutation_path p a i)) = nth_or_undefined entries i.
Proof.
  intros Hp Ha Hkeys Hbatch Hentries.
  apply (getByPath_mutation_path p a i _ batch); try done.
  unfold obj_has. apply bool_decide_eq_false_2. intros [v Hv%alist_get_Some_key].
  rewrite Forall_forall in Hkeys. specialize (Hkeys _ Hv).
  revert Hkeys. unfold mutation_path. intros Hk. by eapply plain_key_not_path.
Qed.

(** Resolving a block whose paths are positions of one action that all
    hold a truthy entry. *)
Lemma resolve_positions_run fuel o data p a batch entries positions :
  obj_get "object" o = VStr "block" →
  obj_get "data" o = VObj data →
  obj_get "_mutationPaths" data
  = VArr ((λ i, VStr (mutation_path p a i)) <$> positions) →
  is_Some (handler_for (obj_get "type" o)) →
  plain_key p = true →
  plain_key a = true →
  Forall (λ k, plain_key k = true) (resolvedMutations blocks graphQlArgs).*1 →
  obj_get p (resolvedMutations blocks graphQlArgs) = VObj batch →
  obj_get a batch = VArr entries →
  Forall (λ i, truthy (nth_or_undefined entries i) = true) positions →
  walk_resolve (S fuel) (VObj o) tt
  = (Ok (VObj (obj_set "data"
                 (VObj [("_joinIds", VArr (nth_or_undefined entries <$> positions))])
                 (spread [] (VObj o)))), tt).
Proof.
  intros Hblock Hdata Hpaths [h Hh] Hp Ha Hkeys Hbatch Hentries Hall.
  assert (∀ i, getByPath results (VStr (mutation_path p a i))
               = nth_or_undefined entries i) as Hget.
  { intros i. by eapply getByPath_results. }
  rewrite walk_resolve_block, resolve_visitBlock_eq by done.
  cbv zeta. rewrite Hdata. cbn [get_prop]. rewrite Hpaths, Hh.
  cbn [truthy negb orb]. rewrite resolve_paths_Ok.
  - rewrite <-list_fmap_compose.
    assert (getByPath results ∘ (λ i, VStr (mutation_path p a i)) <$> positions
            = nth_or_undefined entries <$> positions) as ->; [|done].
    apply list_fmap_ext. intros ???. apply Hget.
  - apply Forall_fmap. eapply Forall_impl; [done|]. intros i Hi.
    unfold compose. by rewrite Hget.
Qed.

(** X5. A block carries the mutation paths of the positions [positions] of
    the action [a] of the path [p], and the combined results hold the list
    [entries] there.  When every position holds a truthy entry, the block
    comes out with these entries, in the order of the paths, as its join
    ids; when a position holds a falsy entry or none, the walk throws the
    error of the first such path. *)
Theorem resolve_mutation_paths fuel o data p a batch entries positions :
  obj_get "object" o = VStr "block" →
  obj_get "data" o = VObj data →
  obj_get "_mutationPaths" data
  = VArr ((λ i, VStr (mutation_path p a i)) <$> positions) →
  is_Some (handler_for (obj_get "type" o)) →
  plain_key p = true →
  plain_key a = true →
  Forall (λ k, plain_key k = true) (resolvedMutations blocks graphQlArgs).*1 →
  obj_get p (resolvedMutations blocks graphQlArgs) = VObj batch →
  obj_get a batch = VArr entries →
  (Forall (λ i, truthy (nth_or_undefined entries i) = true) positions →
   walk_resolve (S fuel) (VObj o) tt
   = (Ok (VObj (obj_set "data"
                  (VObj [("_joinIds", VArr (nth_or_undefined entries <$> positions))])
                  (spread [] (VObj o)))), tt))
  ∧ (∀ before i after,
       positions = before ++ i :: after →
       Forall (λ i, truthy (nth_or_undefined entries i) = true) before →
       truthy (nth_or_undefined entries i) = false →
       walk_resolve (S fuel) (VObj o) tt
       = (Throw (UnknownMutation (VStr (mutation_path p a i))), tt)).
Proof.
  intros Hblock Hdata Hpaths [h Hh] Hp Ha Hkeys Hbatch Hentries.
  assert (∀ i, getByPath results (VStr (mutation_path p a i))
               = nth_or_undefined entries i) as Hget.
  { intros i. by eapply getByPath_results. }
  split; [intros Hall; by eapply resolve_positions_run|].
  intros before i after -> Hbefore Hi.
  rewrite walk_resolve_block, resolve_visitBlock_eq by done.
  cbv zeta. rewrite Hdata. cbn [get_prop]. rewrite Hpaths, Hh.
  cbn [truthy negb orb].
  assert (array_map (resolve_path blocks graphQlArgs)
            ((λ i, VStr (mutation_path p a i)) <$> before ++ i :: after) tt
          = (Throw (UnknownMutation (VStr (mutation_path p a i))), tt)) as ->;
    [|done].
  clear Hpaths.
  induction Hbefore as [|j before Hj _ IH]; cbn [app fmap list_fmap array_map].
  - erewrite bind_Throw; [done|]. unfold resolve_path. by rewrite Hget, Hi.
  - erewrite bind_Ok; [|unfold resolve_path; by rewrite Hget, Hj].
    by erewrite bind_Throw by exact IH.
Qed.
End resolve_positions.

Lemma nth_or_undefined_seq (l : list json) :
  nth_or_undefined l <$> seq 0 (length l) = l.
Proof.
  apply list_eq. intros i. rewrite list_lookup_fmap.
  destruct (decide (i < length l)) as [Hi|Hi].
  - rewrite lookup_seq_lt by done. cbn. unfold nth_or_undefined.
    destruct (lookup_lt_is_Some_2 l i Hi) as [x Hx]. by rewrite Hx.
  - rewrite lookup_seq_ge by lia. by rewrite lookup_ge_None_2 by lia.
Qed.

Section positions.
Variable value : Value.
Variable blocks : gmap string BlockHandler.
Variable handlers : list BlockHandler.
Variable graphQlArgs : json.

End positions.

(** ** Documents the transforms leave alone *)

Lemma array_map_pure {Σ A B} (f : A → M Σ B) (g : A → B) l σ :
  (∀ x, x ∈ l → f x σ = (Ok (g x), σ)) → array_map f l σ = (Ok (g <$> l), σ).
Proof.
  induction l as [|x l IH]; intros Hf; [done|]. cbn [array_map].
  erewrite bind_Ok by (apply Hf; left).
  erewrite bind_Ok by (apply IH; intros; apply Hf; by right). done.
Qed.

Lemma elem_of_flat_map {A B} (f : A → list B) l y :
  y ∈ flat_map f l ↔ ∃ x, x ∈ l ∧ y ∈ f x.
Proof.
  rewrite list_elem_of_In, in_flat_map. setoid_rewrite list_elem_of_In. done.
Qed.

Lemma shallowNodeToJson_nodes n children :
  Node_nodes n = Some children →
  obj_set "nodes" (VArr ((λ c, VObj (Node_toJSON c)) <$> children)) (shallowNodeToJson n)
  = Node_toJSON n.
Proof. destruct n; intros [= <-]; done. Qed.

Section serialise_plain.
Variable value : Value.
Variable blocks : gmap string BlockHandler.

Lemma serialise_walk_plain fuel : ∀ n σ,
  Node_height n ≤ fuel →
  Forall (declines value blocks) (reached value blocks n) →
  walkSlateNode Node_is_block fuel (serialise_visitors value blocks) n σ
  = (Ok (VObj (Node_toJSON n)), σ).
Proof.
  induction fuel as [|fuel IH]; intros n σ Hfuel Hall.
  { pose proof (Node_height_pos n). lia. }
  assert (declines value blocks n) as Hn.
  { rewrite Forall_forall in Hall. apply Hall. destruct n; left. }
  assert (claimed value blocks n = false) as Hclaimed.
  { unfold claimed. destruct (handler_of blocks n) as [b|] eqn:Hb; [|done].
    by destruct (Hn b Hb). }
  rewrite reached_unclaimed in Hall by done. apply Forall_cons in Hall as [_ Hall].
  assert (serialise_defaultVisitor n
            (walkSlateNode Node_is_block fuel (serialise_visitors value blocks)) σ
          = (Ok (VObj (Node_toJSON n)), σ)) as Hdefault.
  { unfold serialise_defaultVisitor.
    destruct (Node_nodes n) as [children|] eqn:Hnodes; cbn [default] in Hall.
    - erewrite bind_Ok; cycle 1.
      { apply (array_map_pure _ (λ c, VObj (Node_toJSON c))). intros c Hc.
        apply IH.
        - pose proof (Node_height_child n children c Hnodes Hc). lia.
        - rewrite Forall_forall in Hall |- *. intros m Hm. apply Hall.
          apply elem_of_flat_map. eauto. }
      unfold_M. by rewrite shallowNodeToJson_nodes.
    - unfold shallowNodeToJson. by rewrite Hnodes. }
  rewrite walk_unfold. unfold Node_is_block. erewrite bind_Ok by done.
  destruct (String.eqb (Node_object n) "block") eqn:Hblock; [|done].
  assert (serialise_visitBlock value blocks n σ = (Ok None, σ)) as Hvisit.
  { unfold serialise_visitBlock.
    destruct (blocks !! to_string (Node_type n)) as [b|] eqn:Hb; [|done].
    destruct (Hn b) as [Hms Hsn]; [unfold handler_of; by rewrite Hblock|].
    destruct (serialize b value n) as [ms sn]. cbn [mutations node] in *.
    by rewrite Hms, Hsn. }
  erewrite bind_Ok by exact Hvisit. exact Hdefault.
Qed.

End serialise_plain.

Section deserialise_plain.
Variable Value_fromJSON : obj → outcome Value.

Lemma Node_set_nodes_id n children :
  Node_nodes n = Some children → Node_set_nodes children n = n.
Proof. destruct n; intros [= <-]; done. Qed.

Lemma subnodes_unfold n :
  subnodes n = n :: flat_map subnodes (default [] (Node_nodes n)).
Proof. by destruct n. Qed.

Lemma deserialise_walk_plain serializations blocks fuel : ∀ n,
  Node_height n ≤ fuel →
  Forall (left_alone serializations blocks) (subnodes n) →
  walkSlateNode Node_is_block fuel (deserialise_visitors serializations blocks) n tt
  = (Ok n, tt).
Proof.
  induction fuel as [|fuel IH]; intros n Hfuel Hall.
  { pose proof (Node_height_pos n). lia. }
  assert (left_alone serializations blocks n) as Hn.
  { rewrite Forall_forall in Hall. apply Hall. destruct n; left. }
  assert (deserialise_defaultVisitor n
            (walkSlateNode Node_is_block fuel
               (deserialise_visitors serializations blocks)) tt
          = (Ok n, tt)) as Hdefault.
  { unfold deserialise_defaultVisitor.
    destruct (Node_nodes n) as [children|] eqn:Hnodes; [|done].
    erewrite bind_Ok; cycle 1.
    { apply (array_map_pure _ id). intros c Hc. change (id c) with c. apply IH.
      - pose proof (Node_height_child n children c Hnodes Hc). lia.
      - rewrite Forall_forall in Hall |- *. intros m Hm. apply Hall.
        rewrite subnodes_unfold, Hnodes. right. apply elem_of_flat_map. eauto. }
    unfold_M. by rewrite list_fmap_id, Node_set_nodes_id. }
  rewrite walk_unfold. unfold Node_is_block. erewrite bind_Ok by done.
  destruct (String.eqb (Node_object n) "block") eqn:Hblock; [|done].
  assert (deserialise_visitBlock serializations blocks n tt = (Ok None, tt)) as Hvisit.
  { unfold deserialise_visitBlock.
    destruct (blocks !! to_string (Node_type n)) as [b|] eqn:Hb; [|done].
    destruct (Hn b) as (joins & v & Hjoins & Hret & Hv);
      [unfold handler_of; by rewrite Hblock|].
    erewrite bind_Ok by exact Hjoins. by rewrite Hret, Hv. }
  erewrite bind_Ok by exact Hvisit. exact Hdefault.
Qed.


End deserialise_plain.

Lemma array_index_nodes len : array_index "nodes" len = None.
Proof.
  unfold array_index.
  assert (filter (λ i, pretty i = "nodes") (seq 0 len) = []) as ->; [|done].
  induction len as [|len IH]; [done|].
  rewrite seq_S, filter_app, IH. cbn [plus filter list_filter app].
  case_decide as Heq; [|done].
  destruct (pretty_nat_digits len) as [Hd _]. by rewrite Heq in Hd.
Qed.

Section resolve_plain.
Variable blocks : list BlockHandler.
Variable graphQlArgs : json.

Lemma resolve_walk_plain fuel : ∀ n,
  json_height n ≤ fuel →
  forallb passes_through (json_reached n) = true →
  walkSlateNode json_is_block fuel (resolve_visitors blocks graphQlArgs) n tt
  = (Ok n, tt).
Proof.
  induction fuel as [|fuel IH]; intros n Hfuel Hall.
  { pose proof (json_height_pos n). lia. }
  destruct n as [| |b|z|s|l|o]; try done.
  - rewrite walk_resolve_other by done. unfold resolve_defaultVisitor.
    cbn [read get_prop lift]. unfold_M.
    change (String.eqb "nodes" "length") with false. cbn iota.
    by rewrite array_index_nodes.
  - rewrite walk_resolve_other by done. unfold resolve_defaultVisitor.
    cbn [read get_prop lift]. unfold_M.
    change (String.eqb "nodes" "length") with false. cbn iota.
    by rewrite array_index_nodes.
  - rewrite json_reached_object in Hall. cbn [forallb] in Hall.
    apply andb_prop in Hall as [Hn Hall]. cbn [passes_through] in Hn.
    destruct (strict_equal (obj_get "object" o) (VStr "block")) eqn:Hblock.
    + assert (obj_get "object" o = VStr "block") as Hb.
      { destruct (obj_get "object" o); try done.
        cbn [strict_equal] in Hblock. by apply String.eqb_eq in Hblock as ->. }
      rewrite walk_resolve_block, resolve_visitBlock_eq by done.
      cbv zeta. by rewrite Hn.
    + rewrite walk_resolve_other by done. unfold resolve_defaultVisitor.
      cbn [read get_prop lift]. unfold_M.
      destruct (obj_get "nodes" o) as [| |b|z|s|children|o'] eqn:Hnodes;
        try done; try (by rewrite (negb_true_iff _) in Hn; rewrite Hn).
      cbn [truthy].
      rewrite (array_map_pure _ id); cycle 1.
      { intros c Hc. change (id c) with c. apply IH.
        - apply obj_get_defined in Hnodes; [|done].
          pose proof (json_height_prop o "nodes" _ Hnodes).
          pose proof (json_height_elem children c Hc). lia.
        - rewrite forallb_forall in Hall |- *. intros m Hm. apply Hall.
          apply in_flat_map. exists c. by rewrite <-list_elem_of_In. }
      rewrite list_fmap_id. cbn [assign]. unfold obj_set.
      rewrite alist_set_get_id; [done|]. by apply obj_get_defined.
Qed.

(** X6. A document in which the walk meets no [data._mutationPaths] comes
    back from [processSerialised] as it went in, whatever the handlers
    and their results are. *)
Theorem resolve_plain_document doc :
  forallb passes_through (json_reached doc) = true →
  processSerialised blocks graphQlArgs doc = Ok [("document", doc)].
Proof.
  intros Hall. unfold processSerialised. by rewrite resolve_walk_plain.
Qed.
End resolve_plain.

Lemma array_map_Forall2 {A B} (f : A → M unit B) l : ∀ rs,
  array_map f l tt = (Ok rs, tt) → Forall2 (λ x r, f x tt = (Ok r, tt)) l rs.
Proof.
  induction l as [|x l IH]; intros rs; cbn [array_map].
  - unfold_M. intros [= <-]. constructor.
  - intros (r & [] & Hx & (rs' & [] & Hl & Hret)%bind_inv_Ok)%bind_inv_Ok.
    unfold_M. simplify_eq. constructor; auto.
Qed.

Section resolve_twice.
Variable blocks : list BlockHandler.
Variable graphQlArgs : json.

(** What the walk returns holds no mutation path where a walk would
    look for one. *)
Lemma resolve_walk_resolved fuel : ∀ n r,
  walkSlateNode json_is_block fuel (resolve_visitors blocks graphQlArgs) n tt
  = (Ok r, tt) →
  Forall distinct_keys (json_reached n) →
  forallb passes_through (json_reached r) = true.
Proof.
  induction fuel as [|fuel IH]; intros n r; [done|].
  destruct n as [| |b|z|s|l|o].
  - rewrite walk_resolve_other by done. by intros [= <-].
  - rewrite walk_resolve_other by done. by intros [= <-].
  - rewrite walk_resolve_other by done. by intros [= <-].
  - rewrite walk_resolve_other by done. by intros [= <-].
  - rewrite walk_resolve_other by done. unfold resolve_defaultVisitor.
    cbn [read get_prop lift]. unfold_M.
    change (String.eqb "nodes" "length") with false. cbn iota.
    rewrite array_index_nodes. by intros [= <-].
  - rewrite walk_resolve_other by done. unfold resolve_defaultVisitor.
    cbn [read get_prop lift]. unfold_M.
    change (String.eqb "nodes" "length") with false. cbn iota.
    rewrite array_index_nodes. by intros [= <-].
  - rewrite (json_reached_object o).
    destruct (strict_equal (obj_get "object" o) (VStr "block")) eqn:Hblock.
    + assert (obj_get "object" o = VStr "block") as Hb.
      { destruct (obj_get "object" o); try done.
        cbn [strict_equal] in Hblock. by apply String.eqb_eq in Hblock as ->. }
      rewrite walk_resolve_block, resolve_visitBlock_eq by done. cbv zeta.
      destruct (negb _ || negb _) eqn:Hskip.
      { intros [= <-] _. rewrite json_reached_object, Hblock.
        cbn [forallb passes_through]. by rewrite Hblock, Hskip. }
      destruct (find _ blocks) as [h|]; [|done].
      destruct (get_prop (obj_get "data" o) "_mutationPaths") as [| | | | |paths|];
        try done.
      destruct (array_map _ _ _) as [[ids| | |] []]; try done.
      intros [= <-] [Hnd _]%Forall_cons. cbn [distinct_keys] in Hnd.
      rewrite spread_empty_id by done. rewrite json_reached_object.
      rewrite obj_get_set, decide_False, Hblock by done.
      cbn [forallb passes_through].
      rewrite (obj_get_set "data" "object"), decide_False, Hblock by done.
      by rewrite obj_get_set, decide_True.
    + rewrite walk_resolve_other by done. unfold resolve_defaultVisitor.
      cbn [read get_prop lift].
      intros (nodes & [] & [= <-] & Hrun)%bind_inv_Ok.
      destruct (obj_get "nodes" o) as [| |bb|z|s|children|o'] eqn:Hnodes;
        try (destruct (truthy _) eqn:Ht in Hrun; [done|];
             unfold_M; injection Hrun as <-; intros _;
             rewrite json_reached_object, Hblock, Hnodes;
             cbn [forallb passes_through]; by rewrite Hblock, Hnodes, Ht).
      cbn [truthy] in Hrun.
      apply bind_inv_Ok in Hrun as (visited & [] & Hcs & Hret).
      unfold lift in Hret. cbn [assign] in Hret. injection Hret as <-.
      intros [_ Hall]%Forall_cons.
      rewrite json_reached_object.
      rewrite obj_get_set, decide_False, Hblock by done.
      rewrite obj_get_set, decide_True by done.
      cbn [forallb passes_through].
      rewrite (obj_get_set "nodes" "object"), decide_False, Hblock by done.
      rewrite obj_get_set, decide_True by done. cbn [andb].
      apply array_map_Forall2 in Hcs. clear Hnodes.
      induction Hcs as [|c v children visited Hc _ IHcs]; [done|].
      cbn [flat_map] in Hall |- *. apply Forall_app in Hall as [Hc' Hall].
      rewrite forallb_app, (IH _ _ Hc Hc'). by apply IHcs.
Qed.

(** X17. Resolving is done once: the document [processSerialised] returns,
    resolved again with any handlers and any results, comes back as it
    is. *)
Theorem resolve_idempotent blocks' graphQlArgs' doc result :
  Forall distinct_keys (json_reached doc) →
  processSerialised blocks graphQlArgs doc = Ok result →
  processSerialised blocks' graphQlArgs' (obj_get "document" result) = Ok result.
Proof.
  intros Hkeys. unfold processSerialised at 1.
  destruct (walkSlateNode _ _ _ _ _) as [[resolved| | |] []] eqn:Hrun; try done.
  intros [= <-]. change (obj_get "document" [("document", resolved)]) with resolved.
  unfold processSerialised. rewrite resolve_walk_plain; [done | done |].
  by eapply resolve_walk_resolved.
Qed.
End resolve_twice.

(** ** Where the errors come from *)

Lemma bind_inv_Throw {Σ A B} (m : M Σ A) (f : A → M Σ B) σ e σ' :
  (m ≫= f) σ = (Throw e, σ') →
  m σ = (Throw e, σ') ∨ ∃ a σ1, m σ = (Ok a, σ1) ∧ f a σ1 = (Throw e, σ').
Proof. unfold_M. destruct (m σ) as [[a| | |] σ1]; naive_solver. Qed.

Lemma array_map_inv_Throw {Σ A B} (f : A → M Σ B) l : ∀ σ e σ',
  array_map f l σ = (Throw e, σ') → ∃ x σ0, x ∈ l ∧ f x σ0 = (Throw e, σ').
Proof.
  induction l as [|x l IH]; intros σ e σ'; [done|]. cbn [array_map].
  intros [Hx | (y & σ1 & _ & Hrest)]%bind_inv_Throw.
  { exists x, σ. split; [left | done]. }
  apply bind_inv_Throw in Hrest as [Hrest | (ys & σ2 & _ & Hret)]; [|done].
  destruct (IH _ _ _ Hrest) as (c & σ0 & Hc & Hthrow).
  exists c, σ0. split; [by right | done].
Qed.

Lemma array_map_inv_Throw_first {Σ A B} (f : A → M Σ B) l : ∀ σ e σ',
  array_map f l σ = (Throw e, σ') →
  ∃ l1 x l2 rs σ0,
    l = l1 ++ x :: l2
    ∧ array_map f l1 σ = (Ok rs, σ0)
    ∧ f x σ0 = (Throw e, σ').
Proof.
  induction l as [|x l IH]; intros σ e σ'; [done|]. cbn [array_map].
  intros [Hx | (y & σ1 & Hy & Hrest)]%bind_inv_Throw.
  { by exists [], x, l, [], σ. }
  apply bind_inv_Throw in Hrest as [Hrest | (ys & σ2 & _ & Hret)]; [|done].
  destruct (IH _ _ _ Hrest) as (l1 & c & l2 & rs & σ0 & -> & Hl1 & Hc).
  exists (x :: l1), c, l2, (y :: rs), σ0. split_and!; [done| |done].
  cbn [array_map]. erewrite bind_Ok by exact Hy. by erewrite bind_Ok by exact Hl1.
Qed.

Lemma throws_in_get_store {Σ} (E : exn → Prop) : throws_in (Σ := Σ) E get_store.
Proof. by intros σ e. Qed.

Lemma throws_in_put_store {Σ} (E : exn → Prop) (σ0 : Σ) : throws_in E (put_store σ0).
Proof. by intros σ e. Qed.

Section serialise_errors.
Variable value : Value.
Variable blocks : gmap string BlockHandler.

Lemma gather_action_throws p paths entry :
  throws_in (λ e, e = TypeError) (gather_action p paths entry).
Proof.
  unfold gather_action. destruct entry as [action mutationData].
  apply throws_in_bind; [apply throws_in_get_store|]. intros allMutations.
  apply throws_in_bind; [apply throws_in_lift, assign_throws|]. intros batch'.
  apply throws_in_bind; [apply throws_in_put_store|]. intros _.
  apply throws_in_for_each. intros paths' mutation. unfold gather_mutation.
  apply throws_in_bind; [apply throws_in_get_store|]. intros allMutations'.
  apply throws_in_bind; [apply throws_in_lift, push_throws|]. intros [entries n].
  apply throws_in_bind; [apply throws_in_lift, assign_throws|]. intros batch''.
  apply throws_in_bind; [apply throws_in_put_store|]. intros _.
  apply throws_in_bind; [apply throws_in_lift, push_throws|]. intros [paths'' ?].
  apply throws_in_ret.
Qed.

(** The visitor throws an error of the configuration class on a block
    only when one of its two checks fails on that block. *)
Lemma serialise_visitBlock_throws n σ e σ' :
  String.eqb (Node_object n) "block" = true →
  serialise_visitBlock value blocks n σ = (Throw e, σ') →
  class_of e = ConfigurationError →
  ∃ b, handler_of blocks n = Some b
       ∧ has_mutations (mutations (serialize b value n)) = true
       ∧ (e = MustReturnNode ∧ truthy (node (serialize b value n)) = false
          ∨ e = NoMutationPath (type b)
            ∧ truthy (node (serialize b value n)) = true
            ∧ path_set b = None).
Proof.
  intros Hblock. unfold serialise_visitBlock, handler_of. rewrite Hblock.
  destruct (blocks !! _) as [b|]; [|done].
  destruct (serialize b value n) as [ms sn] eqn:Hser. cbn [mutations node].
  destruct (has_mutations ms) eqn:Hms; [|by destruct (truthy sn)].
  destruct (truthy sn) eqn:Hsn; cbn [negb]; cycle 1.
  { intros [= <- _] _. exists b. rewrite Hser. cbn [mutations node]. auto. }
  destruct (path_set b) as [blockPath|] eqn:Hpath.
  2:{ intros [= <- _] _. exists b. rewrite Hser. cbn [mutations node]. auto 10. }
  intros Hrun Hclass. exfalso.
  assert (e = TypeError) as ->; [|done].
  match type of Hrun with
  | ?m σ = _ => assert (throws_in (λ e, e = TypeError) m) as Hthrows
  end.
  { apply throws_in_bind; [apply throws_in_get_store|]. intros allMutations.
    apply throws_in_bind; [apply throws_in_put_store|]. intros _.
    apply throws_in_bind; [apply throws_in_lift, assign_throws|]. intros _.
    apply throws_in_bind; [apply throws_in_lift, assign_throws|]. intros _.
    apply throws_in_bind.
    { apply throws_in_for_each. intros. apply gather_action_throws. }
    intros paths.
    apply throws_in_bind; [apply throws_in_lift, assign_throws|]. intros data.
    apply throws_in_bind; [apply throws_in_lift, assign_throws|]. intros node'.
    apply throws_in_ret. }
  apply (Hthrows σ). by rewrite Hrun.
Qed.

Lemma serialise_walk_throws_first fuel : ∀ n σ e σ',
  walkSlateNode Node_is_block fuel (serialise_visitors value blocks) n σ
  = (Throw e, σ') →
  class_of e = ConfigurationError →
  ∃ before m after b,
    reached value blocks n = before ++ m :: after
    ∧ Forall (passes_checks value blocks) before
    ∧ handler_of blocks m = Some b
    ∧ has_mutations (mutations (serialize b value m)) = true
    ∧ (e = MustReturnNode ∧ truthy (node (serialize b value m)) = false
       ∨ e = NoMutationPath (type b)
         ∧ truthy (node (serialize b value m)) = true
         ∧ path_set b = None).
Proof.
  induction fuel as [|fuel IH]; intros n σ e σ'; [done|].
  rewrite walk_unfold. erewrite bind_Ok by done. intros Hrun Hclass.
  assert (∀ σ0,
            claimed value blocks n = false →
            passes_checks value blocks n →
            serialise_defaultVisitor n
              (walkSlateNode Node_is_block fuel (serialise_visitors value blocks)) σ0
            = (Throw e, σ') →
            ∃ before m after b,
              reached value blocks n = before ++ m :: after
              ∧ Forall (passes_checks value blocks) before
              ∧ handler_of blocks m = Some b
              ∧ has_mutations (mutations (serialize b value m)) = true
              ∧ (e = MustReturnNode ∧ truthy (node (serialize b value m)) = false
                 ∨ e = NoMutationPath (type b)
                   ∧ truthy (node (serialize b value m)) = true
                   ∧ path_set b = None)) as Hdefault.
  { intros σ0 Hclaimed Hn. rewrite reached_unclaimed by done.
    unfold serialise_defaultVisitor.
    destruct (Node_nodes n) as [children|]; [|done]. cbn [default].
    intros [Hcs | (? & ? & _ & ?)]%bind_inv_Throw; [|done].
    apply array_map_inv_Throw_first in Hcs
      as (l1 & c & l2 & rs & σ1 & -> & Hl1 & Hthrow).
    destruct (IH _ _ _ _ Hthrow Hclass)
      as (before & m & after & b & Hc & Hbefore & Hb & Hms & Hcheck).
    exists (n :: flat_map (reached value blocks) l1 ++ before), m,
           (after ++ flat_map (reached value blocks) l2), b.
    split_and!; [|constructor; [done|apply Forall_app; split; [|done]]|done..].
    - unfold id. rewrite flat_map_app. cbn [flat_map]. rewrite Hc.
      cbn [app]. f_equal. rewrite <-!app_assoc. by cbn [app].
    - eapply (serialise_children_checked value blocks _ l1); [|done].
      intros. by eapply serialise_walk_checked. }
  destruct (String.eqb (Node_object n) "block") eqn:Hblock.
  - apply bind_inv_Throw in Hrun as [Hvisit | (r & σ1 & Hvisit & Hrest)].
    + destruct (serialise_visitBlock_throws _ _ _ _ Hblock Hvisit Hclass)
        as (b & Hrest).
      exists [], n, (match reached value blocks n with [] => [] | _ :: l => l end), b.
      split; [by destruct n | split; [constructor | done]].
    + destruct (serialise_visitBlock_checked value blocks n σ r σ1 Hblock Hvisit)
        as [Hclaimed Hn].
      destruct r as [replacement|]; [done|].
      eapply Hdefault; [|done..].
      destruct (claimed value blocks n); [|done]. by destruct Hclaimed as [_ [? ?]].
  - eapply Hdefault; [| |done].
    + unfold claimed, handler_of. by rewrite Hblock.
    + unfold passes_checks, handler_of. by rewrite Hblock.
Qed.
(** X4. An error of the configuration class that [serialiseSlateValue]
    throws comes from the first block, in the order the walk reaches the
    nodes, on which one of the two checks fails: the check named by the
    error failed on that block, and the nodes reached before it passed
    both. *)
Theorem serialise_configuration_errors e :
  serialiseSlateValue value blocks = Throw e →
  class_of e = ConfigurationError →
  ∃ before n after b,
    reached value blocks (document value) = before ++ n :: after
    ∧ Forall (passes_checks value blocks) before
    ∧ handler_of blocks n = Some b
    ∧ has_mutations (mutations (serialize b value n)) = true
    ∧ (e = MustReturnNode ∧ truthy (node (serialize b value n)) = false
       ∨ e = NoMutationPath (type b)
         ∧ truthy (node (serialize b value n)) = true
         ∧ path_set b = None).
Proof.
  unfold serialiseSlateValue.
  destruct (walkSlateNode _ _ _ _ _) as [[serializedDocument|e'| |] allMutations]
    eqn:Hrun; try done.
  intros [= ->]. by eapply serialise_walk_throws_first.
Qed.
End serialise_errors.

Section reserved_action.
Variable value : Value.
Variable blocks : gmap string BlockHandler.

End reserved_action.

Section resolve_errors.
Variable blocks : list BlockHandler.
Variable graphQlArgs : json.

Abbreviation results := (VObj (resolvedMutations blocks graphQlArgs)).
Abbreviation walk_resolve fuel :=
  (walkSlateNode json_is_block fuel (resolve_visitors blocks graphQlArgs)).
Abbreviation handler_for type_ :=
  (find (λ b, strict_equal (VStr (type b)) type_) blocks).

Lemma resolve_paths_inv_Throw paths : ∀ e,
  array_map (resolve_path blocks graphQlArgs) paths tt = (Throw e, tt) →
  ∃ p, p ∈ paths ∧ e = UnknownMutation p ∧ truthy (getByPath results p) = false.
Proof.
  intros e (p & [] & Hp & Hthrow)%array_map_inv_Throw. exists p. split; [done|].
  unfold resolve_path in Hthrow.
  destruct (truthy (getByPath results p)); [done|].
  by injection Hthrow as <-.
Qed.

Lemma resolve_visitBlock_throws o e :
  resolve_visitBlock blocks graphQlArgs (VObj o) tt = (Throw e, tt) →
  class_of e = ConfigurationError →
  truthy (obj_get "data" o) = true
  ∧ truthy (get_prop (obj_get "data" o) "_mutationPaths") = true
  ∧ (e = NoBlockForMutation (obj_get "type" o)
       ∧ handler_for (obj_get "type" o) = None
     ∨ ∃ paths p,
         get_prop (obj_get "data" o) "_mutationPaths" = VArr paths
         ∧ p ∈ paths
         ∧ e = UnknownMutation p
         ∧ truthy (getByPath results p) = false).
Proof.
  rewrite resolve_visitBlock_eq. cbv zeta.
  destruct (truthy (obj_get "data" o)); [|done].
  destruct (truthy (get_prop (obj_get "data" o) "_mutationPaths")); [|done].
  cbn [negb orb].
  destruct (handler_for _) as [h|]; [|intros [= <-] _; auto].
  destruct (get_prop (obj_get "data" o) "_mutationPaths") as [| | | | |paths|];
    try by intros [= <-].
  destruct (array_map _ _ _) as [[ids|e'| |] []] eqn:Hids; try done.
  intros [= ->] _. apply resolve_paths_inv_Throw in Hids as (p & Hp & -> & Hfalsy).
  split_and!; [done..|]. right. by exists paths, p.
Qed.

Lemma resolve_walk_throws_first fuel : ∀ n e,
  walk_resolve fuel n tt = (Throw e, tt) →
  class_of e = ConfigurationError →
  ∃ before o after,
    json_reached n = before ++ VObj o :: after
    ∧ Forall (resolves blocks graphQlArgs) before
    ∧ obj_get "object" o = VStr "block"
    ∧ truthy (obj_get "data" o) = true
    ∧ truthy (get_prop (obj_get "data" o) "_mutationPaths") = true
    ∧ (e = NoBlockForMutation (obj_get "type" o)
         ∧ handler_for (obj_get "type" o) = None
       ∨ ∃ paths p,
           get_prop (obj_get "data" o) "_mutationPaths" = VArr paths
           ∧ p ∈ paths
           ∧ e = UnknownMutation p
           ∧ truthy (getByPath results p) = false).
Proof.
  induction fuel as [|fuel IH]; intros n e; [done|].
  destruct n as [| |b|z|s|l|o].
  - rewrite walk_resolve_other by done. by intros [= <-].
  - rewrite walk_resolve_other by done. by intros [= <-].
  - by rewrite walk_resolve_other.
  - by rewrite walk_resolve_other.
  - rewrite walk_resolve_other by done. unfold resolve_defaultVisitor.
    cbn [read get_prop lift]. unfold_M.
    change (String.eqb "nodes" "length") with false. cbn iota.
    by rewrite array_index_nodes.
  - rewrite walk_resolve_other by done. unfold resolve_defaultVisitor.
    cbn [read get_prop lift]. unfold_M.
    change (String.eqb "nodes" "length") with false. cbn iota.
    by rewrite array_index_nodes.
  - rewrite json_reached_object.
    destruct (strict_equal (obj_get "object" o) (VStr "block")) eqn:Hblock.
    + assert (obj_get "object" o = VStr "block") as Hb.
      { destruct (obj_get "object" o); try done.
        cbn [strict_equal] in Hblock. by apply String.eqb_eq in Hblock as ->. }
      rewrite walk_resolve_block by done.
      destruct (resolve_visitBlock _ _ _ _) as [[[replacement|]|e'| |] []] eqn:Hvisit;
        try done.
      { by apply resolve_visitBlock_checked in Hvisit as [[? ?] _]. }
      intros [= ->] Hclass.
      destruct (resolve_visitBlock_throws o e Hvisit Hclass) as (? & ? & ?).
      exists [], o, []. split_and!; [done | constructor | done..].
    + rewrite walk_resolve_other by done. unfold resolve_defaultVisitor.
      cbn [read get_prop lift]. intros Hrun Hclass.
      apply bind_inv_Throw in Hrun as [Hrun | (nodes & [] & [= <-] & Hrun)];
        [done|].
      destruct (obj_get "nodes" o) as [| |bb|z|s|children|o'] eqn:Hnodes;
        try done;
        try match type of Hrun with
            | context [truthy ?v] =>
                destruct (truthy v) eqn:Ht; [|done]; by injection Hrun as <-
            end.
      cbn [truthy] in Hrun.
      apply bind_inv_Throw in Hrun as [Hcs | (visited & [] & _ & ?)]; [|done].
      apply array_map_inv_Throw_first in Hcs
        as (l1 & c & l2 & rs & [] & -> & Hl1 & Hthrow).
      destruct (IH _ _ Hthrow Hclass)
        as (before & o1 & after & Hc & Hbefore & Hkind & Hdata & Hpaths & Hrest).
      exists (VObj o :: flat_map json_reached l1 ++ before), o1,
             (after ++ flat_map json_reached l2).
      split_and!; [|constructor; [|apply Forall_app; split; [|done]]|done..].
      * rewrite flat_map_app. cbn [flat_map]. rewrite Hc.
        cbn [app]. f_equal. rewrite <-!app_assoc. by cbn [app].
      * intros o' [= <-] Hobj. rewrite Hobj in Hblock. by cbn in Hblock.
      * eapply (resolve_children_checked blocks graphQlArgs _ l1); [|done].
        intros. by eapply resolve_walk_checked.
Qed.
End resolve_errors.

Lemma bind_inv_Throw' {A B} (m : M unit A) (f : A → M unit B) e :
  ((m ≫= f) tt).1 = Throw e →
  m tt = (Throw e, tt) ∨ ∃ a σ1, m tt = (Ok a, σ1) ∧ (f a σ1).1 = Throw e.
Proof. unfold_M. destruct (m tt) as [[a| | |] []]; naive_solver. Qed.

Section deserialise_contract.
Variable Value_fromJSON : obj → outcome Value.

Lemma deserialise_walk_contract serializations blocks fuel : ∀ n e,
  walkSlateNode Node_is_block fuel (deserialise_visitors serializations blocks) n tt
  = (Throw e, tt) →
  class_of e = ContractViolationError →
  ∃ m b joins v,
    m ∈ subnodes n
    ∧ handler_of blocks m = Some b
    ∧ joins_of serializations b m tt = (Ok joins, tt)
    ∧ deserialize b m joins = ReturnsData v
    ∧ truthy v = true.
Proof.
  induction fuel as [|fuel IH]; intros n e; [done|].
  rewrite walk_unfold. erewrite bind_Ok by done. intros Hrun Hclass.
  assert (deserialise_defaultVisitor n
            (walkSlateNode Node_is_block fuel
               (deserialise_visitors serializations blocks)) tt
          = (Throw e, tt) →
          ∃ m b joins v,
            m ∈ subnodes n
            ∧ handler_of blocks m = Some b
            ∧ joins_of serializations b m tt = (Ok joins, tt)
            ∧ deserialize b m joins = ReturnsData v
            ∧ truthy v = true) as Hdefault.
  { unfold deserialise_defaultVisitor.
    destruct (Node_nodes n) as [children|] eqn:Hnodes; [|done].
    intros [Hcs | (? & ? & _ & ?)]%bind_inv_Throw; [|done].
    apply array_map_inv_Throw in Hcs as (c & [] & Hc & Hthrow).
    destruct (IH _ _ Hthrow Hclass) as (m & b & joins & v & Hm & Hrest).
    exists m, b, joins, v. split; [|done].
    rewrite subnodes_unfold, Hnodes. right. apply elem_of_flat_map. eauto. }
  destruct (String.eqb (Node_object n) "block") eqn:Hblock; [|by apply Hdefault].
  apply bind_inv_Throw in Hrun as [Hvisit | (r & [] & Hvisit & Hrest)].
  - cbn [visitBlock deserialise_visitors] in Hvisit.
    unfold deserialise_visitBlock in Hvisit.
    destruct (blocks !! to_string (Node_type n)) as [b|] eqn:Hb; [|done].
    apply bind_inv_Throw in Hvisit as [Hjoins | (joins & [] & Hjoins & Hret)].
    { pose proof (joins_of_throws serializations b n tt e) as Hthrows.
      rewrite Hjoins in Hthrows. by rewrite Hthrows in Hclass. }
    destruct (deserialize b n joins) as [newNode|v] eqn:Hdes; [done|].
    destruct (truthy v) eqn:Hv; [|done].
    exists n, b, joins, v. split_and!; try done.
    + rewrite subnodes_unfold. left.
    + unfold handler_of. by rewrite Hblock.
  - destruct r as [replacement|]; [done|]. by apply Hdefault.
Qed.

(** X12. A handler whose [deserialize] returns a truthy value that is no
    Slate node makes the walk throw the contract error; and a contract
    error that [deserialiseToSlateValue] throws, Slate having parsed the
    document, comes from such a handler on a node of the document. *)
Theorem deserialise_contract_errors input blocks :
  let serializations := without_key "document" input in
  (∀ fuel t d children b joins v,
     blocks !! t = Some b →
     joins_of serializations b (Block t d children) tt = (Ok joins, tt) →
     deserialize b (Block t d children) joins = ReturnsData v →
     truthy v = true →
     walkSlateNode Node_is_block (S fuel) (deserialise_visitors serializations blocks)
       (Block t d children) tt
     = (Throw MustReturnSlateNode, tt)
     ∧ class_of MustReturnSlateNode = ContractViolationError)
  ∧ (∀ value e,
       Value_fromJSON [("document", obj_get "document" input)] = Ok value →
       (deserialiseToSlateValue Value_fromJSON input (Some blocks) tt).1 = Throw e →
       class_of e = ContractViolationError →
       ∃ n b joins v,
         n ∈ subnodes (document value)
         ∧ handler_of blocks n = Some b
         ∧ joins_of serializations b n tt = (Ok joins, tt)
         ∧ deserialize b n joins = ReturnsData v
         ∧ truthy v = true).
Proof.
  intros serializations. split.
  - intros fuel t d children b joins v Hb Hjoins Hret Hv. split; [|done].
    rewrite (walk_deserialise_block serializations blocks _ _ _ _ b joins) by done.
    by rewrite Hret, Hv.
  - intros value e Hparse. unfold deserialiseToSlateValue, assert.
    destruct (truthy (obj_get "document" input)); [|by intros [= <-]].
    erewrite bind_Ok by done. erewrite bind_Ok by (unfold lift; by rewrite Hparse).
    intros [Hwalk | (walked & [] & _ & ?)]%bind_inv_Throw'; [|done].
    intros Hclass. by eapply deserialise_walk_contract.
Qed.
End deserialise_contract.

Section deserialise_edges.
Variable serializations : obj.
Variable blocks : gmap string BlockHandler.

(** What the deserializer reads the fetched records of a handler from:
    [serializations[block.path]]. *)
Abbreviation fetched_for b :=
  (obj_get (to_string (from_option VStr VUndefined (path b))) serializations).

(** X11. A block with a registered handler asks for its fetched records only
    when it has join ids.  With at least one join id and no list of
    records under the handler's path, the walk throws a [TypeError]; with
    an empty list of join ids the joins are empty whatever is under the
    path.  *)
Theorem deserialise_missing_records fuel t d children b :
  blocks !! t = Some b →
  (∀ records, fetched_for b ≠ VArr records) →
  (∀ joinId joinIds,
     obj_get "_joinIds" d = VArr (joinId :: joinIds) →
     walkSlateNode Node_is_block (S fuel) (deserialise_visitors serializations blocks)
       (Block t d children) tt
     = (Throw TypeError, tt)
     ∧ class_of TypeError = RuntimeError)
  ∧ (obj_get "_joinIds" d = VArr [] →
     joins_of serializations b (Block t d children) tt = (Ok [], tt)).
Proof.
  intros Hb Hdata. split.
  - intros joinId joinIds Hids. split; [|done].
    rewrite walk_unfold. unfold Node_is_block.
    cbn [Node_object String.eqb Ascii.eqb Bool.eqb].
    erewrite bind_Ok by done. cbn [visitBlock deserialise_visitors].
    unfold deserialise_visitBlock. cbn [Node_type to_string]. rewrite Hb.
    erewrite bind_Throw; [done|]. erewrite bind_Throw; [done|].
    unfold joins_of, joinIds_of. cbn [Node_data]. rewrite Hids.
    assert (negb (length d =? 0) = true) as -> by by destruct d.
    cbn [truthy andb array_map]. erewrite bind_Throw; [done|].
    unfold find_join. destruct (fetched_for b) as [| | | | |records|] eqn:Hf; try done.
    by destruct (Hdata records).
  - intros Hids. unfold joins_of, joinIds_of. cbn [Node_data]. rewrite Hids.
    by destruct (negb (length d =? 0)).
Qed.
End deserialise_edges.

(** ** Batches in document order *)

Lemma entries_at_set p batch σ p' a' :
  entries_at (obj_set p (VObj batch) σ) p' a'
  = if decide (p = p')
    then match obj_get a' batch with VArr entries => entries | _ => [] end
    else entries_at σ p' a'.
Proof. unfold entries_at. rewrite obj_get_set. by case_decide. Qed.

Lemma falsy_no_entries v a :
  truthy v = false →
  match get_prop v a with VArr entries => entries | _ => [] end = [].
Proof.
  destruct v as [| |b|z|s|l|o]; try done. intros _. cbn [get_prop].
  destruct (String.eqb a "length"); [done|].
  destruct (array_index a (String.length s)) as [i|]; [|done].
  by destruct (chars s !! i).
Qed.

Section batch_entries.
Variable value : Value.
Variable blocks : gmap string BlockHandler.

Lemma gather_mutation_entries p action paths m σ r σ' :
  gather_mutation p action paths m σ = (Ok r, σ') →
  ∀ p' a', entries_at σ' p' a'
           = entries_at σ p' a'
             ++ (if decide (p = p' ∧ action = a') then [m] else []).
Proof.
  unfold gather_mutation. unfold_M.
  destruct (get_prop (obj_get p σ) action) as [| | | | |entries|] eqn:Hentries;
    try done.
  cbn [push]. destruct (obj_get p σ) as [| | | | | |batch] eqn:Hbatch; try done.
  cbn [assign]. destruct (push paths _) as [[paths' ?]| | |]; try done.
  intros [= _ <-] p' a'. rewrite entries_at_set.
  destruct (decide (p = p')) as [<-|Hp].
  - unfold entries_at. rewrite Hbatch. cbn [get_prop] in *. rewrite obj_get_set.
    destruct (decide (action = a')) as [<-|Ha].
    + rewrite decide_True by done. by rewrite Hentries.
    + rewrite decide_False by naive_solver. by rewrite app_nil_r.
  - rewrite decide_False by naive_solver. by rewrite app_nil_r.
Qed.

Lemma gather_mutations_entries p action ms : ∀ paths σ r σ',
  for_each (gather_mutation p action) paths ms σ = (Ok r, σ') →
  ∀ p' a', entries_at σ' p' a'
           = entries_at σ p' a'
             ++ (if decide (p = p' ∧ action = a') then ms else []).
Proof.
  induction ms as [|m ms IH]; intros paths σ r σ'; cbn [for_each].
  - unfold_M. intros [= _ <-] p' a'. case_decide; by rewrite app_nil_r.
  - intros (paths1 & σ1 & Hm & Hms)%bind_inv_Ok p' a'.
    rewrite (IH _ _ _ _ Hms), (gather_mutation_entries _ _ _ _ _ _ _ Hm).
    rewrite <-app_assoc. by case_decide.
Qed.

Lemma gather_action_entries p paths entry σ r σ' :
  gather_action p paths entry σ = (Ok r, σ') →
  ∀ p' a', entries_at σ' p' a'
           = entries_at σ p' a'
             ++ (if decide (p = p' ∧ entry.1 = a') then as_array entry.2 else []).
Proof.
  unfold gather_action. destruct entry as [action mutationData]. cbn [fst snd].
  intros (allMutations & σ0 & [= <- <-] & Hrun)%bind_inv_Ok.
  apply bind_inv_Ok in Hrun as (batch' & σ1 & Hassign & Hrun).
  apply bind_inv_Ok in Hrun as ([] & σ2 & [= <-] & Hrun).
  unfold lift in Hassign. injection Hassign as Hassign <-.
  intros p' a'. rewrite (gather_mutations_entries _ _ _ _ _ _ _ Hrun). f_equal.
  destruct (obj_get p σ) as [| | | | | |batch] eqn:Hbatch; try done.
  cbn [assign] in Hassign. injection Hassign as <-. rewrite entries_at_set.
  case_decide as Hp; [subst p'|done].
  unfold entries_at. rewrite Hbatch. cbn [get_prop]. rewrite obj_get_set.
  case_decide as Ha; [subst a'|done].
  destruct (truthy (obj_get action batch)) eqn:Hexisting; [done|].
  by destruct (obj_get action batch).
Qed.

Lemma gather_actions_entries p entries : ∀ paths σ r σ',
  for_each (gather_action p) paths entries σ = (Ok r, σ') →
  ∀ p' a', entries_at σ' p' a'
           = entries_at σ p' a'
             ++ (if decide (p = p')
                 then flat_map (λ entry, if String.eqb entry.1 a'
                                         then as_array entry.2 else []) entries
                 else []).
Proof.
  induction entries as [|entry entries IH]; intros paths σ r σ'; cbn [for_each].
  - unfold_M. intros [= _ <-] p' a'. case_decide; by rewrite app_nil_r.
  - intros (paths1 & σ1 & Hentry & Hrest)%bind_inv_Ok p' a'.
    rewrite (IH _ _ _ _ Hrest), (gather_action_entries _ _ _ _ _ _ Hentry).
    rewrite <-app_assoc. f_equal. cbn [flat_map].
    destruct (decide (p = p')) as [<-|Hp].
    + destruct (String.eqb_spec entry.1 a') as [Ha|Ha].
      * by rewrite decide_True.
      * by rewrite decide_False by naive_solver.
    + by rewrite decide_False by naive_solver.
Qed.

(** A visit that returns has appended, to every action of every batch,
    the mutations the handler of the block returned for it. *)
Lemma serialise_visitBlock_entries n σ r σ' :
  String.eqb (Node_object n) "block" = true →
  serialise_visitBlock value blocks n σ = (Ok r, σ') →
  ∀ p a, entries_at σ' p a = entries_at σ p a ++ filed value blocks p a n.
Proof.
  intros Hblock. unfold serialise_visitBlock, filed, emits, handler_of.
  rewrite Hblock. destruct (blocks !! _) as [b|]; cycle 1.
  { unfold_M. intros [= _ <-] p a. by rewrite app_nil_r. }
  destruct (serialize b value n) as [ms sn]. cbn [mutations node].
  destruct (has_mutations ms); cycle 1.
  { unfold_M. intros [= _ <-] p a. by rewrite app_nil_r. }
  destruct (truthy sn) eqn:Hsn; [|done]. cbn [negb andb].
  destruct (path_set b) as [blockPath|]; [|done].
  intros (allMutations & σ0 & [= <- <-] & Hrun)%bind_inv_Ok.
  apply bind_inv_Ok in Hrun as ([] & σ1 & [= <-] & Hrun).
  apply bind_inv_Ok in Hrun as (sn1 & σ2 & [= _ <-] & Hrun).
  apply bind_inv_Ok in Hrun as (data1 & σ3 & [= _ <-] & Hrun).
  apply bind_inv_Ok in Hrun as (paths & σ4 & Hloop & Hrun).
  apply bind_inv_Ok in Hrun as (data2 & σ5 & [= _ <-] & Hrun).
  apply bind_inv_Ok in Hrun as (sn2 & σ6 & [= _ <-] & Hrun).
  unfold_M. injection Hrun as _ <-. intros p a.
  rewrite (gather_actions_entries _ _ _ _ _ _ Hloop).
  assert (entries_at
            (obj_set blockPath
               (if truthy (obj_get blockPath σ) then obj_get blockPath σ
                else VObj [("disconnectAll", VBool true)]) σ) p a
          = entries_at σ p a) as ->.
  { unfold entries_at. rewrite obj_get_set. case_decide as Hp; [subst p|done].
    destruct (truthy (obj_get blockPath σ)) eqn:Hexisting; [done|].
    rewrite (falsy_no_entries _ a Hexisting).
    cbn [get_prop]. unfold obj_get. cbn [alist_get].
    by destruct (String.eqb a "disconnectAll"). }
  f_equal. destruct (decide (blockPath = p)) as [->|Hp].
  - by rewrite bool_decide_eq_true_2.
  - by rewrite bool_decide_eq_false_2 by congruence.
Qed.

Lemma serialise_children_entries (walk : Node → M obj json) p a children :
  (∀ n σ r σ',
     walk n σ = (Ok r, σ') →
     entries_at σ' p a
     = entries_at σ p a ++ flat_map (filed value blocks p a) (reached value blocks n)) →
  ∀ σ rs σ',
    array_map walk children σ = (Ok rs, σ') →
    entries_at σ' p a
    = entries_at σ p a
      ++ flat_map (filed value blocks p a) (flat_map (reached value blocks) children).
Proof.
  intros Hwalk. induction children as [|c children IH]; intros σ rs σ'; cbn [array_map].
  - unfold_M. intros [= _ <-]. by rewrite app_nil_r.
  - intros (r & σ1 & Hc & (rs' & σ2 & Hcs & Hret)%bind_inv_Ok)%bind_inv_Ok.
    unfold_M. simplify_eq. cbn [flat_map].
    by rewrite flat_map_app, app_assoc, <-(Hwalk _ _ _ _ Hc), <-(IH _ _ _ Hcs).
Qed.

(** A walk that returns has appended, to every action of every batch,
    the mutations of the blocks it reached, in the order it reached
    them. *)
Lemma serialise_walk_entries p a fuel : ∀ n σ r σ',
  walkSlateNode Node_is_block fuel (serialise_visitors value blocks) n σ = (Ok r, σ') →
  entries_at σ' p a
  = entries_at σ p a ++ flat_map (filed value blocks p a) (reached value blocks n).
Proof.
  induction fuel as [|fuel IH]; intros n σ r σ'; [done|].
  rewrite walk_unfold. erewrite bind_Ok by done.
  assert (∀ σ0 r0 σ0',
            claimed value blocks n = false →
            serialise_defaultVisitor n
              (walkSlateNode Node_is_block fuel (serialise_visitors value blocks)) σ0
            = (Ok r0, σ0') →
            entries_at σ0' p a
            = entries_at σ0 p a
              ++ flat_map (filed value blocks p a)
                   (flat_map (reached value blocks) (default [] (Node_nodes n))))
    as Hdefault.
  { intros σ0 r0 σ0' Hclaimed. unfold serialise_defaultVisitor.
    destruct (Node_nodes n) as [children|]; cbn [default flat_map].
    - intros (rs & σ1 & Hcs & Hret)%bind_inv_Ok. unfold_M. simplify_eq.
      by eapply serialise_children_entries.
    - unfold_M. intros [= _ <-]. by rewrite app_nil_r. }
  destruct (String.eqb (Node_object n) "block") eqn:Hblock.
  - intros (r0 & σ1 & Hvisit & Hrest)%bind_inv_Ok.
    pose proof (serialise_visitBlock_entries n σ r0 σ1 Hblock Hvisit p a) as Hn.
    destruct (serialise_visitBlock_checked value blocks n σ r0 σ1 Hblock Hvisit)
      as [Hclaimed _].
    destruct r0 as [replacement|].
    + unfold_M. simplify_eq. rewrite reached_claimed by (apply Hclaimed; eauto).
      cbn [flat_map]. by rewrite app_nil_r.
    + assert (claimed value blocks n = false) as Hunclaimed.
      { destruct (claimed value blocks n); [|done]. by destruct Hclaimed as [_ [? ?]]. }
      rewrite reached_unclaimed by done. cbn [flat_map].
      rewrite app_assoc, <-Hn. by eapply Hdefault.
  - intros Hrun.
    assert (claimed value blocks n = false) as Hunclaimed.
    { unfold claimed, handler_of. by rewrite Hblock. }
    rewrite reached_unclaimed by done. cbn [flat_map].
    assert (filed value blocks p a n = []) as ->.
    { unfold filed, handler_of. by rewrite Hblock. }
    by eapply Hdefault.
Qed.

End batch_entries.

(** ** The combined results *)

Lemma spread_keys_NoDup (target : obj) source :
  NoDup target.*1 → NoDup (spread target source).*1.
Proof.
  unfold spread. generalize (own_entries source). intros entries. revert target.
  induction entries as [|[k v] entries IH]; intros target Hnd; [done|].
  cbn [foldl]. apply IH. by apply alist_set_keys_NoDup.
Qed.

Lemma alist_get_spread_entries k (target : obj) source :
  NoDup (own_entries source).*1 →
  alist_get k (spread target source)
  = match alist_get k (own_entries source) with
    | Some v => Some v
    | None => alist_get k target
    end.
Proof. intros Hnd. by rewrite <-alist_get_spread. Qed.

Section resolved_mutations.
Variable graphQlArgs : json.

Abbreviation results_of b := (own_entries (getMutationOperationResults b graphQlArgs)).

Lemma merge_results_lookup k blocks : ∀ acc : obj,
  NoDup acc.*1 →
  Forall (λ b, NoDup (results_of b).*1) blocks →
  NoDup (foldl (λ mutations block,
                  spread (spread [] (VObj mutations))
                         (getMutationOperationResults block graphQlArgs))
               acc blocks).*1
  ∧ alist_get k (foldl (λ mutations block,
                          spread (spread [] (VObj mutations))
                                 (getMutationOperationResults block graphQlArgs))
                       acc blocks)
    = match last (omap (λ b, alist_get k (results_of b)) blocks) with
      | Some v => Some v
      | None => alist_get k acc
      end.
Proof.
  induction blocks as [|b blocks IH]; intros acc Hacc Hall; [done|].
  apply Forall_cons in Hall as [Hb Hall]. cbn [foldl].
  rewrite spread_empty_id by done.
  destruct (IH (spread acc (getMutationOperationResults b graphQlArgs)))
    as [Hnd Hget]; [by apply spread_keys_NoDup | done |].
  split; [done|]. rewrite Hget, alist_get_spread_entries by done.
  cbn [omap list_omap]. destruct (alist_get k (results_of b)) as [v|] eqn:Hk; [|done].
  rewrite last_cons. by destruct (last _).
Qed.

(** X8. The combined results map gives, under a key, what the last handler
    whose results have that key gives under it; a key of no handler's
    results is no key of the map. *)
Theorem resolvedMutations_last_wins blocks k :
  Forall (λ b, NoDup (results_of b).*1) blocks →
  alist_get k (resolvedMutations blocks graphQlArgs)
  = last (omap (λ b, alist_get k (results_of b)) blocks).
Proof.
  intros Hall. unfold resolvedMutations.
  destruct (merge_results_lookup k blocks [] (NoDup_nil_2 (A := string)) Hall) as [_ ->].
  by destruct (last _).
Qed.
End resolved_mutations.

(** ** The Content field type *)

Lemma check_against_Ok t rest :
  check_against t rest = inr tt ↔ t ∉ block_type <$> rest.
Proof.
  induction rest as [|c rest IH]; cbn [check_against fmap list_fmap].
  - split; [intros _; apply not_elem_of_nil | done].
  - rewrite not_elem_of_cons. destruct (String.eqb_spec t (block_type c)) as [->|Hne].
    + split; [done | by intros [? _]].
    + rewrite IH. naive_solver.
Qed.

Lemma check_against_error t rest e :
  check_against t rest = inl e → e = DuplicateBlockType t ∧ t ∈ block_type <$> rest.
Proof.
  induction rest as [|c rest IH]; cbn [check_against fmap list_fmap]; [done|].
  destruct (String.eqb_spec t (block_type c)) as [->|Hne].
  - intros [= <-]. split; [done | left].
  - intros [-> Hin]%IH. split; [done | by right].
Qed.

Lemma check_against_unit t rest u : check_against t rest = inr u → t ∉ block_type <$> rest.
Proof. destruct u. apply check_against_Ok. Qed.

Lemma check_duplicates_Ok blockInstances :
  check_duplicates blockInstances = inr tt ↔ NoDup (block_type <$> blockInstances).
Proof.
  induction blockInstances as [|c rest IH]; cbn [check_duplicates fmap list_fmap].
  { split; [constructor | done]. }
  rewrite NoDup_cons.
  destruct (check_against (block_type c) rest) as [e0|[]] eqn:Hc.
  - apply check_against_error in Hc as [-> Hin]. split; [done | by intros [? _]].
  - apply check_against_Ok in Hc. rewrite IH. naive_solver.
Qed.

Lemma check_duplicates_error blockInstances e :
  check_duplicates blockInstances = inl e →
  ∃ before current after,
    blockInstances = before ++ current :: after
    ∧ e = DuplicateBlockType (block_type current)
    ∧ block_type current ∈ block_type <$> after
    ∧ NoDup (block_type <$> before)
    ∧ ∀ b, b ∈ before → block_type b ∉ block_type <$> (current :: after).
Proof.
  induction blockInstances as [|c rest IH]; cbn [check_duplicates]; [done|].
  destruct (check_against (block_type c) rest) as [e0|[]] eqn:Hc.
  - apply check_against_error in Hc as [-> Hin].
    intros [= <-]. exists [], c, rest. split_and!; try done.
    + constructor.
    + by intros b ?%elem_of_nil.
  - apply check_against_Ok in Hc.
    intros (before & current & after & -> & -> & Hin & Hnd & Hbefore)%IH.
    exists (c :: before), current, after. split_and!; try done.
    + cbn [fmap list_fmap]. apply NoDup_cons. split; [|done].
      intros Hc'. apply Hc. rewrite fmap_app. apply elem_of_app. by left.
    + intros b [->|Hb]%elem_of_cons; [|by apply Hbefore].
      intros Hin'. apply Hc. rewrite fmap_app. apply elem_of_app. by right.
Qed.

(** X13. The duplicate check passes exactly when the types of the instances
    are pairwise distinct; when it fails, the type it names is that of
    the first instance, in order, whose type comes again later. *)
Theorem check_duplicates_spec blockInstances :
  (check_duplicates blockInstances = inr tt ↔ NoDup (block_type <$> blockInstances))
  ∧ (∀ e, check_duplicates blockInstances = inl e →
          ∃ before current after,
            blockInstances = before ++ current :: after
            ∧ e = DuplicateBlockType (block_type current)
            ∧ block_type current ∈ block_type <$> after
            ∧ NoDup (block_type <$> before)
            ∧ ∀ b, b ∈ before → block_type b ∉ block_type <$> (current :: after)).
Proof. split; [apply check_duplicates_Ok | apply check_duplicates_error]. Qed.

Section Content_facts.
Context {Ctx : Type}.
Variable paragraph : BlockClass (Ctx := Ctx).
Variable ctx : Ctx.

Lemma Content_instances inputBlocks :
  (λ '(block, blockConfig), block blockConfig ctx) <$> normalise_blocks paragraph inputBlocks
  = (instantiate ctx <$> default [] inputBlocks) ++ [paragraph (VObj []) ctx].
Proof.
  unfold normalise_blocks. rewrite fmap_app, <-list_fmap_compose. f_equal.
  apply list_fmap_ext. by intros _ [] _.
Qed.

(** X14. The constructor instantiates the blocks of the option in order, a
    bare class with the config [{}], and the default paragraph block last.
    It returns them when their types and that of the paragraph block are
    pairwise distinct, and otherwise throws, naming a type one of the
    blocks of the option has. *)
Theorem Content_blocks_spec inputBlocks :
  let custom := instantiate ctx <$> default [] inputBlocks in
  let default_block := paragraph (VObj []) ctx in
  (NoDup (block_type <$> custom) →
   block_type default_block ∉ block_type <$> custom →
   Content_blocks paragraph inputBlocks ctx = inr (custom ++ [default_block]))
  ∧ (¬ NoDup (block_type <$> custom)
     ∨ block_type default_block ∈ block_type <$> custom →
     ∃ t, Content_blocks paragraph inputBlocks ctx = inl (DuplicateBlockType t)
          ∧ t ∈ block_type <$> custom).
Proof.
  intros custom default_block. unfold Content_blocks. rewrite Content_instances.
  fold custom default_block.
  assert (NoDup (block_type <$> custom ++ [default_block])
          ↔ NoDup (block_type <$> custom)
            ∧ block_type default_block ∉ block_type <$> custom) as Hnd.
  { rewrite fmap_app, NoDup_app. cbn [fmap list_fmap].
    split.
    - intros (? & Hdisjoint & _). split; [done|]. intros Hin.
      apply (Hdisjoint _ Hin). left.
    - intros [? Hfresh]. split_and!; [done | | apply NoDup_singleton].
      by intros t Ht ->%list_elem_of_singleton. }
  split.
  - intros Hcustom Hfresh.
    destruct (check_duplicates _) as [e|[]] eqn:Hcheck; [|done].
    assert (check_duplicates (custom ++ [default_block]) = inr tt) as Hok.
    { apply check_duplicates_Ok, Hnd. done. }
    congruence.
  - intros Hbad.
    destruct (check_duplicates _) as [e|[]] eqn:Hcheck.
    + apply check_duplicates_error in Hcheck
        as (before & current & after & Hsplit & -> & Hin & _).
      eexists. split; [done|].
      destruct after as [|a after _] using rev_ind; [by apply elem_of_nil in Hin|].
      rewrite app_comm_cons, app_assoc in Hsplit.
      apply app_inj_tail in Hsplit as [-> _].
      rewrite fmap_app. apply elem_of_app. right. left.
    + apply check_duplicates_Ok, Hnd in Hcheck as [Hcustom Hfresh].
      by destruct Hbad.
Qed.
End Content_facts.

Lemma blockOptions_lookup blocks : ∀ acc : obj,
  NoDup acc.*1 →
  NoDup (block_type <$> blocks) →
  let options :=
    foldl (λ options block,
             obj_set (block_type block.1) block.2 (spread [] (VObj options)))
          acc
          (filter (λ block, has_view_options block.2 = true)
                  ((λ block, (block, getViewOptions block)) <$> blocks)) in
  NoDup options.*1
  ∧ (∀ b, b ∈ blocks →
          alist_get (block_type b) options
          = if has_view_options (getViewOptions b) then Some (getViewOptions b)
            else alist_get (block_type b) acc)
  ∧ (∀ t, t ∉ block_type <$> blocks → alist_get t options = alist_get t acc).
Proof.
  induction blocks as [|b blocks IH]; intros acc Hacc Hnd.
  { split_and!; [done | by intros b ?%elem_of_nil | done]. }
  cbn [fmap list_fmap] in Hnd. apply NoDup_cons in Hnd as [Hfresh Hnd].
  cbn [fmap list_fmap]. rewrite filter_cons. cbn [snd fst].
  set (acc' := if has_view_options (getViewOptions b)
               then obj_set (block_type b) (getViewOptions b) acc else acc).
  assert (NoDup acc'.*1) as Hacc'.
  { unfold acc'. destruct (has_view_options _); [|done].
    by apply alist_set_keys_NoDup. }
  destruct (IH acc' Hacc' Hnd) as (Hkeys & Hin & Hout).
  assert (∀ t, t ≠ block_type b → alist_get t acc' = alist_get t acc) as Hother.
  { intros t Ht. unfold acc'. destruct (has_view_options _); [|done].
    unfold obj_set. by rewrite alist_get_set, decide_False. }
  assert (alist_get (block_type b) acc'
          = if has_view_options (getViewOptions b) then Some (getViewOptions b)
            else alist_get (block_type b) acc) as Hthis.
  { unfold acc'. destruct (has_view_options _); [|done].
    unfold obj_set. by rewrite alist_get_set, decide_True. }
  assert (foldl (λ options block,
             obj_set (block_type block.1) block.2 (spread [] (VObj options)))
          acc
          (if decide (has_view_options (getViewOptions b) = true)
           then (b, getViewOptions b)
                :: filter (λ block, has_view_options block.2 = true)
                     ((λ block, (block, getViewOptions block)) <$> blocks)
           else filter (λ block, has_view_options block.2 = true)
                  ((λ block, (block, getViewOptions block)) <$> blocks))
          = foldl (λ options block,
               obj_set (block_type block.1) block.2 (spread [] (VObj options)))
            acc'
            (filter (λ block, has_view_options block.2 = true)
               ((λ block, (block, getViewOptions block)) <$> blocks))) as ->.
  { unfold acc'. destruct (has_view_options (getViewOptions b)).
    - rewrite decide_True by done. cbn [foldl fst snd]. by rewrite spread_empty_id.
    - by rewrite decide_False by done. }
  split_and!; [done | |].
  - intros b' [->|Hb']%elem_of_cons.
    + by rewrite Hout, Hthis.
    + rewrite Hin by done. destruct (has_view_options (getViewOptions b')); [done|].
      apply Hother. intros Heq. apply Hfresh. rewrite <-Heq.
      by apply list_elem_of_fmap_2.
  - intros t [Hne Ht]%not_elem_of_cons. rewrite Hout by done. by apply Hother.
Qed.

(** X15. With blocks of pairwise distinct types, [extendAdminMeta] lists the
    block types in order, files the view options of every block that has
    some under the type of the block, gives the other block types no key,
    and keeps every other property of [meta]. *)
Theorem extendAdminMeta_spec blocks meta :
  NoDup (block_type <$> blocks) →
  let result := extendAdminMeta blocks meta in
  obj_get "blockTypes" result = VArr (VStr ∘ block_type <$> blocks)
  ∧ (∃ options,
       obj_get "blockOptions" result = VObj options
       ∧ (∀ b, b ∈ blocks →
               alist_get (block_type b) options
               = if has_view_options (getViewOptions b)
                 then Some (getViewOptions b) else None)
       ∧ (∀ t, t ∉ block_type <$> blocks → alist_get t options = None))
  ∧ (NoDup (own_entries meta).*1 →
     ∀ k, k ≠ "blockTypes" → k ≠ "blockOptions" →
          alist_get k result = alist_get k (own_entries meta)).
Proof.
  intros Hnd result. unfold result, extendAdminMeta. split_and!.
  - by rewrite obj_get_set, decide_False, obj_get_set, decide_True.
  - exists (blockOptions blocks). rewrite obj_get_set, decide_True by done.
    split; [done|].
    destruct (blockOptions_lookup blocks [] (NoDup_nil_2 (A := string)) Hnd)
      as (_ & Hin & Hout).
    split; [|done]. intros b Hb. unfold blockOptions. rewrite (Hin b Hb).
    by destruct (has_view_options _).
  - intros Hmeta k Hk1 Hk2. unfold obj_set.
    rewrite !alist_get_set, !decide_False by done.
    rewrite alist_get_spread_entries by done. by destruct (alist_get k _).
Qed.

Section resolveInput_facts.
Variable JSON_parse : json → outcome json.
Variable JSON_stringify : json → outcome json.
Variable blockInstances : list BlockInstance.

End resolveInput_facts.

(** ** Scenarios *)

Example stringToPath_mutation_path :
  Lodash.stringToPath "cloudinaryImages.create[1]" = ["cloudinaryImages"; "create"; "1"].
Proof. reflexivity. Qed.

Example stringToPath_quoted :
  Lodash.stringToPath "a['b.c'].d[-2.5][x]..e" = ["a"; "b.c"; "d"; "-2.5"; "x"; ""; "e"].
Proof. reflexivity. Qed.

(** The serialize scenario of the specification. *)
Example scenario_serialize :
  serialiseSlateValue Sample.image_document {["image" := Sample.image]}
  = Ok [("document",
         VObj [("object", VStr "document"); ("data", VObj []);
               ("nodes", VArr [Sample.serialized_image])]);
        ("images",
         VObj [("disconnectAll", VBool true);
               ("create", VArr [VObj [("file", Sample.file);
                                      ("align", VStr "center")]])])].
Proof. by vm_compute. Qed.

(** The resolve scenario of the specification. *)
Example scenario_resolve :
  processSerialised [Sample.image] Sample.image_results Sample.serialized_document
  = Ok [("document",
         VObj [("object", VStr "document");
               ("nodes",
                VArr [VObj [("object", VStr "block"); ("type", VStr "image");
                            ("data",
                             VObj [("_joinIds",
                                    VArr [VObj [("id", VStr "abc123")]])])]])])].
Proof. by vm_compute. Qed.

(** The deserialize scenario of the specification. *)
Example scenario_deserialize :
  deserialiseToSlateValue Sample.fromJSON
    (("document", VObj []) :: Sample.fetched) (Some {["image" := Sample.image]}) tt
  = (Ok {| document :=
             Document [] [Block "image" [("publicUrl", VStr "http://x");
                                         ("align", VStr "center")] []] |}, tt).
Proof. by vm_compute. Qed.

(** ** Witnesses and counterexamples *)


Lemma deserialise_preconditions_witness :
  (∃ e, deserialiseToSlateValue Sample.fromJSON []
          (Some {["image" := Sample.image]}) tt = (Throw e, tt)
        ∧ class_of e = PreconditionError)
  ∧ (∃ e, deserialiseToSlateValue Sample.fromJSON [("document", VObj [])] None tt
          = (Throw e, tt)
          ∧ class_of e = PreconditionError)
  ∧ (∀ e, (deserialiseToSlateValue Sample.fromJSON [("document", VObj [])]
             (Some {["image" := Sample.image]}) tt).1 = Throw e →
          class_of e = PreconditionError →
          Sample.fromJSON [("document", VObj [])] = Throw e).
Proof.
  refine (conj _ (conj _ _)).
  - destruct (deserialise_preconditions Sample.fromJSON []
                (Some {["image" := Sample.image]})) as [H _].
    apply H. left. reflexivity.
  - destruct (deserialise_preconditions Sample.fromJSON [("document", VObj [])] None)
      as [H _].
    apply H. right. reflexivity.
  - destruct (deserialise_preconditions Sample.fromJSON [("document", VObj [])]
                (Some {["image" := Sample.image]})) as [_ H].
    apply H; [reflexivity | eexists; reflexivity].
Defined.

Lemma serialise_error_conditions_witness :
  let ghosts := {| document := Document [] [Block "ghost" [] []] |} in
  (walkSlateNode Node_is_block 1
     (serialise_visitors ghosts {["ghost" := Sample.nodeless]})
     (Block "ghost" [] []) []
   = (Throw MustReturnNode, [])
   ∧ class_of MustReturnNode = ConfigurationError)
  ∧ (walkSlateNode Node_is_block 1
       (serialise_visitors Sample.image_document {["stray" := Sample.pathless]})
       (Block "stray" [] []) []
     = (Throw (NoMutationPath "stray"), [])
     ∧ class_of (NoMutationPath "stray") = ConfigurationError)
  ∧ (∀ out, serialiseSlateValue ghosts {["ghost" := Sample.nodeless]} ≠ Ok out)
  ∧ serialise_visitBlock Sample.image_document {["note" := Sample.silent]}
      (Block "note" [] []) []
    = (Ok None, []).
Proof.
  intros ghosts. refine (conj _ (conj _ (conj _ _))).
  - destruct (serialise_error_conditions ghosts {["ghost" := Sample.nodeless]}
                (Block "ghost" [] []) Sample.nodeless) as (H & _ & _ & _); [reflexivity|].
    apply H; reflexivity.
  - destruct (serialise_error_conditions Sample.image_document
                {["stray" := Sample.pathless]}
                (Block "stray" [] []) Sample.pathless) as (_ & H & _ & _); [reflexivity|].
    apply H; reflexivity.
  - destruct (serialise_error_conditions ghosts {["ghost" := Sample.nodeless]}
                (Block "ghost" [] []) Sample.nodeless) as (_ & _ & H & _); [reflexivity|].
    apply H; [reflexivity | left; reflexivity |].
    vm_compute. right. left.
  - destruct (serialise_error_conditions Sample.image_document
                {["note" := Sample.silent]}
                (Block "note" [] []) Sample.silent) as (_ & _ & _ & H); [reflexivity|].
    apply H; reflexivity.
Defined.

(** C3, the claim as stated fails: the handler of the block returns no
    node and no mutations, and the block is in the serialized document,
    as its structural projection, not left out of it. *)
Lemma serialise_keeps_block_without_node :
  let value := {| document := Document [] [Block "note" [] []] |} in
  let blocks : gmap string BlockHandler := {["note" := Sample.silent]} in
  node (serialize Sample.silent value (Block "note" [] [])) = VUndefined
  ∧ ∃ result,
      serialiseSlateValue value blocks = Ok result
      ∧ get_prop (obj_get "document" result) "nodes"
        = VArr [VObj [("object", VStr "block"); ("type", VStr "note");
                      ("data", VObj []); ("nodes", VArr [])]]
      ∧ get_prop (obj_get "document" result) "nodes" ≠ VArr [].
Proof. split; [reflexivity|]. eexists. by vm_compute. Qed.

Lemma serialise_unclaimed_block_projected_witness :
  walkSlateNode Node_is_block 2
    (serialise_visitors Sample.image_document {["note" := Sample.silent]})
    (Block "note" [] [Text (VStr "hi")]) []
  = (Ok (VObj [("object", VStr "block"); ("type", VStr "note"); ("data", VObj []);
               ("nodes", VArr [VObj [("object", VStr "text");
                                     ("leaves", VStr "hi")]])]), []).
Proof.
  rewrite (serialise_unclaimed_block_projected Sample.image_document
             {["note" := Sample.silent]} 1 "note" [] [Text (VStr "hi")] Sample.silent []);
    reflexivity.
Defined.










(** Closing a [Forall] over the nodes of a concrete document. *)
Ltac forall_nodes :=
  match goal with
  | |- Forall ?P ?l => let l' := eval vm_compute in l in change (Forall P l')
  end;
  repeat first [apply Forall_nil_2 | apply Forall_cons_2];
  intros b Hb; vm_compute in Hb; simplify_eq; try done; by vm_compute.




Lemma serialise_configuration_errors_witness :
  let ghosts := {| document := Document [] [Block "ghost" [] []] |} in
  ∃ before n after b,
    reached ghosts {["ghost" := Sample.nodeless]} (document ghosts)
    = before ++ n :: after
    ∧ Forall (passes_checks ghosts {["ghost" := Sample.nodeless]}) before
    ∧ handler_of {["ghost" := Sample.nodeless]} n = Some b
    ∧ has_mutations (mutations (serialize b ghosts n)) = true
    ∧ (MustReturnNode = MustReturnNode ∧ truthy (node (serialize b ghosts n)) = false
       ∨ MustReturnNode = NoMutationPath (type b)
         ∧ truthy (node (serialize b ghosts n)) = true
         ∧ path_set b = None).
Proof.
  intros ghosts.
  apply (serialise_configuration_errors ghosts {["ghost" := Sample.nodeless]}
           MustReturnNode); reflexivity.
Defined.

Lemma resolve_mutation_paths_witness :
  ∃ resolved,
    walkSlateNode json_is_block 1 (resolve_visitors [Sample.image] Sample.image_results)
      Sample.serialized_image tt
    = (Ok resolved, tt)
    ∧ get_prop (get_prop resolved "data") "_joinIds"
      = VArr [VObj [("id", VStr "abc123")]].
Proof.
  destruct (resolve_mutation_paths [Sample.image] Sample.image_results 0
              [("object", VStr "block"); ("type", VStr "image");
               ("data", VObj [("_mutationPaths", VArr [VStr "images.create[0]"])])]
              [("_mutationPaths", VArr [VStr "images.create[0]"])]
              "images" "create" [("create", VArr [VObj [("id", VStr "abc123")]])]
              [VObj [("id", VStr "abc123")]] [0])
    as [Hresolved _]; [reflexivity | reflexivity | reflexivity | by eexists
                       | reflexivity | reflexivity | repeat constructor
                       | reflexivity | reflexivity |].
  eexists. split; [apply Hresolved; repeat constructor | reflexivity].
Defined.

Lemma resolve_plain_document_witness :
  processSerialised [Sample.image] (VObj []) Blocks.plain_document
  = Ok [("document", Blocks.plain_document)].
Proof. apply resolve_plain_document. reflexivity. Defined.


Lemma resolvedMutations_last_wins_witness :
  alist_get "images" (resolvedMutations [Blocks.early; Blocks.late] VNull)
  = Some (VNum 2).
Proof.
  rewrite (resolvedMutations_last_wins VNull [Blocks.early; Blocks.late] "images");
    [reflexivity|].
  repeat first [apply Forall_nil_2 | apply Forall_cons_2];
    apply (bool_decide_unpack _); by vm_compute.
Defined.



Lemma deserialise_missing_records_witness :
  walkSlateNode Node_is_block 1
    (deserialise_visitors [] {["image" := Sample.image]}) Sample.persisted_image tt
  = (Throw TypeError, tt)
  ∧ class_of TypeError = RuntimeError.
Proof.
  destruct (deserialise_missing_records [] {["image" := Sample.image]} 0
              "image" [("_joinIds", VArr [VStr "abc123"])] [] Sample.image)
    as [Hthrows _]; [reflexivity | done |].
  by apply (Hthrows (VStr "abc123") []).
Defined.

Lemma deserialise_contract_errors_witness :
  walkSlateNode Node_is_block 1
    (deserialise_visitors [] {["rogue" := Blocks.rogue]}) (Block "rogue" [] []) tt
  = (Throw MustReturnSlateNode, tt)
  ∧ class_of MustReturnSlateNode = ContractViolationError.
Proof.
  destruct (deserialise_contract_errors Sample.fromJSON [("document", VObj [])]
              {["rogue" := Blocks.rogue]}) as [Hthrows _].
  by apply (Hthrows 0 "rogue" [] [] Blocks.rogue [] (VStr "oops")).
Defined.

Lemma check_duplicates_spec_witness :
  check_duplicates [Blocks.LinkBlock (VObj []) tt; Blocks.CaptionBlock (VObj []) tt;
                    Blocks.OrderedListBlock (VObj []) tt; Blocks.paragraph (VObj []) tt]
  = inr tt
  ∧ ∃ before current after,
      [Blocks.CaptionBlock (VObj []) tt; Blocks.LinkBlock (VObj []) tt;
       Blocks.LinkBlock (VObj []) tt; Blocks.CaptionBlock (VObj []) tt]
      = before ++ current :: after
      ∧ DuplicateBlockType "caption" = DuplicateBlockType (block_type current)
      ∧ block_type current ∈ block_type <$> after
      ∧ NoDup (block_type <$> before)
      ∧ ∀ b, b ∈ before → block_type b ∉ block_type <$> (current :: after).
Proof.
  split.
  - apply (check_duplicates_spec _). apply (bool_decide_unpack _). by vm_compute.
  - by apply (check_duplicates_spec _).
Defined.

Lemma Content_blocks_spec_witness :
  Content_blocks Blocks.paragraph
    (Some [BareBlock Blocks.LinkBlock;
           BlockTuple Blocks.embed (VObj [("apiKey", VStr "k")])]) tt
  = inr [Blocks.LinkBlock (VObj []) tt;
         Blocks.embed (VObj [("apiKey", VStr "k")]) tt;
         Blocks.paragraph (VObj []) tt]
  ∧ ∃ t, Content_blocks Blocks.paragraph (Some [BareBlock Blocks.paragraph]) tt
         = inl (DuplicateBlockType t)
         ∧ t ∈ block_type <$> [Blocks.paragraph (VObj []) tt].
Proof.
  split.
  - apply (Content_blocks_spec Blocks.paragraph tt).
    + apply (bool_decide_unpack _). by vm_compute.
    + apply (bool_decide_unpack _). by vm_compute.
  - apply (Content_blocks_spec Blocks.paragraph tt (Some [BareBlock Blocks.paragraph])).
    right. left.
Defined.

Lemma extendAdminMeta_spec_witness :
  let blocks := [Blocks.LinkBlock (VObj []) tt;
                 Blocks.embed (VObj [("apiKey", VStr "k")]) tt] in
  let result := extendAdminMeta blocks (VObj [("label", VStr "Body")]) in
  obj_get "blockTypes" result = VArr [VStr "link"; VStr "embed"]
  ∧ get_prop (obj_get "blockOptions" result) "embed" = VObj [("apiKey", VStr "k")]
  ∧ obj_get "label" result = VStr "Body".
Proof.
  intros blocks result.
  destruct (extendAdminMeta_spec blocks (VObj [("label", VStr "Body")]))
    as (Htypes & (options & Hoptions & Hin & _) & Hmeta).
  { apply (bool_decide_unpack _). by vm_compute. }
  split_and!.
  - exact Htypes.
  - fold result in Hoptions. rewrite Hoptions. cbn [get_prop]. unfold obj_get.
    specialize (Hin (Blocks.embed (VObj [("apiKey", VStr "k")]) tt)).
    change (block_type _) with "embed" in Hin. rewrite Hin; [done|].
    right. left.
  - unfold obj_get. fold result in Hmeta. rewrite Hmeta; [done | | done..].
    apply (bool_decide_unpack _). by vm_compute.
Defined.


Lemma resolve_idempotent_witness :
  ∃ result,
    processSerialised [Sample.image] Sample.image_results Sample.serialized_document
    = Ok result
    ∧ processSerialised [] VNull (obj_get "document" result) = Ok result.
Proof.
  eexists. split; [by vm_compute|].
  apply (resolve_idempotent [Sample.image] Sample.image_results [] VNull
           Sample.serialized_document); [|by vm_compute].
  match goal with
  | |- Forall ?P ?l => let l' := eval vm_compute in l in change (Forall P l')
  end.
  repeat first [apply Forall_nil_2 | apply Forall_cons_2];
    apply (bool_decide_unpack _); by vm_compute.
Defined.


